(** * EasyParts: the download scheduler, the progress aggregator, the
      resumable transfer worker and the extraction of [EasyParts.py]

    The development has three parts.

    - [Scheduler] embeds the controller side of [MainWindow]: the item
      collection, the worker dictionary keyed by row, the concurrency
      ceiling, and every handler that mutates them.  [DownloadItem]
      objects are shared between the collection and the workers, so they
      live in a store and are addressed by reference.
    - [Worker] embeds [DownloadWorker.run]: the resume prologue, the
      range handling and the chunk loop, as a small-step machine that is
      interleaved with the control requests of the controller thread.
    - [Archive] embeds the extraction after a batch and the helpers
      around it: [is_archive_first_part], [extract_all],
      [_cleanup_parts], [human_bytes] and the output folder. *)

From Stdlib Require Import QArith Ascii.
From stdpp Require Import gmap strings list fin_maps sorting.

Local Open Scope Z_scope.

(** ** Data structures *)

(** [DownloadItem.status]: the six strings the program uses. *)
Inductive Status := Queued | Downloading | Paused | Done | Error | Canceled.

Global Instance Status_eq_dec : EqDecision Status.
Proof. solve_decision. Defined.

(** [@dataclass DownloadItem].  [dest_dir] and [filename] only feed the
    two file paths; the worker model below carries the two files
    themselves, so the record keeps the fields the scheduler and the
    aggregator read. *)
Record DownloadItem := mkItem {
  url : string;
  size : option Z;
  downloaded : Z;
  status : Status;
  error : option string;
  index : nat
}.

Definition set_status (s : Status) (it : DownloadItem) : DownloadItem :=
  mkItem (url it) (size it) (downloaded it) s (error it) (index it).
Definition set_index (i : nat) (it : DownloadItem) : DownloadItem :=
  mkItem (url it) (size it) (downloaded it) (status it) (error it) i.
Definition set_downloaded (d : Z) (it : DownloadItem) : DownloadItem :=
  mkItem (url it) (size it) d (status it) (error it) (index it).
Definition set_size (sz : option Z) (it : DownloadItem) : DownloadItem :=
  mkItem (url it) sz (downloaded it) (status it) (error it) (index it).

(** [CHUNK_SIZE = 1024 * 1024] *)
Definition CHUNK_SIZE : Z := 1024 * 1024.

(** [status in ("Queued", "Paused", "Error", "Canceled")] *)
Definition eligible (s : Status) : bool :=
  match s with
  | Queued | Paused | Error | Canceled => true
  | Downloading | Done => false
  end.

(** [status in ("Done", "Error", "Canceled")] *)
Definition terminal (s : Status) : bool :=
  match s with
  | Done | Error | Canceled => true
  | Queued | Downloading | Paused => false
  end.

(** ** The progress aggregator ([MainWindow._update_overall]) *)

Module Aggregator.

(** [it.size or 0]: [None] and [0] are both falsy. *)
Definition size_or (dflt : Z) (it : DownloadItem) : Z :=
  match size it with
  | Some s => if s =? 0 then dflt else s
  | None => dflt
  end.

Definition sumZ (l : list Z) : Z := foldr Z.add 0 l.

(** [total = sum(it.size or 0 for it in self.items)] *)
Definition total (its : list DownloadItem) : Z :=
  sumZ (map (size_or 0) its).

(** [done = sum(min(it.downloaded, it.size or it.downloaded) ...)] *)
Definition done_bytes (its : list DownloadItem) : Z :=
  sumZ (map (fun it => Z.min (downloaded it) (size_or (downloaded it) it)) its).

(** [sum(1 for it in self.items if it.status == "Done")] *)
Definition finished (its : list DownloadItem) : nat :=
  length (List.filter (fun it => bool_decide (status it = Done)) its).

(** The fraction that is scaled to the bar: [done / total] when
    [total > 0], else [finished / len(items)] for a non-empty
    collection, else the initial [pct = 0].  Python divides in floating
    point; the model keeps the exact quotient. *)
Definition overall_fraction (its : list DownloadItem) : Q :=
  if 0 <? total its then inject_Z (done_bytes its) / inject_Z (total its)
  else match its with
       | [] => 0
       | _ :: _ => inject_Z (Z.of_nat (finished its))
                   / inject_Z (Z.of_nat (length its))
       end.

(** [pct = int(1000 * fraction)]; [int] truncates toward zero. *)
Definition pct (its : list DownloadItem) : Z :=
  let q := (1000 * overall_fraction its)%Q in
  Z.quot (Qnum q) (Z.pos (Qden q)).

(** The text of [lbl_overall]: ["{finished}/{len(items)} done"]. *)
Definition summary (its : list DownloadItem) : nat * nat :=
  (finished its, length its).

(** The fraction as the specification words it: byte-weighted over the
    known sizes when their total is positive, the share of [Done] items
    otherwise.  An item of unknown size counts its transferred bytes. *)
Definition known_total (its : list DownloadItem) : Z :=
  sumZ (map (fun it => default 0 (size it)) its).

Definition spec_fraction (its : list DownloadItem) : Q :=
  if 0 <? known_total its
  then inject_Z (sumZ (map (fun it =>
           Z.min (downloaded it) (default (downloaded it) (size it))) its))
       / inject_Z (known_total its)
  else inject_Z (Z.of_nat (length (List.filter
                   (fun it => bool_decide (status it = Done)) its)))
       / inject_Z (Z.of_nat (length its)).

(** Byte counts as the program produces them: none is negative. *)
Definition counts_nonneg (i : DownloadItem) : Prop :=
  0 <= downloaded i /\ forall s, size i = Some s -> 0 <= s.

(** Sample items: one whose size is known, one whose size is not. *)
Definition known (sz dl : Z) (s : Status) : DownloadItem :=
  mkItem "" (Some sz) dl s None 0.
Definition unknown (dl : Z) (s : Status) : DownloadItem :=
  mkItem "" None dl s None 0.

End Aggregator.

(** ** The scheduler ([MainWindow]) *)

Module Scheduler.

(** A reference to a [DownloadItem] object: its position in the store. *)
Abbreviation ref := nat (only parsing).

(** [DownloadWorker]: the item it was built for and its two
    [threading.Event] flags.  The controller only ever writes the flags
    and reads [item]; the thread that runs the worker is the reader.
    The worker is a [QRunnable] the thread pool owns: when [run]
    returns the pool deletes the runnable, and [deleted] says so of
    the object the dictionary still holds. *)
Record DownloadWorker := mkWorker {
  item : ref;
  _pause : bool;
  _stop : bool;
  deleted : bool
}.

Definition request_pause (w : DownloadWorker) : DownloadWorker :=
  mkWorker (item w) true (_stop w) (deleted w).
Definition request_resume (w : DownloadWorker) : DownloadWorker :=
  mkWorker (item w) false (_stop w) (deleted w).
Definition request_cancel (w : DownloadWorker) : DownloadWorker :=
  mkWorker (item w) (_pause w) true (deleted w).

(** What the thread pool does to the runnable once [run] has
    returned. *)
Definition delete_runnable (w : DownloadWorker) : DownloadWorker :=
  mkWorker (item w) (_pause w) (_stop w) true.

(** What leaves the controller: a worker handed to the thread pool, a
    cancel request on a worker that is dropped from the dictionary in
    the same breath, and a call of [extract_all]. *)
Inductive Effect :=
  | ThreadStart (w : DownloadWorker)
  | CancelSent (w : DownloadWorker)
  | ExtractAll.

Global Instance DownloadWorker_eq_dec : EqDecision DownloadWorker.
Proof. solve_decision. Defined.
Global Instance Effect_eq_dec : EqDecision Effect.
Proof. solve_decision. Defined.

Record MainWindow := mkWin {
  store : list DownloadItem;          (* every DownloadItem object created *)
  items : list ref;                   (* self.items *)
  workers : gmap nat DownloadWorker;  (* self.workers *)
  max_concurrency : Z;                (* self.max_concurrency *)
  concurrency : Z;                    (* self.concurrency.value() *)
  chk_extract : bool;                 (* self.chk_extract.isChecked() *)
  overall_bar : Z;                    (* self.overall_bar.value *)
  lbl_overall : nat * nat;            (* self.lbl_overall *)
  effects : list Effect
}.

(** [MainWindow.__init__] and [_build_ui]. *)
Definition init : MainWindow :=
  mkWin [] [] ∅ 3 3 true 0 (0%nat, 0%nat) [].

(** *** Exceptions and the handler monad

    A handler runs on the controller state and either returns or raises;
    what it mutated before raising stays mutated. *)
Inductive exn := IndexError | RuntimeError.

Inductive outcome (A : Type) :=
  | Ret (a : A)
  | Raise (e : exn).
Arguments Ret {A} a.
Arguments Raise {A} e.

Definition M (A : Type) : Type := MainWindow -> outcome A * MainWindow.

Definition ret {A} (a : A) : M A := fun st => (Ret a, st).
Definition raise {A} (e : exn) : M A := fun st => (Raise e, st).
Definition bind {A B} (m : M A) (k : A -> M B) : M B :=
  fun st => match m st with
            | (Ret a, st') => k a st'
            | (Raise e, st') => (Raise e, st')
            end.
Definition gets {A} (f : MainWindow -> A) : M A := fun st => (Ret (f st), st).
Definition modify (f : MainWindow -> MainWindow) : M unit :=
  fun st => (Ret tt, f st).

(** The handlers are written with stdpp's monad notations. *)
Global Instance M_ret : MRet M := @ret.
Global Instance M_bind : MBind M := fun A B k m => bind m k.

(** [for x in xs: body(x)] *)
Fixpoint for_each {A} (xs : list A) (body : A -> M unit) : M unit :=
  match xs with
  | [] => ret tt
  | x :: rest => body x ;; for_each rest body
  end.

(** The state a handler leaves behind, raised or not. *)
Definition exec (m : M unit) (st : MainWindow) : MainWindow := snd (m st).

(** *** Field updates *)

Definition with_store (f : list DownloadItem -> list DownloadItem)
    (st : MainWindow) : MainWindow :=
  mkWin (f (store st)) (items st) (workers st) (max_concurrency st)
        (concurrency st) (chk_extract st) (overall_bar st) (lbl_overall st)
        (effects st).
Definition with_items (f : list ref -> list ref) (st : MainWindow) : MainWindow :=
  mkWin (store st) (f (items st)) (workers st) (max_concurrency st)
        (concurrency st) (chk_extract st) (overall_bar st) (lbl_overall st)
        (effects st).
Definition with_workers (f : gmap nat DownloadWorker -> gmap nat DownloadWorker)
    (st : MainWindow) : MainWindow :=
  mkWin (store st) (items st) (f (workers st)) (max_concurrency st)
        (concurrency st) (chk_extract st) (overall_bar st) (lbl_overall st)
        (effects st).
Definition with_max_concurrency (v : Z) (st : MainWindow) : MainWindow :=
  mkWin (store st) (items st) (workers st) v
        (concurrency st) (chk_extract st) (overall_bar st) (lbl_overall st)
        (effects st).
Definition with_concurrency (v : Z) (st : MainWindow) : MainWindow :=
  mkWin (store st) (items st) (workers st) (max_concurrency st)
        v (chk_extract st) (overall_bar st) (lbl_overall st) (effects st).
Definition with_chk_extract (b : bool) (st : MainWindow) : MainWindow :=
  mkWin (store st) (items st) (workers st) (max_concurrency st)
        (concurrency st) b (overall_bar st) (lbl_overall st) (effects st).
Definition with_overall (p : Z) (l : nat * nat) (st : MainWindow) : MainWindow :=
  mkWin (store st) (items st) (workers st) (max_concurrency st)
        (concurrency st) (chk_extract st) p l (effects st).
Definition emit (e : Effect) (st : MainWindow) : MainWindow :=
  mkWin (store st) (items st) (workers st) (max_concurrency st)
        (concurrency st) (chk_extract st) (overall_bar st) (lbl_overall st)
        (effects st ++ [e]).

(** The objects the collection refers to, in display order. *)
Definition item_objects (st : MainWindow) : list DownloadItem :=
  omap (fun r => store st !! r) (items st).

(** The status of the object behind a reference. *)
Definition status_of (st : MainWindow) (r : ref) : option Status :=
  status <$> store st !! r.

(** [_update_overall]: recomputed from the collection, written to the
    two widgets. *)
Definition _update_overall : M unit :=
  modify (fun st => with_overall (Aggregator.pct (item_objects st))
                                 (Aggregator.summary (item_objects st)) st).

(** [self.items[row]]: raises [IndexError] past the end. *)
Definition item_at (row : nat) : M ref :=
  fun st => match items st !! row with
            | Some r => (Ret r, st)
            | None => (Raise IndexError, st)
            end.

(** [obj.field = v] on the object behind [r]. *)
Definition update_object (r : ref) (f : DownloadItem -> DownloadItem) : M unit :=
  modify (with_store (alter f r)).

(** [_add_item]: a fresh [Queued] object appended to the collection, its
    [index] the length before the append. *)
Definition _add_item (u : string) : M unit :=
  modify (fun st =>
    let idx := length (items st) in
    let r := length (store st) in
    with_items (fun l => l ++ [r])
      (with_store (fun h => h ++ [mkItem u None 0 Queued None idx]) st)).

(** [sum(1 for w in self.workers.values()
          if w and w.item.status == "Downloading")] *)
Definition active (st : MainWindow) : nat :=
  length (List.filter
            (fun kw => bool_decide (status_of st (item (snd kw)) = Some Downloading))
            (map_to_list (workers st))).

(** The branch of [_pump_queue] that admits [item]: create or reuse
    the worker filed under [item.index], clear its pause flag, mark the
    item [Downloading], hand the worker to the thread pool.
    [threadpool.start(w)] raises [RuntimeError] for a runnable the pool
    has deleted; the flag and the status are written by then. *)
Definition promote (r : ref) (it : DownloadItem) : M unit :=
  filed ← gets (fun st => workers st !! index it);
  let w := request_resume (default (mkWorker r false false false) filed) in
  modify (with_workers (insert (index it) w));;
  update_object r (set_status Downloading);;
  if deleted w then raise RuntimeError else modify (emit (ThreadStart w)).

(** [for item in self.items] in [_pump_queue]; the loop counter
    [available_slots] is threaded through.  An exception of
    [promote] ends the loop. *)
Fixpoint pump_loop (its : list ref) (available_slots : Z) : M unit :=
  match its with
  | [] => ret tt
  | r :: rest =>
    if available_slots <=? 0 then ret tt
    else
      it ← gets (fun st => store st !! r);
      match it with
      | Some it =>
        if eligible (status it)
        then promote r it;; pump_loop rest (available_slots - 1)
        else pump_loop rest available_slots
      | None => pump_loop rest available_slots
      end
  end.

(** [_pump_queue]; an exception of the loop leaves it before
    [_update_overall]. *)
Definition _pump_queue : M unit :=
  st ← gets id;
  let available_slots := max_concurrency st - Z.of_nat (active st) in
  if available_slots <=? 0 then ret tt
  else pump_loop (items st) available_slots;; _update_overall.

(** [start_queue] *)
Definition start_queue : M unit :=
  modify (fun st => with_max_concurrency (concurrency st) st);;
  _pump_queue.

(** [_update_concurrency], the slot of the spin box's [valueChanged]. *)
Definition _update_concurrency (val : Z) : M unit :=
  modify (with_max_concurrency val);;
  _pump_queue.

(** [on_progress] *)
Definition on_progress (idx : nat) (dl total : Z) : M unit :=
  r ← item_at idx;
  update_object r (set_downloaded dl);;
  (if 0 <? total then update_object r (set_size (Some total)) else ret tt);;
  _update_overall.

(** [on_status] *)
Definition on_status (idx : nat) (s : Status) : M unit :=
  r ← item_at idx;
  update_object r (set_status s);;
  _update_overall.

(** [on_error]: a message box, then the aggregate. *)
Definition on_error (idx : nat) (message : string) : M unit :=
  _update_overall.

(** [all(it.status in ("Done", "Error", "Canceled")
         for it in self.items if self.items)]: the condition of the
    generator is the truth value of the list, tested per element. *)
Definition all_terminal (st : MainWindow) : bool :=
  forallb (fun it => terminal (status it))
    (List.filter (fun _ => negb (bool_decide (items st = [])))
                 (item_objects st)).

(** [on_finished] *)
Definition on_finished (idx : nat) (path : string) : M unit :=
  st ← gets id;
  (if all_terminal st
   then if chk_extract st then modify (emit ExtractAll) else ret tt
   else ret tt);;
  _update_overall.

(** The loop that [pause_selected], [resume_selected] and
    [cancel_selected] share, over [rows = self._selected_rows()]: the
    worker filed under the row, if any, gets the request and the item
    of the row gets the status. *)
Definition for_selected (request : DownloadWorker -> DownloadWorker)
    (s : Status) (rows : list nat) : M unit :=
  for_each rows (fun row =>
    w ← gets (fun st => workers st !! row);
    match w with
    | Some w =>
      modify (with_workers (insert row (request w)));;
      r ← item_at row;
      update_object r (set_status s)
    | None => ret tt
    end).

Definition pause_selected (rows : list nat) : M unit :=
  for_selected request_pause Paused rows;;
  _update_overall.

Definition resume_selected (rows : list nat) : M unit :=
  for_selected request_resume Downloading rows;;
  _pump_queue.

Definition cancel_selected (rows : list nat) : M unit :=
  for_selected request_cancel Canceled rows;;
  _update_overall.

(** [sorted(rows, reverse=True)] *)
Fixpoint insert_desc (x : nat) (l : list nat) : list nat :=
  match l with
  | [] => [x]
  | y :: rest => if (y <=? x)%nat then x :: l else y :: insert_desc x rest
  end.
Definition sorted_desc (l : list nat) : list nat := foldr insert_desc [] l.

(** [for i, it in enumerate(self.items): it.index = i] *)
Fixpoint reindex_from (i : nat) (its : list ref) (h : list DownloadItem)
    : list DownloadItem :=
  match its with
  | [] => h
  | r :: rest => reindex_from (S i) rest (alter (set_index i) r h)
  end.
Definition reindex : M unit :=
  modify (fun st => with_store (reindex_from 0 (items st)) st).

(** The body of the loop of [remove_selected]: cancel the worker filed
    under the row, delete the row from the collection and from the
    dictionary.  The stop flag is set on the worker the dictionary
    holds, and stays set there if [del self.items[row]] raises. *)
Definition remove_row (row : nat) : M unit :=
  w ← gets (fun st => workers st !! row);
  match w with
  | Some w =>
    modify (with_workers (insert row (request_cancel w)));;
    modify (emit (CancelSent (request_cancel w)))
  | None => ret tt
  end;;
  _ ← item_at row;
  modify (with_items (delete row));;
  modify (with_workers (delete row)).

(** [remove_selected] *)
Definition remove_selected (rows : list nat) : M unit :=
  for_each (sorted_desc rows) remove_row;;
  reindex;;
  _update_overall.

(** [clear_finished] *)
Definition clear_finished : M unit :=
  modify (fun st =>
    with_items (fun _ =>
      List.filter (fun r => match status_of st r with
                            | Some s => negb (terminal s)
                            | None => true
                            end) (items st)) st);;
  reindex;;
  modify (with_workers (fun _ => ∅));;
  _update_overall.

(** *** Sequences of operations *)

Inductive Op :=
  | AddUrl (u : string)
  | Start
  | PauseSelected (rows : list nat)
  | ResumeSelected (rows : list nat)
  | CancelSelected (rows : list nat)
  | RemoveSelected (rows : list nat)
  | SetCeiling (v : Z)
  | ClearFinished
  | ProgressEvent (idx : nat) (dl total : Z)
  | StatusEvent (idx : nat) (s : Status)
  | ErrorEvent (idx : nat) (message : string)
  | FinishedEvent (idx : nat) (path : string)
  | RunReturned (key : nat).

(** The handler behind each operation.  A ceiling change is the spin box
    taking the value and signalling it.  [RunReturned key] is no
    handler of the window: the [run] of the worker filed under [key]
    has returned and the thread pool deletes the runnable. *)
Definition handler (op : Op) : M unit :=
  match op with
  | AddUrl u => _add_item u
  | Start => start_queue
  | PauseSelected rows => pause_selected rows
  | ResumeSelected rows => resume_selected rows
  | CancelSelected rows => cancel_selected rows
  | RemoveSelected rows => remove_selected rows
  | SetCeiling v => modify (with_concurrency v);; _update_concurrency v
  | ClearFinished => clear_finished
  | ProgressEvent idx dl total => on_progress idx dl total
  | StatusEvent idx s => on_status idx s
  | ErrorEvent idx message => on_error idx message
  | FinishedEvent idx path => on_finished idx path
  | RunReturned key => modify (with_workers (alter delete_runnable key))
  end.

(** The event loop: a handler that raised has its exception reported
    and the loop goes on with the state as it is. *)
Definition step (st : MainWindow) (op : Op) : MainWindow := exec (handler op) st.
Definition replay (ops : list Op) (st : MainWindow) : MainWindow :=
  foldl step st ops.

(** Number of items of the collection whose status is [Downloading]. *)
Definition downloading (st : MainWindow) : nat :=
  length (List.filter
            (fun r => bool_decide (status_of st r = Some Downloading))
            (items st)).

(** Number of times [extract_all] was called. *)
Definition extractions (st : MainWindow) : nat :=
  length (List.filter (fun e => bool_decide (e = ExtractAll)) (effects st)).

(** *** What the pump works with *)

(** The object behind [r] passes the test of the pump. *)
Definition pumpable (h : list DownloadItem) (r : ref) : bool :=
  match h !! r with
  | Some it => eligible (status it)
  | None => false
  end.

(** The eligible items, in display order. *)
Definition eligibles (st : MainWindow) : list ref :=
  List.filter (pumpable (store st)) (items st).

(** The slots the pump finds free: the ceiling less the workers whose
    item is [Downloading], none if that is negative. *)
Definition free_slots (st : MainWindow) : nat :=
  Z.to_nat (max_concurrency st - Z.of_nat (active st)).

(** [item.index] of the object behind [r]. *)
Definition display_index (st : MainWindow) (r : ref) : option nat :=
  index <$> store st !! r.

(** The collection as the program builds it: no object twice, every
    reference an object, and [index] the row. *)
Record well_formed (st : MainWindow) : Prop := {
  wf_nodup : NoDup (items st);
  wf_valid : forall r, r ∈ items st -> (r < length (store st))%nat;
  wf_index : forall p r, items st !! p = Some r -> display_index st r = Some p
}.

(** The dictionary in step with the collection: a worker filed under a
    row is the worker of the item of that row, and every [Downloading]
    item has one. *)
Record in_step (st : MainWindow) : Prop := {
  step_keyed : forall k w, workers st !! k = Some w ->
                           items st !! k = Some (item w);
  step_covered : forall p r, items st !! p = Some r ->
                             status_of st r = Some Downloading ->
                             is_Some (workers st !! p)
}.

(** What [_selected_rows()] can return in [st]: distinct rows of the
    table. *)
Definition selection (st : MainWindow) (rows : list nat) : Prop :=
  NoDup rows /\ forall row, row ∈ rows -> (row < length (items st))%nat.

Definition well_selected (st : MainWindow) (op : Op) : Prop :=
  match op with
  | PauseSelected rows | ResumeSelected rows
  | CancelSelected rows | RemoveSelected rows => selection st rows
  | _ => True
  end.

(** The states of the controller: the initial one and what any
    operation or event makes of a state. *)
Inductive reachable : MainWindow -> Prop :=
  | reachable_init : reachable init
  | reachable_step st op :
      reachable st -> well_selected st op -> reachable (step st op).

(** Rows in strictly descending order, all below [n]. *)
Fixpoint descending_below (n : nat) (rows : list nat) : Prop :=
  match rows with
  | [] => True
  | row :: rest => (row < n)%nat /\ descending_below row rest
  end.

(** The ceiling holds in [st]. *)
Definition within_ceiling (st : MainWindow) : Prop :=
  Z.of_nat (downloading st) <= max_concurrency st.

(** The state of a session that has kept the ceiling so far. *)
Record steady (st : MainWindow) : Prop := {
  steady_wf : well_formed st;
  steady_step : in_step st;
  steady_ceiling : within_ceiling st;
  steady_spin : concurrency st = max_concurrency st
}.

(** The operations of a session that adds, starts, pauses, cancels and
    changes the ceiling, never to a value below the number of items
    that are [Downloading] at that moment, and what the workers do in
    between: they report progress, a status, an error or the end of a
    transfer, and their [run] returns.  A report of [Downloading] is
    for a row that still is [Downloading]: one that arrives after the
    row was paused or canceled is left out, as resuming, removing and
    clearing are. *)
Definition keeps_ceiling (st : MainWindow) (op : Op) : bool :=
  match op with
  | AddUrl _ | Start | PauseSelected _ | CancelSelected _ => true
  | SetCeiling v => Z.of_nat (downloading st) <=? v
  | ProgressEvent _ _ _ | ErrorEvent _ _ | FinishedEvent _ _
  | RunReturned _ => true
  | StatusEvent idx s =>
    negb (bool_decide (s = Downloading))
    || match items st !! idx with
       | Some r => bool_decide (status_of st r = Some Downloading)
       | None => true
       end
  | ResumeSelected _ | RemoveSelected _ | ClearFinished => false
  end.

Fixpoint admissible (ops : list Op) (st : MainWindow) : bool :=
  match ops with
  | [] => true
  | op :: rest => keeps_ceiling st op && admissible rest (step st op)
  end.

(** The states a session goes through, the first one included. *)
Fixpoint visited (ops : list Op) (st : MainWindow) : list MainWindow :=
  st :: match ops with
        | [] => []
        | op :: rest => visited rest (step st op)
        end.

(** *** Sample sessions *)

(** Two parts added and started under the initial ceiling of 3. *)
Definition two_running : MainWindow :=
  replay [AddUrl "http://host/game.part1.rar";
       AddUrl "http://host/game.part2.rar"; Start] init.

(** Four parts queued under the initial ceiling of 3. *)
Definition four_queued : MainWindow :=
  replay [AddUrl "http://host/game.part1.rar";
       AddUrl "http://host/game.part2.rar";
       AddUrl "http://host/game.part3.rar";
       AddUrl "http://host/game.part4.rar"] init.

(** The statuses of the collection, in display order. *)
Definition statuses (st : MainWindow) : list Status :=
  status <$> item_objects st.

(** Both parts report [Done] before either [finished] signal is
    handled. *)
Definition both_done_then_finished : list Op :=
  [AddUrl "http://host/game.part1.rar";
   AddUrl "http://host/game.part2.rar"; Start;
   StatusEvent 0 Done; StatusEvent 1 Done;
   FinishedEvent 0 "game.part1.rar"; FinishedEvent 1 "game.part2.rar"].

(** The condition under which [on_finished] calls [extract_all], said
    of the collection: every item is terminal. *)
Definition every_item_terminal (st : MainWindow) : Prop :=
  Forall (fun it => terminal (status it) = true) (item_objects st).

(** A worker for the object [r] is filed under [k] and its stop flag
    is set. *)
Definition stopped_under (k : nat) (r : ref) (st : MainWindow) : Prop :=
  exists w, workers st !! k = Some w /\ item w = r /\ _stop w = true.

(** The operations that take workers out of the dictionary. *)
Definition drops_workers (op : Op) : bool :=
  match op with
  | RemoveSelected _ | ClearFinished => true
  | _ => false
  end.

(** No worker of the dictionary has had its runnable deleted. *)
Definition alive (st : MainWindow) : Prop :=
  forall k w, workers st !! k = Some w -> deleted w = false.

(** An object with its [index] blanked: what [reindex] leaves alone. *)
Definition content (it : DownloadItem) : DownloadItem := set_index 0 it.

(** One part added, started, canceled. *)
Definition one_canceled : MainWindow :=
  replay [AddUrl "http://host/game.part1.rar"; Start;
          CancelSelected [0%nat]] init.

End Scheduler.

(** ** The transfer worker ([DownloadWorker.run]) *)

Module Worker.

Definition bytes := list Byte.byte.

(** The two artifacts of an item: [item.temp_path()] and
    [item.final_path()], each absent or holding its content. *)
Record Files := mkFiles {
  temp : option bytes;
  final : option bytes
}.

(** [mode]: ["ab"] or ["wb"]. *)
Inductive Mode := AB | WB.

(** [DownloadSignals].  [progress] is [Signal(int, int, int)]: what is
    emitted is carried as a C [int], see [int32]. *)
Inductive Signal :=
  | progress (idx : nat) (dl total : Z)
  | status_sig (idx : nat) (s : Status)
  | error_sig (idx : nat) (message : string)
  | finished (idx : nat).

(** The answer to [requests.head]: a [RequestException], or the parsed
    [Content-Length] (["0"] when the header is missing).  The
    [accept_ranges] the code computes next is never read. *)
Inductive HeadReply :=
  | HeadRaises
  | HeadOk (content_length : Z).

(** The answer to [requests.get(..., stream=True)] once
    [raise_for_status] has passed. *)
Record Response := mkResponse {
  status_code : Z;
  (* int(r.headers.get("Content-Length", "0")); None when int() raises *)
  content_length : option Z;
  (* what r.iter_content(chunk_size=CHUNK_SIZE) yields *)
  body : list bytes;
  (* the RequestException that ends the stream early, if one does *)
  failure : option string
}.

(** [requests.get] or [raise_for_status] raising, or a response. *)
Inductive GetReply :=
  | GetRaises (message : string)
  | GetOk (r : Response).

(** Where the thread stands in [run]. *)
Inductive Pc :=
  | Fetch                    (* at [for chunk in r.iter_content(...)] *)
  | Holding (chunk : bytes)  (* past the stop test, at the pause loop *)
  | Returned.

(** The worker's flags, the item object it shares with the controller,
    the locals of [run], the files, and the signals emitted so far.
    [temp] is what has been written through the open handle; the handle
    is closed, so the content is on disk, whenever [pc = Returned].
    The controller writes the flags through the three requests and the
    item object through its handlers: [execute] below is a run during
    which it leaves the item alone, [interleave] one during which it
    writes it between any two moves of the thread. *)
Record State := mkState {
  it : DownloadItem;
  _pause : bool;
  _stop : bool;
  files : Files;
  range : option Z;          (* headers["Range"]: bytes=<n>- *)
  resume_from : Z;
  mode : Mode;
  pc : Pc;
  pending : list bytes;
  breaks : option string;
  signals : list Signal
}.

Definition len (b : bytes) : Z := Z.of_nat (length b).

(** What a Python int becomes as an [int] argument of a signal: the
    value modulo 2^32, taken between -2^31 and 2^31 - 1. *)
Definition int32 (x : Z) : Z := (x + 2 ^ 31) mod 2 ^ 32 - 2 ^ 31.
Arguments int32 : simpl never.

(** [resume_from]: [os.path.getsize(temp_path)] if the partial file
    exists, else [0]. *)
Definition resume_offset (fs : Files) : Z :=
  match temp fs with
  | Some b => len b
  | None => 0
  end.

(** [item.size or -1] *)
Definition size_or_minus1 (i : DownloadItem) : Z :=
  match size i with
  | Some s => if s =? 0 then -1 else s
  | None => -1
  end.

(** The bytes of the partial file, none if it is not there. *)
Definition partial (fs : Files) : bytes := default [] (temp fs).

(** [open(temp_path, mode)]: ["wb"] truncates, ["ab"] keeps. *)
Definition open (m : Mode) (fs : Files) : Files :=
  match m with
  | WB => mkFiles (Some []) (final fs)
  | AB => mkFiles (Some (partial fs)) (final fs)
  end.

(** The [except RequestException] arm. *)
Definition fail (message : string) (s : State) : State :=
  let i := mkItem (url (it s)) (size (it s)) (downloaded (it s))
                  (status (it s)) (Some message) (index (it s)) in
  mkState i (_pause s) (_stop s) (files s) (range s) (resume_from s) (mode s)
          Returned (pending s) (breaks s)
          (signals s ++ [error_sig (index i) message;
                         status_sig (index i) Error]).

(** The [requests.head] probe: [item.size = int(...) or None] when it
    answers, nothing when it raises. *)
Definition probe (head : HeadReply) (i : DownloadItem) : DownloadItem :=
  match head with
  | HeadOk cl => set_size (if cl =? 0 then None else Some cl) i
  | HeadRaises => i
  end.

(** [if item.size is None:] take the size from the response. *)
Definition infer_size (cl : option Z) (resume_from : Z) (i : DownloadItem)
    : DownloadItem :=
  match size i, cl with
  | None, Some total_from_resp =>
    if 0 <? total_from_resp
    then set_size (Some (total_from_resp + resume_from)) i
    else i
  | _, _ => i
  end.

(** [run] from its first line to the head of the chunk loop.  [get]
    answers the fetch for the [Range] header it is sent. *)
Definition begin (i : DownloadItem) (paused stopped : bool) (fs : Files)
    (head : HeadReply) (get : option Z -> GetReply) : State :=
  match temp fs, final fs with
  | None, Some data =>
    (* already downloaded *)
    let i := set_size (Some (len data)) (set_downloaded (len data) i) in
    mkState i paused stopped fs None 0 WB Returned [] None
            [progress (index i) (int32 (downloaded i))
                      (int32 (size_or_minus1 i));
             status_sig (index i) Done;
             finished (index i)]
  | _, _ =>
    let resume_from := resume_offset fs in
    let i := probe head i in
    let mode := if resume_from =? 0 then WB else AB in
    let range := if resume_from =? 0 then None else Some resume_from in
    let i := if resume_from =? 0 then i else set_downloaded resume_from i in
    let s := mkState i paused stopped fs range resume_from mode Fetch [] None
                     [status_sig (index i) Downloading] in
    match get range with
    | GetRaises message => fail message s
    | GetOk r =>
      let code := status_code r in
      let '(resume_from, i, mode) :=
        if negb (resume_from =? 0) && negb ((code =? 206) || (code =? 200))
        then (0, set_downloaded 0 i, WB) else (resume_from, i, mode) in
      let '(resume_from, i, mode) :=
        if (code =? 200) && negb (resume_from =? 0)
        then (0, set_downloaded 0 i, WB) else (resume_from, i, mode) in
      let i := infer_size (content_length r) resume_from i in
      mkState i paused stopped (open mode fs) range resume_from mode
              Fetch (body r) (failure r) (signals s)
    end
  end.

Definition emit (sig : Signal) (s : State) : State :=
  mkState (it s) (_pause s) (_stop s) (files s) (range s) (resume_from s)
          (mode s) (pc s) (pending s) (breaks s) (signals s ++ [sig]).

Definition goto (p : Pc) (rest : list bytes) (s : State) : State :=
  mkState (it s) (_pause s) (_stop s) (files s) (range s) (resume_from s)
          (mode s) p rest (breaks s) (signals s).

(** [f.write(chunk); item.downloaded += len(chunk)] *)
Definition write (chunk : bytes) (s : State) : State :=
  mkState (set_downloaded (downloaded (it s) + len chunk) (it s))
          (_pause s) (_stop s)
          (mkFiles (Some (partial (files s) ++ chunk)) (final (files s)))
          (range s) (resume_from s) (mode s) (pc s) (pending s) (breaks s)
          (signals s).

(** [os.replace(temp_path, final_path)] *)
Definition replace (s : State) : State :=
  mkState (it s) (_pause s) (_stop s)
          (mkFiles None (temp (files s)))
          (range s) (resume_from s) (mode s) (pc s) (pending s) (breaks s)
          (signals s).

Definition progress_now (s : State) : Signal :=
  progress (index (it s)) (int32 (downloaded (it s)))
           (int32 (size_or_minus1 (it s))).

(** One move of the worker thread.  [elapsed] tells whether
    [now - last_emit > 0.05] holds after the write. *)
Definition work (elapsed : bool) (s : State) : State :=
  match pc s with
  | Returned => s
  | Fetch =>
    match pending s with
    | chunk :: rest =>
      if _stop s
      then goto Returned rest
             (emit (status_sig (index (it s)) Canceled) s)
      else goto (Holding chunk) rest s
    | [] =>
      match breaks s with
      | Some message => fail message s
      | None =>
        let s := replace s in
        goto Returned []
          (emit (finished (index (it s)))
             (emit (status_sig (index (it s)) Done)
                (emit (progress_now s) s)))
      end
    end
  | Holding chunk =>
    if _pause s && negb (_stop s)
    then emit (status_sig (index (it s)) Paused) s
    else match chunk with
         | [] => goto Fetch (pending s) s
         | _ :: _ =>
           let s := write chunk s in
           let s := if elapsed then emit (progress_now s) s else s in
           goto Fetch (pending s) s
         end
  end.

Definition set_flags (p c : bool) (s : State) : State :=
  mkState (it s) p c (files s) (range s) (resume_from s) (mode s) (pc s)
          (pending s) (breaks s) (signals s).

(** The worker thread moves, or the controller thread calls one of the
    three control methods in between. *)
Inductive Action :=
  | Work (elapsed : bool)
  | RequestPause
  | RequestResume
  | RequestCancel.

Definition act (s : State) (a : Action) : State :=
  match a with
  | Work elapsed => work elapsed s
  | RequestPause => set_flags true (_stop s) s
  | RequestResume => set_flags false (_stop s) s
  | RequestCancel => set_flags (_pause s) true s
  end.

Definition execute (schedule : list Action) (s : State) : State :=
  foldl act s schedule.

(** [run] under a schedule: the prologue, then the moves of the worker
    thread and the requests of the controller in the order of the
    schedule. *)
Definition run (i : DownloadItem) (paused stopped : bool) (fs : Files)
    (head : HeadReply) (get : option Z -> GetReply) (schedule : list Action)
    : State :=
  execute schedule (begin i paused stopped fs head get).

(** The run ended on the stop test: [Canceled] was the last word. *)
Definition canceled (s : State) : Prop :=
  pc s = Returned /\
  last (signals s) = Some (status_sig (index (it s)) Canceled).

(** The [Range] header [run] sends for the files it finds: none for a
    fresh start, [bytes=<size of the partial file>-] otherwise. *)
Definition requested (fs : Files) : option Z :=
  if resume_offset fs =? 0 then None else Some (resume_offset fs).

(** [run] goes to the network: it does not take the shortcut for a
    final file that is already there. *)
Definition fetches (fs : Files) : Prop :=
  temp fs <> None \/ final fs = None.

(** What a run that ended on [Canceled] leaves behind, for the files
    [fs] it started from, the state [s0] at the head of its loop and
    the state [s] it ended in. *)
Definition resumable_after_cancel (fs : Files) (get : option Z -> GetReply)
    (s0 s : State) : Prop :=
  exists r k,
    get (requested fs) = GetOk r /\
    let written := concat (take k (body r)) in
    temp (files s) = Some (partial (files s0) ++ written) /\
    len (partial (files s)) = resume_from s0 + len written /\
    downloaded (it s) = downloaded (it s0) + len written /\
    final (files s) = final fs /\
    (forall more, files (execute more s) = files s) /\
    resume_offset (files s) = len (partial (files s)) /\
    forall i' paused' stopped' head' get',
      let s' := begin i' paused' stopped' (files s) head' get' in
      range s' = requested (files s) /\
      forall r',
        get' (requested (files s)) = GetOk r' -> status_code r' = 206 ->
        resume_from s' = len (partial (files s)) /\
        partial (files s') = partial (files s) /\
        temp (files s') = Some (partial (files s)).

(** *** The invariant of the chunk loop *)

Section ChunkLoop.

(** The stream of one attempt, the content of the partial file when the
    loop starts, the final file and the item's byte count at that
    point. *)
Variable stream : list bytes.
Variable opened : bytes.
Variable final0 : option bytes.
Variable downloaded0 : Z.

(** [consumed] are the chunks the loop is through with. *)
Definition position (s : State) (consumed : list bytes) : Prop :=
  match pc s with
  | Fetch => stream = consumed ++ pending s
  | Holding chunk => stream = consumed ++ chunk :: pending s
  | Returned => exists rest, stream = consumed ++ rest
  end.

Inductive Inv (s : State) : Prop :=
  | inv_partial consumed :
      position s consumed ->
      temp (files s) = Some (opened ++ concat consumed) ->
      final (files s) = final0 ->
      downloaded (it s) = downloaded0 + len (concat consumed) ->
      Inv s
  | inv_complete :
      pc s = Returned ->
      temp (files s) = None ->
      final (files s) = Some (opened ++ concat stream) ->
      downloaded (it s) = downloaded0 + len (concat stream) ->
      last (signals s) = Some (finished (index (it s))) ->
      Inv s.

End ChunkLoop.

(** Only a failing stream makes the loop report an error. *)
Definition quiet (s : State) : Prop :=
  breaks s = None /\ forall idx message, error_sig idx message ∉ signals s.

(** A sample attempt: three one-byte chunks answered in full. *)
Definition three_chunks : Response :=
  mkResponse 200 (Some 3) [[Byte.x01]; [Byte.x02]; [Byte.x03]] None.
Definition sample_item : DownloadItem :=
  mkItem "http://host/game.part1.rar" None 0 Downloading None 0.
Definition no_files : Files := mkFiles None None.
Definition two_bytes_so_far : Files :=
  mkFiles (Some [Byte.x01; Byte.x02]) None.

(** The sample attempt paused while the first chunk is in hand. *)
Definition paused_holding : State :=
  run sample_item false false no_files HeadRaises
      (fun _ => GetOk three_chunks) [RequestPause; Work false].

(** *** Schedules *)

(** The controller neither pauses nor cancels. *)
Definition undisturbed (schedule : list Action) : bool :=
  forallb (fun a => match a with
                    | RequestPause | RequestCancel => false
                    | _ => true
                    end) schedule.


(** The moves of the worker thread in a schedule. *)
Definition moves (schedule : list Action) : nat :=
  length (List.filter (fun a => match a with Work _ => true | _ => false end)
                      schedule).

(** The chunk in hand, if the thread is past the stop test. *)
Definition held (s : State) : bytes :=
  match pc s with
  | Holding chunk => chunk
  | _ => []
  end.

(** The moves the loop needs to get through what is left of the
    stream: two per chunk, one to leave the loop. *)
Definition steps_left (s : State) : nat :=
  match pc s with
  | Fetch => 2 * length (pending s) + 1
  | Holding _ => 2 * length (pending s) + 2
  | Returned => 0
  end.

(** The item object is shared.  Between two moves of the thread the
    controller may write it: [on_progress] and [on_status] when they
    handle a report, the pump and the selection handlers the status,
    the reindexing the index. *)
Definition touch (write : DownloadItem -> DownloadItem) (s : State) : State :=
  mkState (write (it s)) (_pause s) (_stop s) (files s) (range s)
          (resume_from s) (mode s) (pc s) (pending s) (breaks s) (signals s).

Inductive Turn :=
  | Thread (a : Action)
  | Controller (write : DownloadItem -> DownloadItem).

Definition turn (s : State) (t : Turn) : State :=
  match t with
  | Thread a => act s a
  | Controller write => touch write s
  end.

Definition interleave (turns : list Turn) (s : State) : State :=
  foldl turn s turns.

(** The moves and requests among the turns. *)
Definition thread_part (turns : list Turn) : list Action :=
  omap (fun t => match t with
                 | Thread a => Some a
                 | Controller _ => None
                 end) turns.

End Worker.

(** ** Helpers, archive detection, extraction and clean-up *)

Module Archive.

(** [str.lower()].  A name is the string of its UTF-8 bytes and the
    letters A-Z are lowered; the tests below look for ASCII patterns,
    which the lowering of any other character neither makes nor
    breaks. *)
Definition lower_char (c : ascii) : ascii :=
  let n := nat_of_ascii c in
  if ((65 <=? n) && (n <=? 90))%nat then ascii_of_nat (n + 32) else c.

Fixpoint lower (s : string) : string :=
  match s with
  | EmptyString => EmptyString
  | String c rest => String (lower_char c) (lower rest)
  end.

(** [p in s] *)
Fixpoint contains (p s : string) : bool :=
  String.prefix p s
  || match s with
     | EmptyString => false
     | String _ rest => contains p rest
     end.

(** [s.endswith(p)] *)
Fixpoint endswith (p s : string) : bool :=
  String.eqb s p
  || match s with
     | EmptyString => false
     | String _ rest => endswith p rest
     end.

(** [s.endswith((p1, p2, ...))] *)
Definition endswith_any (ps : list string) (s : string) : bool :=
  existsb (fun p => endswith p s) ps.

(** [is_archive_first_part] *)
Definition is_archive_first_part (name : string) : bool :=
  let low := lower name in
  if contains ".part1." low then true
  else if endswith_any [".rar"; ".zip"; ".7z"] low then true
  else if endswith ".001" low then true
  else false.

(** The test of [_cleanup_parts]:
    [f.lower().endswith(exts) or ".part" in f.lower()]. *)
Definition exts : list string := [".rar"; ".zip"; ".7z"; ".001"].
Definition is_part (f : string) : bool :=
  endswith_any exts (lower f) || contains ".part" (lower f).

(** [_cleanup_parts] on the listing of the output directory;
    [removable f] tells whether [os.remove] succeeds on [f], a failure
    being swallowed.  The result is the listing afterwards. *)
Definition _cleanup_parts (removable : string -> bool) (dir : list string)
    : list string :=
  List.filter (fun f => negb (is_part f && removable f)) dir.

(** [sorted(os.listdir(output_dir))]: strings compare by code point. *)
Definition sorted (dir : list string) : list string :=
  merge_sort String.le dir.

(** How [extract_all] ends: the three message boxes, or the status bar
    saying "Extraction complete". *)
Inductive Report :=
  | ExtractorNotAvailable
  | NoArchiveFound
  | ExtractionFailed
  | ExtractionComplete (archive : string).

(** [extract_all] on the listing [dir] of the output directory.
    [patoolib] tells whether the module was imported; [extract archive]
    is [patoolib.extract_archive] on the chosen file: whether it
    returned, and the listing it leaves. *)
Definition extract_all (patoolib chk_cleanup : bool)
    (extract : string -> bool * list string) (removable : string -> bool)
    (dir : list string) : Report * list string :=
  if negb patoolib then (ExtractorNotAvailable, dir)
  else match List.filter is_archive_first_part (sorted dir) with
       | [] => (NoArchiveFound, dir)
       | archive :: _ =>
         (* first_candidates[0] *)
         match extract archive with
         | (true, dir') =>
           (ExtractionComplete archive,
            if chk_cleanup then _cleanup_parts removable dir' else dir')
         | (false, dir') => (ExtractionFailed, dir')
         end
       end.

(** [human_bytes]: the unit names, the scaling loop, and the value and
    unit that are formatted.  The value is kept exact; the program holds
    it in a float, which is exact for counts below 2^53, the division
    by 1024 included. *)
Definition units : list string := ["B"; "KB"; "MB"; "GB"; "TB"].

(** [while f >= 1024 and i < len(units) - 1: f /= 1024.0; i += 1];
    the loop body runs at most [fuel] times. *)
Fixpoint scale (fuel : nat) (f : Q) (i : nat) : Q * nat :=
  match fuel with
  | O => (f, i)
  | S fuel =>
    if Qle_bool 1024 f && (i <? length units - 1)%nat
    then scale fuel (f / 1024)%Q (S i)
    else (f, i)
  end.

(** [1024 ** k], the weight of the unit at position [k]. *)
Definition pow1024 (k : nat) : Q := inject_Z (1024 ^ Z.of_nat k).

(** What is shown: ["?"], or a value and a unit. *)
Inductive Shown :=
  | Unknown
  | Amount (value : Q) (unit : string).

(** [human_bytes]; [Raise IndexError] would be [units[i]] out of
    range.  Python divides in floating point, where a division by 1024
    is exact; the model keeps the exact quotient, which is what Python
    has as long as [float(n)] is [n]. *)
Definition human_bytes (n : option Z) : Scheduler.outcome Shown :=
  match n with
  | None => Scheduler.Ret Unknown
  | Some n =>
    if n <? 0 then Scheduler.Ret Unknown
    else let '(f, i) := scale (length units - 1) (inject_Z n) 0 in
         match units !! i with
         | Some u => Scheduler.Ret (Amount f u)
         | None => Scheduler.Raise Scheduler.IndexError
         end
  end.

(** [DownloadItem.temp_path], from the final path. *)
Definition temp_path (final_path : string) : string :=
  final_path +:+ ".part".

(** *** The output folder *)

(** [text[n:]] *)
Fixpoint slice_from (n : nat) (text : string) : string :=
  match n, text with
  | S n, String _ rest => slice_from n rest
  | _, _ => text
  end.

(** [choose_folder]: the text of [dest_label] once the dialog has
    returned [d], the empty string when it was dismissed. *)
Definition choose_folder (d : string) (dest_label : string) : string :=
  if String.eqb d "" then dest_label else "Output: " +:+ d.

(** [current_output_dir]; [downloads] is [os.path.abspath("downloads")]. *)
Definition current_output_dir (downloads : string) (dest_label : string)
    : string :=
  if String.prefix "Output: " dest_label
  then slice_from (String.length "Output: ") dest_label
  else downloads.

(** The texts [dest_label] is given: by [_build_ui], by [main], and by
    [choose_folder] from then on. *)
Inductive labelled : string -> Prop :=
  | labelled_built : labelled "Output: Not set"
  | labelled_main initial_dir : labelled ("Output: " +:+ initial_dir)
  | labelled_chosen d text :
      labelled text -> labelled (choose_folder d text).

End Archive.

(** * Properties *)

(** ** The aggregator *)

Module AggregatorFacts.
Import Aggregator.

Lemma sumZ_cons x l : sumZ (x :: l) = x + sumZ l.
Proof. reflexivity. Qed.

Lemma total_known_total its : total its = known_total its.
Proof.
  unfold total, known_total. induction its as [|i its IH]; [done|].
  rewrite !map_cons, !sumZ_cons, IH. f_equal. unfold size_or.
  destruct (size i) as [s|]; [|done]. cbn.
  destruct (Z.eqb_spec s 0); lia.
Qed.

Lemma finished_le_length its : (finished its <= length its)%nat.
Proof. apply List.filter_length_le. Qed.

Lemma done_bytes_nonneg its :
  Forall counts_nonneg its -> 0 <= done_bytes its.
Proof.
  unfold done_bytes. induction 1 as [|i its [Hd Hs] _ IH]; [done|].
  rewrite map_cons, sumZ_cons.
  assert (0 <= size_or (downloaded i) i).
  { unfold size_or. destruct (size i) as [s|]; [|lia].
    specialize (Hs s eq_refl). destruct (Z.eqb_spec s 0); lia. }
  lia.
Qed.

(** The byte-weighted sum stays below the total as long as an item
    without a usable size has nothing transferred. *)
Lemma done_bytes_le_total its :
  Forall (fun i => size_or 0 i = 0 -> downloaded i <= 0) its ->
  done_bytes its <= total its.
Proof.
  unfold done_bytes, total. induction 1 as [|i its Hi _ IH]; [done|].
  rewrite !map_cons, !sumZ_cons.
  assert (Z.min (downloaded i) (size_or (downloaded i) i) <= size_or 0 i);
    [|lia].
  revert Hi. unfold size_or. destruct (size i) as [s|].
  - destruct (Z.eqb_spec s 0); lia.
  - lia.
Qed.

Lemma fraction_of_counts (a b : nat) :
  (a <= b)%nat -> (0 < b)%nat ->
  (0 <= inject_Z (Z.of_nat a) / inject_Z (Z.of_nat b) <= 1)%Q.
Proof.
  intros Hab Hb.
  assert (0 < inject_Z (Z.of_nat b))%Q
    by (change 0%Q with (inject_Z 0); rewrite <- Zlt_Qlt; lia).
  split.
  - apply Qle_shift_div_l; [done|]. rewrite Qmult_0_l.
    change 0%Q with (inject_Z 0). rewrite <- Zle_Qle. lia.
  - apply Qle_shift_div_r; [done|]. rewrite Qmult_1_l.
    rewrite <- Zle_Qle. lia.
Qed.

(** Where the fraction is a fraction: nothing transferred is negative,
    and when some size is known no item of unknown size has bytes. *)
Lemma overall_fraction_in_range its :
  Forall counts_nonneg its ->
  (0 < total its -> Forall (fun i => size_or 0 i = 0 -> downloaded i <= 0) its) ->
  (0 <= overall_fraction its <= 1)%Q.
Proof.
  intros Hdl Hmix. unfold overall_fraction.
  destruct (Z.ltb_spec 0 (total its)) as [Hpos|Hzero].
  - pose proof (done_bytes_nonneg its Hdl).
    pose proof (done_bytes_le_total its (Hmix Hpos)).
    assert (0 < inject_Z (total its))%Q
      by (change 0%Q with (inject_Z 0); by rewrite <- Zlt_Qlt).
    split.
    + apply Qle_shift_div_l; [done|]. rewrite Qmult_0_l.
      change 0%Q with (inject_Z 0). by rewrite <- Zle_Qle.
    + apply Qle_shift_div_r; [done|]. rewrite Qmult_1_l.
      by rewrite <- Zle_Qle.
  - destruct its as [|i its]; [done|].
    apply fraction_of_counts; [apply finished_le_length | cbn; lia].
Qed.

(** In particular the share of [Done] items, shown when no size is
    known, is in range. *)
Lemma overall_fraction_all_unknown its :
  total its <= 0 -> (0 <= overall_fraction its <= 1)%Q.
Proof.
  intros Hzero. unfold overall_fraction.
  destruct (Z.ltb_spec 0 (total its)); [lia|].
  destruct its as [|i its]; [done|].
  apply fraction_of_counts; [apply finished_le_length | cbn; lia].
Qed.

(** C3 (fails on the code).  The collection of one complete item of 100
    bytes and one item of unknown size with 500 bytes transferred has
    total 100 and byte-weighted sum 600: the fraction is 6, and the bar,
    whose range is 0..1000, is set to 6000. *)
Theorem overall_fraction_exceeds_one :
  let its := [known 100 100 Done; unknown 500 Downloading] in
  Forall counts_nonneg its /\
  (overall_fraction its == 6)%Q /\
  ~ (overall_fraction its <= 1)%Q /\
  pct its = 6000.
Proof.
  cbn zeta. split.
  { repeat constructor; cbn; try lia; intros s [= <-]; lia. }
  split; [reflexivity|]. split; [|reflexivity].
  vm_compute. intros H. by apply H.
Qed.

(** C7.  On every collection in which a size known to be zero comes
    with nothing transferred, the fraction the code computes is the one
    the specification words: the byte-weighted quotient when the total
    known size is positive, the share of [Done] items otherwise (both 0
    on the empty collection).  On sizes [100,100] with transferred
    [50,100] it is 3/4; on unknown sizes with statuses [Done,
    Downloading, Queued] it is 1/3. *)
Theorem overall_fraction_refines its
    (Hzero : Forall (fun i => size i = Some 0 -> downloaded i <= 0) its) :
  (overall_fraction its == spec_fraction its)%Q /\
  (overall_fraction [known 100 50 Downloading; known 100 100 Done] == 3 # 4)%Q /\
  (overall_fraction [unknown 0 Done; unknown 0 Downloading; unknown 0 Queued]
     == 1 # 3)%Q.
Proof.
  split; [|split; reflexivity].
  unfold overall_fraction, spec_fraction. rewrite <- total_known_total.
  destruct (Z.ltb_spec 0 (total its)) as [Hpos|Hnone].
  - assert (done_bytes its =
            sumZ (map (fun it => Z.min (downloaded it)
                                   (default (downloaded it) (size it))) its))
      as ->; [|reflexivity].
    unfold done_bytes. clear Hpos.
    induction Hzero as [|i its Hi _ IH]; [done|].
    rewrite !map_cons, !sumZ_cons, IH. f_equal.
    unfold size_or. destruct (size i) as [s|]; [|done]. cbn.
    destruct (Z.eqb_spec s 0) as [->|]; [|done].
    specialize (Hi eq_refl). lia.
  - destruct its; reflexivity.
Qed.

Lemma overall_fraction_refines_witness :
  (overall_fraction [known 100 50 Downloading; unknown 7 Queued]
   == spec_fraction [known 100 50 Downloading; unknown 7 Queued])%Q.
Proof.
  apply (overall_fraction_refines
           [known 100 50 Downloading; unknown 7 Queued]).
  repeat constructor; cbn; intros; discriminate.
Defined.

(** *** The bar *)

Lemma pct_of_fraction (q : Q) :
  (0 <= q <= 1000)%Q -> 0 <= Z.quot (Qnum q) (Z.pos (Qden q)) <= 1000.
Proof.
  intros [Hlo Hhi]. unfold Qle in Hlo, Hhi. cbn in Hlo, Hhi.
  assert (0 <= Qnum q) by lia.
  rewrite Z.quot_div_nonneg by lia. split.
  - apply Z.div_pos; lia.
  - apply Z.div_le_upper_bound; lia.
Qed.

(** X1.  The value [_update_overall] gives the bar is within the
    bar's range 0..1000, and the label never counts more finished
    items than items, on every collection whose counts are not
    negative and in which, when some size is known, an item without a
    usable size has nothing transferred. *)
Theorem bar_stays_in_range its :
  Forall counts_nonneg its ->
  (0 < total its ->
   Forall (fun i => size_or 0 i = 0 -> downloaded i <= 0) its) ->
  0 <= pct its <= 1000 /\
  (fst (summary its) <= snd (summary its))%nat.
Proof.
  intros Hcounts Hmix. split; [|apply finished_le_length].
  unfold pct. apply pct_of_fraction.
  destruct (overall_fraction_in_range its Hcounts Hmix) as [Hlo Hhi].
  split.
  - apply Qmult_le_0_compat; [done|exact Hlo].
  - apply Qle_trans with (1000 * 1)%Q; [|unfold Qle; cbn; lia].
    apply Qmult_le_l; [reflexivity|exact Hhi].
Qed.

Lemma bar_stays_in_range_witness :
  0 <= pct [known 100 50 Downloading; unknown 0 Queued] <= 1000.
Proof.
  apply (bar_stays_in_range [known 100 50 Downloading; unknown 0 Queued]).
  - repeat constructor; cbn; try lia; intros s [= <-]; lia.
  - intros _. repeat constructor; cbn; lia.
Defined.

End AggregatorFacts.

(** ** The worker *)

Module WorkerFacts.
Import Worker.

(** *** What every interleaving preserves *)

Section ChunkLoop.

Variable stream : list bytes.
Variable opened : bytes.
Variable final0 : option bytes.
Variable downloaded0 : Z.

Local Abbreviation position := (position stream).
Local Abbreviation Inv := (Inv stream opened final0 downloaded0).
Local Abbreviation inv_partial := (inv_partial stream opened final0 downloaded0).
Local Abbreviation inv_complete := (inv_complete stream opened final0 downloaded0).

Lemma len_app (a b : bytes) : len (a ++ b) = len a + len b.
Proof. unfold len. rewrite length_app. lia. Qed.

Lemma work_preserves elapsed s : Inv s -> Inv (work elapsed s).
Proof.
  intros [consumed Hpos Htemp Hfinal Hdl | Hpc Htemp Hfinal Hdl Hlast];
    [|unfold work; rewrite Hpc; by apply inv_complete].
  unfold work. unfold position in Hpos.
  destruct (pc s) as [|chunk|] eqn:Hpc.
  - destruct (pending s) as [|chunk rest] eqn:Hpend.
    + rewrite app_nil_r in Hpos. subst consumed.
      destruct (breaks s) as [message|].
      * apply (inv_partial _ stream); unfold position; cbn; try done.
        exists []. by rewrite app_nil_r.
      * apply inv_complete; cbn; try done.
        by rewrite last_snoc.
    + destruct (_stop s).
      * apply (inv_partial _ consumed); unfold position; cbn; try done.
        by exists (chunk :: rest).
      * apply (inv_partial _ consumed); unfold position; cbn; done.
  - destruct (_pause s && negb (_stop s)).
    + apply (inv_partial _ consumed); unfold position; cbn; try done.
      by rewrite Hpc.
    + assert (stream = (consumed ++ [chunk]) ++ pending s) as Hpos'
        by (by rewrite <- app_assoc).
      destruct chunk as [|b chunk].
      * apply (inv_partial _ (consumed ++ [[]])); unfold position; cbn;
          try done; rewrite concat_app; cbn; by rewrite !app_nil_r.
      * apply (inv_partial _ (consumed ++ [b :: chunk])); unfold position;
          destruct elapsed; cbn; try done; unfold partial;
          rewrite ?Htemp, ?Hdl, concat_app; cbn;
          rewrite ?app_nil_r, ?app_assoc, ?len_app; try done; lia.
  - apply (inv_partial _ consumed); unfold position; rewrite ?Hpc; done.
Qed.

Lemma act_preserves s a : Inv s -> Inv (act s a).
Proof.
  destruct a; [apply work_preserves|..];
    (intros [consumed Hpos Htemp Hfinal Hdl | Hpc Htemp Hfinal Hdl Hlast];
     [by apply (inv_partial _ consumed) | by apply inv_complete]).
Qed.

Lemma execute_preserves schedule s : Inv s -> Inv (execute schedule s).
Proof.
  revert s. induction schedule as [|a schedule IH]; intros s Hs; [done|].
  cbn. apply IH. by apply act_preserves.
Qed.

End ChunkLoop.

Lemma execute_cons a schedule s :
  execute (a :: schedule) s = execute schedule (act s a).
Proof. reflexivity. Qed.

(** Once [run] has returned nothing moves any more. *)
Lemma returned_is_final schedule s :
  pc s = Returned ->
  pc (execute schedule s) = Returned /\
  files (execute schedule s) = files s /\
  signals (execute schedule s) = signals s /\
  it (execute schedule s) = it s.
Proof.
  revert s. induction schedule as [|a schedule IH]; intros s Hpc; [done|].
  assert (pc (act s a) = Returned /\ files (act s a) = files s /\
          signals (act s a) = signals s /\ it (act s a) = it s)
    as (Hpc' & <- & <- & <-)
    by (destruct a; cbn; unfold work; rewrite ?Hpc; done).
  rewrite execute_cons. by apply IH.
Qed.

Lemma not_error_snoc (l : list Signal) sig :
  (forall idx message, error_sig idx message ∉ l) ->
  (forall idx message, sig <> error_sig idx message) ->
  forall idx message, error_sig idx message ∉ l ++ [sig].
Proof.
  intros Hl Hsig idx message [Hin|Hin%list_elem_of_singleton]%elem_of_app.
  - by eapply Hl.
  - by eapply Hsig.
Qed.

Lemma act_quiet s a : quiet s -> quiet (act s a).
Proof.
  intros [Hb Hq]. destruct a; cbn; [|done..].
  unfold work. destruct (pc s) as [|chunk|]; [| |done].
  - destruct (pending s) as [|c rest].
    + rewrite Hb. split; [done|]. cbn. by repeat apply not_error_snoc.
    + destruct (_stop s); split; try done. cbn. by apply not_error_snoc.
  - destruct (_pause s && negb (_stop s)).
    + split; [done|]. cbn. by apply not_error_snoc.
    + destruct chunk; [done|]. destruct elapsed; split; try done.
      cbn. by apply not_error_snoc.
Qed.

Lemma execute_quiet schedule s : quiet s -> quiet (execute schedule s).
Proof.
  revert s. induction schedule as [|a schedule IH]; intros s Hs; [done|].
  cbn. apply IH. by apply act_quiet.
Qed.

(** *** The prologue *)

Lemma probe_index head i : index (probe head i) = index i.
Proof. by destruct head. Qed.

Lemma infer_size_index cl rf i : index (infer_size cl rf i) = index i.
Proof.
  unfold infer_size. destruct (size i), cl as [t|]; try done.
  by destruct (0 <? t).
Qed.

Lemma infer_size_downloaded cl rf i :
  downloaded (infer_size cl rf i) = downloaded i.
Proof.
  unfold infer_size. destruct (size i), cl as [t|]; try done.
  by destruct (0 <? t).
Qed.

Lemma len_zero (b : bytes) : len b = 0 -> b = [].
Proof. destruct b; [done|]. unfold len. cbn. lia. Qed.

(** The state at the head of the loop when the fetch is answered. *)
Lemma begin_fetch i paused stopped fs head get r :
  fetches fs -> get (requested fs) = GetOk r ->
  let s0 := begin i paused stopped fs head get in
  pc s0 = Fetch /\ pending s0 = body r /\ breaks s0 = failure r /\
  signals s0 = [status_sig (index i) Downloading] /\
  index (it s0) = index i /\
  final (files s0) = final fs /\
  range s0 = requested fs /\
  temp (files s0) = Some (partial (files s0)) /\
  len (partial (files s0)) = resume_from s0 /\
  (mode s0 = AB -> partial (files s0) = partial fs /\
                   resume_from s0 = resume_offset fs) /\
  (mode s0 = WB -> partial (files s0) = []) /\
  (resume_from s0 <> 0 -> downloaded (it s0) = resume_from s0).
Proof.
  intros Hfetch Hget s0. subst s0. unfold begin, requested in *.
  destruct (temp fs) as [old|] eqn:Htemp.
  - unfold resume_offset in *. rewrite Htemp in *.
    destruct (len old =? 0) eqn:Hz; rewrite Hget;
      destruct (status_code r =? 206), (status_code r =? 200); cbn;
      rewrite ?Hz; cbn;
      rewrite ?infer_size_index, ?infer_size_downloaded; cbn;
      rewrite ?probe_index; unfold partial; rewrite ?Htemp; cbn;
      repeat split; try done.
    all: apply Z.eqb_eq in Hz; by apply len_zero in Hz; subst.
  - destruct Hfetch as [|Hfinal]; [done|]. rewrite Hfinal.
    unfold resume_offset in *. rewrite Htemp in *. cbn in Hget. cbn.
    rewrite Hget.
    destruct (status_code r =? 206), (status_code r =? 200); cbn;
      rewrite ?infer_size_index, ?infer_size_downloaded; cbn;
      rewrite ?probe_index; unfold partial; rewrite ?Htemp; cbn;
      repeat split; done.
Qed.

Lemma begin_range i paused stopped fs head get :
  fetches fs -> range (begin i paused stopped fs head get) = requested fs.
Proof.
  intros Hfetch. destruct (get (requested fs)) as [message|r] eqn:Hget.
  - revert Hget. unfold begin, requested, resume_offset, fetches in *.
    destruct (temp fs), (final fs); try (by destruct Hfetch);
      by intros ->.
  - by destruct (begin_fetch i paused stopped fs head get r Hfetch Hget)
      as (_ & _ & _ & _ & _ & _ & ? & _).
Qed.

(** A partial-content answer: the offset stands and the file is
    appended to. *)
Lemma begin_honoured i paused stopped fs head get r :
  fetches fs -> get (requested fs) = GetOk r -> status_code r = 206 ->
  let s0 := begin i paused stopped fs head get in
  resume_from s0 = resume_offset fs /\
  partial (files s0) = partial fs /\
  (resume_offset fs <> 0 -> mode s0 = AB /\ downloaded (it s0) = resume_offset fs).
Proof.
  intros Hfetch Hget Hcode s0. subst s0. unfold begin, requested in *.
  destruct (temp fs) as [old|] eqn:Htemp.
  - unfold resume_offset in *. rewrite Htemp in *.
    destruct (len old =? 0) eqn:Hz; rewrite Hget, Hcode; cbn;
      rewrite ?Hz; cbn; rewrite ?infer_size_downloaded; cbn;
      unfold partial; rewrite ?Htemp; cbn; repeat split; try done.
    all: apply Z.eqb_eq in Hz; try done; by apply len_zero in Hz; subst.
  - destruct Hfetch as [|Hfinal]; [done|]. rewrite Hfinal.
    unfold resume_offset in *. rewrite Htemp in *. cbn in Hget. cbn.
    rewrite Hget, Hcode. cbn. unfold partial. rewrite Htemp.
    repeat split; done.
Qed.

(** A full-content answer to a ranged fetch: the offset is dropped. *)
Lemma begin_ignored i paused stopped fs head get old r :
  temp fs = Some old -> old <> [] ->
  get (Some (len old)) = GetOk r -> status_code r = 200 ->
  let s0 := begin i paused stopped fs head get in
  range s0 = Some (len old) /\ resume_from s0 = 0 /\
  downloaded (it s0) = 0 /\ mode s0 = WB /\
  files s0 = mkFiles (Some []) (final fs) /\
  signals s0 = [status_sig (index i) Downloading] /\
  pc s0 = Fetch /\ pending s0 = body r /\ breaks s0 = failure r.
Proof.
  intros Htemp Hold Hget Hcode s0. subst s0. unfold begin.
  rewrite Htemp. unfold resume_offset. rewrite Htemp.
  destruct (Z.eqb_spec (len old) 0) as [Hz|Hnz];
    [by apply len_zero in Hz|].
  rewrite Hget, Hcode. cbn.
  destruct (Z.eqb_spec (len old) 0); [done|]. cbn.
  rewrite infer_size_downloaded. cbn. by rewrite probe_index.
Qed.

(** The loop starts in the invariant. *)
Lemma begin_inv i paused stopped fs head get r :
  fetches fs -> get (requested fs) = GetOk r ->
  let s0 := begin i paused stopped fs head get in
  Inv (body r) (partial (files s0)) (final fs) (downloaded (it s0)) s0.
Proof.
  intros Hfetch Hget s0. subst s0.
  destruct (begin_fetch i paused stopped fs head get r Hfetch Hget)
    as (Hpc & Hpend & _ & _ & _ & Hfinal & _ & Htemp & _).
  apply (inv_partial _ _ _ _ _ []).
  - unfold position. by rewrite Hpc, Hpend.
  - rewrite Htemp. change (concat []) with (@nil Byte.byte).
    by rewrite app_nil_r.
  - done.
  - change (len (concat [])) with 0. lia.
Qed.

(** *** Cancel and resume *)

(** A run that did not go to the network, or whose fetch raised, does
    not end on [Canceled]. *)
Lemma canceled_fetched i paused stopped fs head get schedule :
  canceled (execute schedule (begin i paused stopped fs head get)) ->
  fetches fs /\ exists r, get (requested fs) = GetOk r.
Proof.
  intros [_ Hlast].
  assert (pc (begin i paused stopped fs head get) = Returned ->
          forall sig, last (signals (begin i paused stopped fs head get))
                      = Some sig ->
          sig = status_sig (index (it (begin i paused stopped fs head get)))
                           Canceled) as Hret.
  { intros Hpc sig Hsig.
    destruct (returned_is_final schedule _ Hpc) as (_ & _ & Hs & Hi).
    rewrite Hs, Hi in Hlast. congruence. }
  destruct (temp fs) as [old|] eqn:Htemp.
  - split; [left; congruence|].
    destruct (get (requested fs)) as [message|r] eqn:Hget; [|by eexists].
    revert Hget Hret. unfold begin, requested, resume_offset.
    rewrite Htemp. intros -> Hret. by specialize (Hret eq_refl _ eq_refl).
  - destruct (final fs) as [data|] eqn:Hfinal.
    + revert Hret. unfold begin. rewrite Htemp, Hfinal. intros Hret.
      by specialize (Hret eq_refl _ eq_refl).
    + split; [by right|].
      destruct (get (requested fs)) as [message|r] eqn:Hget; [|by eexists].
      revert Hget Hret. unfold begin, requested, resume_offset.
      rewrite Htemp, Hfinal. intros -> Hret.
      by specialize (Hret eq_refl _ eq_refl).
Qed.

(** C6.  When a run ends on [Canceled], the partial file holds what
    the loop found when it opened it followed by the chunks it wrote, a
    prefix of the stream, so its length is the offset the run started
    from plus the bytes written, the bytes the item's transferred count
    grew by; the final file is untouched; nothing
    changes the files afterwards; and the next run of the item finds
    that length as its resume offset, asks for the bytes from there on,
    and on a partial-content answer appends to exactly those bytes. *)
Theorem cancel_keeps_partial_file i paused stopped fs head get schedule :
  let s0 := begin i paused stopped fs head get in
  let s := run i paused stopped fs head get schedule in
  canceled s -> resumable_after_cancel fs get s0 s.
Proof.
  intros s0 s Hcanceled. unfold run in s. fold s0 in s.
  destruct (canceled_fetched _ _ _ _ _ _ _ Hcanceled) as [Hfetch [r Hget]].
  pose proof (begin_inv i paused stopped fs head get r Hfetch Hget) as Hinv.
  apply (execute_preserves _ _ _ _ schedule) in Hinv. fold s0 s in Hinv.
  destruct (begin_fetch i paused stopped fs head get r Hfetch Hget)
    as (_ & _ & _ & _ & _ & _ & _ & _ & Hlen & _). fold s0 in Hlen.
  destruct Hcanceled as [Hpc Hlast].
  destruct Hinv as [consumed Hpos Htemp Hfinal Hdl | _ _ _ _ Hlast'];
    [|congruence].
  unfold position in Hpos. rewrite Hpc in Hpos. destruct Hpos as [rest Hrest].
  assert (partial (files s) = partial (files s0) ++ concat consumed) as Hpart
    by (unfold partial at 1; by rewrite Htemp).
  assert (fetches (files s)) as Hfetch' by (left; congruence).
  exists r, (length consumed). split; [done|].
  rewrite Hrest, take_app_length. cbn zeta.
  split; [done|]. split; [by rewrite Hpart, len_app, Hlen|].
  split; [done|]. split; [done|]. split.
  { intros more. by apply returned_is_final. }
  split; [unfold resume_offset; by rewrite Htemp, <- Hpart|].
  intros i' paused' stopped' head' get'.
  set (s' := begin i' paused' stopped' (files s) head' get'). split.
  { by apply begin_range. }
  intros r' Hget' Hcode.
  destruct (begin_honoured i' paused' stopped' (files s) head' get' r'
              Hfetch' Hget' Hcode) as (Hfrom & Hsame & _).
  destruct (begin_fetch i' paused' stopped' (files s) head' get' r'
              Hfetch' Hget') as (_ & _ & _ & _ & _ & _ & _ & Hopen & _).
  fold s' in Hfrom, Hsame, Hopen.
  split; [rewrite Hfrom; unfold resume_offset; by rewrite Htemp, <- Hpart|].
  split; [done|]. by rewrite Hopen, Hsame.
Qed.

Lemma cancel_keeps_partial_file_witness :
  resumable_after_cancel no_files (fun _ => GetOk three_chunks)
    (begin sample_item false false no_files HeadRaises
           (fun _ => GetOk three_chunks))
    (run sample_item false false no_files HeadRaises
         (fun _ => GetOk three_chunks)
         [Work false; Work false; RequestCancel; Work false]).
Proof.
  apply (cancel_keeps_partial_file sample_item false false no_files HeadRaises
           (fun _ => GetOk three_chunks)
           [Work false; Work false; RequestCancel; Work false]).
  split; reflexivity.
Defined.

(** *** A server that ignores the range *)

(** C8.  A run that finds a non-empty partial file asks for the bytes
    from its length on; when the answer is a full-content (200)
    response the offset is dropped: [resume_from] and the item's
    transferred count are 0, the mode is truncating and the partial
    file is opened empty, and nothing but [Downloading] has been
    signalled.  From there, under every interleaving, the file holds a
    prefix of the answer's stream from byte zero and the transferred
    count is its length, up to the whole stream renamed to the final
    file; an error is only signalled if the stream itself breaks. *)
Theorem range_not_honoured_restarts i paused stopped fs head get old r :
  temp fs = Some old -> old <> [] ->
  get (Some (len old)) = GetOk r -> status_code r = 200 ->
  let s0 := begin i paused stopped fs head get in
  range s0 = Some (len old) /\ resume_from s0 = 0 /\
  downloaded (it s0) = 0 /\ mode s0 = WB /\
  files s0 = mkFiles (Some []) (final fs) /\
  signals s0 = [status_sig (index i) Downloading] /\
  forall schedule,
    let s := run i paused stopped fs head get schedule in
    (failure r = None -> forall idx message, error_sig idx message ∉ signals s) /\
    exists k,
      let written := concat (take k (body r)) in
      downloaded (it s) = len written /\
      ((temp (files s) = Some written /\ final (files s) = final fs) \/
       (pc s = Returned /\ k = length (body r) /\
        files s = mkFiles None (Some written))).
Proof.
  intros Htemp Hold Hget Hcode s0.
  destruct (begin_ignored i paused stopped fs head get old r
              Htemp Hold Hget Hcode)
    as (Hrange & Hfrom & Hdl & Hmode & Hfiles & Hsig & Hpc & Hpend & Hbreaks).
  fold s0 in Hrange, Hfrom, Hdl, Hmode, Hfiles, Hsig, Hpc, Hpend, Hbreaks.
  repeat (split; [done|]). intros schedule s. unfold run in s. fold s0 in s.
  split.
  - intros Hnone. apply execute_quiet. split; [congruence|].
    rewrite Hsig. intros idx message [=]%list_elem_of_singleton.
  - assert (Inv (body r) [] (final fs) 0 s0) as Hinv.
    { apply (inv_partial _ _ _ _ _ []).
      - unfold position. by rewrite Hpc, Hpend.
      - by rewrite Hfiles.
      - by rewrite Hfiles.
      - by rewrite Hdl. }
    apply (execute_preserves _ _ _ _ schedule) in Hinv. fold s in Hinv.
    destruct Hinv as [consumed Hpos Ht Hf Hd | Hret Ht Hf Hd _].
    + exists (length consumed).
      assert (take (length consumed) (body r) = consumed) as ->.
      { unfold position in Hpos.
        destruct (pc s); [|..|destruct Hpos as [rest Hpos]];
          by rewrite Hpos, take_app_length. }
      cbn zeta. split; [rewrite Hd; lia|]. left. by rewrite Ht.
    + exists (length (body r)). rewrite firstn_all. cbn zeta.
      split; [rewrite Hd; lia|]. right. repeat split; try done.
      destruct (files s). cbn in *. by subst.
Qed.

Lemma range_not_honoured_restarts_witness :
  resume_from (begin sample_item false false two_bytes_so_far (HeadOk 3)
                     (fun _ => GetOk three_chunks)) = 0.
Proof.
  destruct (range_not_honoured_restarts sample_item false false
              two_bytes_so_far (HeadOk 3) (fun _ => GetOk three_chunks)
              [Byte.x01; Byte.x02] three_chunks)
    as (_ & Hzero & _); [reflexivity | discriminate | reflexivity..|].
  exact Hzero.
Defined.

(** *** A cancel request that arrives during a pause *)

(** C10.  A worker that holds a chunk in the pause loop, paused and not
    stopped, keeps polling.  After [request_cancel] its next move
    leaves the loop and writes the chunk it holds, without signalling
    [Canceled]: the partial file grows by that chunk, at most
    [CHUNK_SIZE] bytes.  The stop request is seen at the top of the
    next iteration: if the stream yields another chunk the worker then
    signals [Canceled] and returns with the file as it is. *)
Theorem cancel_during_pause_writes_held_chunk s chunk content elapsed :
  pc s = Holding chunk -> _pause s = true -> _stop s = false ->
  temp (files s) = Some content -> len chunk <= CHUNK_SIZE ->
  work elapsed s = emit (status_sig (index (it s)) Paused) s /\
  let s1 := act s RequestCancel in
  let s2 := act s1 (Work elapsed) in
  pc s2 = Fetch /\ pending s2 = pending s /\
  temp (files s2) = Some (content ++ chunk) /\
  (forall sig, sig ∈ signals s2 -> sig ∈ signals s \/ sig = progress_now s2) /\
  0 <= len (partial (files s2)) - len (partial (files s)) <= CHUNK_SIZE /\
  forall next rest elapsed',
    pending s = next :: rest ->
    let s3 := act s2 (Work elapsed') in
    canceled s3 /\ files s3 = files s2 /\
    signals s3 = signals s2 ++ [status_sig (index (it s)) Canceled].
Proof.
  destruct s as [i p c [tmp fin] rg rf m pos pend br sigs]. cbn.
  intros -> -> -> -> Hsize.
  assert (0 <= len chunk) by (unfold len; lia).
  split; [done|]. unfold partial. cbn.
  destruct chunk as [|b chunk]; [|destruct elapsed]; cbn;
    rewrite ?app_nil_r, ?len_app.
  all: repeat split; try done; try lia; auto.
  all: try (subst pend; cbn; by rewrite ?last_snoc).
  intros sig [?|Heq%list_elem_of_singleton]%elem_of_app; [by left|].
  right. by subst.
Qed.

Lemma cancel_during_pause_writes_held_chunk_witness :
  temp (files (act (act paused_holding RequestCancel) (Work false)))
  = Some ([] ++ [Byte.x01]).
Proof.
  destruct (cancel_during_pause_writes_held_chunk
              paused_holding [Byte.x01] [] false)
    as (_ & _ & _ & Hwritten & _);
    [reflexivity | reflexivity | reflexivity | reflexivity
    | unfold CHUNK_SIZE, len; cbn; lia | exact Hwritten].
Defined.

(** The stop request is not seen at all when the held chunk was the
    last one: the run completes and signals [Done]. *)
Example cancel_on_last_chunk_completes :
  let s := run sample_item false false no_files HeadRaises
             (fun _ => GetOk (mkResponse 200 (Some 1) [[Byte.x01]] None))
             [Work false; RequestPause; Work false; RequestCancel;
              Work false; Work false] in
  files s = mkFiles None (Some [Byte.x01]) /\
  last (signals s) = Some (finished 0).
Proof. split; reflexivity. Qed.

(** *** A run nobody interferes with *)

Lemma len_cons b (l : bytes) : len (b :: l) = 1 + len l.
Proof. unfold len. cbn [length]. lia. Qed.

Lemma set_flags_same s : set_flags (_pause s) (_stop s) s = s.
Proof. by destruct s. Qed.

(** The loop of a worker that is neither paused nor stopped, under a
    schedule without pause and cancel requests that gives the thread
    the moves it needs: it writes every chunk that is left and then
    either renames the file or, when the stream breaks, reports the
    error and leaves the partial file. *)
Lemma undisturbed_loop schedule s content :
  undisturbed schedule = true ->
  _pause s = false -> _stop s = false ->
  temp (files s) = Some content ->
  pc s <> Returned ->
  (steps_left s <= moves schedule)%nat ->
  let s' := execute schedule s in
  let written := content ++ held s ++ concat (pending s) in
  pc s' = Returned /\
  downloaded (it s') = downloaded (it s) + len (held s ++ concat (pending s)) /\
  index (it s') = index (it s) /\
  size (it s') = size (it s) /\
  match breaks s with
  | None =>
    files s' = mkFiles None (Some written) /\
    exists earlier,
      signals s' = signals s ++ earlier ++
        [progress (index (it s)) (int32 (downloaded (it s')))
                  (int32 (size_or_minus1 (it s)));
         status_sig (index (it s)) Done; finished (index (it s))]
  | Some message =>
    files s' = mkFiles (Some written) (final (files s)) /\
    error (it s') = Some message /\
    exists earlier,
      signals s' = signals s ++ earlier ++
        [error_sig (index (it s)) message; status_sig (index (it s)) Error]
  end.
Proof.
  revert s content.
  induction schedule as [|a schedule IH]; intros s content Hcalm Hp Hc Htemp Hpc Hleft.
  { unfold steps_left, moves in Hleft. cbn in Hleft.
    destruct (pc s); try done; lia. }
  destruct a as [elapsed| | |]; try done.
  - (* the thread moves *)
    rewrite execute_cons. cbn [act].
    unfold undisturbed in Hcalm. cbn [forallb andb] in Hcalm.
    unfold moves in Hleft. cbn [List.filter length] in Hleft.
    fold (moves schedule) in Hleft.
    destruct s as [i p c [tmp fin] rg rf m pos pend br sigs].
    cbn in Hp, Hc, Htemp, Hpc. subst p c tmp.
    destruct pos as [|chunk|]; [| |done].
    + destruct pend as [|chunk rest].
      * (* the stream is exhausted *)
        destruct br as [message|]; cbn.
        -- match goal with |- context [execute schedule ?s1] =>
             destruct (returned_is_final schedule s1 eq_refl)
               as (-> & -> & -> & ->) end.
           cbn. rewrite !app_nil_r. change (len []) with 0.
           repeat split; try done; try lia.
           by exists [].
        -- match goal with |- context [execute schedule ?s1] =>
             destruct (returned_is_final schedule s1 eq_refl)
               as (-> & -> & -> & ->) end.
           cbn. rewrite !app_nil_r. change (len []) with 0.
           repeat split; try done; try lia.
           exists []. by rewrite <- ?app_assoc.
      * (* a chunk is taken in hand *)
        cbn [work pc pending _stop goto].
        match goal with |- context [execute schedule ?s1] =>
          specialize (IH s1 content Hcalm eq_refl eq_refl eq_refl) end.
        cbn in IH. cbn in Hleft.
        destruct IH as (Hret & Hdl & Hidx & Hsize & Hout); [done|lia|].
        cbn. repeat split; try done.
    + (* the chunk in hand is written *)
      cbn [work pc _pause _stop andb negb].
      destruct chunk as [|b chunk].
      * cbn [goto pending].
        match goal with |- context [execute schedule ?s1] =>
          specialize (IH s1 content Hcalm eq_refl eq_refl eq_refl) end.
        cbn in IH. cbn in Hleft.
        destruct IH as (Hret & Hdl & Hidx & Hsize & Hout); [done|lia|].
        cbn. repeat split; try done.
      * destruct elapsed; cbn.
        -- match goal with |- context [execute schedule ?s1] =>
             specialize (IH s1 (content ++ b :: chunk) Hcalm
                           eq_refl eq_refl eq_refl) end.
           cbn in IH. cbn in Hleft.
           destruct IH as (Hret & Hdl & Hidx & Hsize & Hout); [done|lia|].
           cbn in *. rewrite Hdl in Hout |- *. rewrite Hidx, Hsize.
           rewrite ?len_cons, ?len_app. repeat split; try done; try lia.
           destruct br as [message|].
           ++ destruct Hout as (-> & Herr & earlier & ->).
              rewrite <- ?app_assoc. repeat split; try done.
              eexists (_ :: earlier). by rewrite <- ?app_assoc.
           ++ destruct Hout as (-> & earlier & ->).
              rewrite <- ?app_assoc. repeat split; try done.
              eexists (_ :: earlier). rewrite <- ?app_assoc. cbn.
              rewrite ?len_cons, ?len_app. do 3 f_equal.
        -- match goal with |- context [execute schedule ?s1] =>
             specialize (IH s1 (content ++ b :: chunk) Hcalm
                           eq_refl eq_refl eq_refl) end.
           cbn in IH. cbn in Hleft.
           destruct IH as (Hret & Hdl & Hidx & Hsize & Hout); [done|lia|].
           cbn in *. rewrite Hdl in Hout |- *. rewrite Hidx, Hsize.
           rewrite ?len_cons, ?len_app. repeat split; try done; try lia.
           destruct br as [message|].
           ++ destruct Hout as (-> & Herr & earlier & ->).
              rewrite <- ?app_assoc. repeat split; try done.
              by exists earlier.
           ++ destruct Hout as (-> & earlier & ->).
              rewrite <- ?app_assoc. repeat split; try done.
              exists earlier. rewrite ?len_cons, ?len_app.
              by do 3 f_equal.
  - (* a resume request on a worker that is not paused *)
    rewrite execute_cons. cbn [act]. rewrite <- Hp, set_flags_same.
    apply IH; done.
Qed.

Lemma probe_downloaded head i : downloaded (probe head i) = downloaded i.
Proof. by destruct head. Qed.

(** The byte count at the head of the loop: the length of what the
    partial file holds when there was one to resume from, the item's
    own count otherwise. *)
Lemma begin_count i paused stopped fs head get r :
  fetches fs -> get (requested fs) = GetOk r ->
  let s0 := begin i paused stopped fs head get in
  (resume_offset fs = 0 ->
   downloaded (it s0) = downloaded i /\ partial (files s0) = []) /\
  (resume_offset fs <> 0 -> downloaded (it s0) = len (partial (files s0))).
Proof.
  intros Hfetch Hget s0. subst s0. unfold begin, requested in *.
  destruct (temp fs) as [old|] eqn:Htemp.
  - unfold resume_offset in *. rewrite Htemp in *.
    destruct (len old =? 0) eqn:Hz; rewrite Hget;
      destruct (status_code r =? 206), (status_code r =? 200); cbn;
      rewrite ?Hz; cbn;
      rewrite ?infer_size_downloaded; cbn;
      rewrite ?probe_downloaded; unfold partial; rewrite ?Htemp; cbn;
      split; intros Hoff; try done.
    all: try (apply Z.eqb_neq in Hz; done).
    all: apply Z.eqb_eq in Hz; try done.
  - destruct Hfetch as [|Hfinal]; [done|]. rewrite Hfinal.
    unfold resume_offset in *. rewrite Htemp in *. cbn in Hget. cbn.
    rewrite Hget.
    destruct (status_code r =? 206), (status_code r =? 200); cbn;
      rewrite ?infer_size_downloaded; cbn;
      rewrite ?probe_downloaded; unfold partial; rewrite ?Htemp; cbn;
      split; done.
Qed.

(** Once [run] has returned the controller can still write the item;
    nothing else changes. *)
Lemma returned_stays turns s :
  pc s = Returned ->
  pc (interleave turns s) = Returned /\
  files (interleave turns s) = files s /\
  signals (interleave turns s) = signals s.
Proof.
  revert s. induction turns as [|t turns IH]; intros s Hpc; [done|].
  assert (pc (turn s t) = Returned /\ files (turn s t) = files s /\
          signals (turn s t) = signals s) as (Hpc' & <- & <-).
  { destruct t as [[elapsed| | |]|write]; cbn; unfold work; rewrite ?Hpc;
      done. }
  by apply IH.
Qed.

Lemma thread_part_cons a turns :
  thread_part (Thread a :: turns) = a :: thread_part turns.
Proof. reflexivity. Qed.

Lemma moves_cons_work elapsed schedule :
  moves (Work elapsed :: schedule) = S (moves schedule).
Proof. reflexivity. Qed.

(** The loop of a worker that is neither paused nor stopped, on a
    stream that does not break, while the controller writes the item
    as it likes but sends no pause and no cancel request: once the
    thread has had its moves every chunk that was left is written and
    the file is renamed. *)
Lemma interleaved_loop turns s content :
  undisturbed (thread_part turns) = true ->
  _pause s = false -> _stop s = false -> breaks s = None ->
  temp (files s) = Some content ->
  pc s <> Returned ->
  (steps_left s <= moves (thread_part turns))%nat ->
  (forall idx message, error_sig idx message ∉ signals s) ->
  let s' := interleave turns s in
  pc s' = Returned /\
  files s' = mkFiles None (Some (content ++ held s ++ concat (pending s))) /\
  (exists earlier idx dl total,
     signals s' = signals s ++ earlier ++
       [progress idx dl total; status_sig idx Done; finished idx]) /\
  (forall idx message, error_sig idx message ∉ signals s').
Proof.
  revert s content.
  induction turns as [|t turns IH];
    intros s content Hcalm Hp Hc Hb Htemp Hpc Hleft Hquiet.
  { unfold steps_left, moves in Hleft. cbn in Hleft.
    destruct (pc s); try done; lia. }
  destruct t as [a|write].
  2:{ (* the controller writes the item *)
      exact (IH (touch write s) content Hcalm Hp Hc Hb Htemp Hpc Hleft Hquiet). }
  destruct a as [elapsed| | |]; try done.
  2:{ (* a resume request on a worker that is not paused *)
      exact (IH (act s RequestResume) content Hcalm eq_refl Hc Hb Htemp Hpc
                Hleft Hquiet). }
  (* the thread moves *)
  change (interleave (Thread (Work elapsed) :: turns) s)
    with (interleave turns (work elapsed s)). cbn zeta.
  rewrite thread_part_cons in Hcalm, Hleft. rewrite moves_cons_work in Hleft.
  change (undisturbed (thread_part turns) = true) in Hcalm.
  destruct s as [i p c [tmp fin] rg rf m pos pend br sigs].
  cbn in Hp, Hc, Hb, Htemp, Hpc, Hquiet. subst p c br tmp.
  destruct pos as [|chunk|]; [| |done].
  - destruct pend as [|chunk rest].
    + (* the stream is exhausted *)
      cbn.
      match goal with |- context [interleave turns ?s1] =>
        destruct (returned_stays turns s1 eq_refl) as (-> & -> & ->) end.
      cbn. rewrite !app_nil_r. repeat split; try done.
      * exists [], (index i), (int32 (downloaded i)),
          (int32 (size_or_minus1 i)). by rewrite <- !app_assoc.
      * by repeat apply not_error_snoc.
    + (* a chunk is taken in hand *)
      cbn [work pc pending _stop goto].
      match goal with |- context [interleave turns ?s1] =>
        specialize (IH s1 content Hcalm eq_refl eq_refl eq_refl eq_refl) end.
      cbn -[moves thread_part] in IH. cbn -[moves thread_part] in Hleft.
      destruct IH as (Hret & Hfiles & Hsigs & Hq); [done|lia|done|].
      cbn. done.
  - (* the chunk in hand is written *)
    cbn [work pc _pause _stop andb negb].
    destruct chunk as [|b chunk].
    + cbn [goto pending].
      match goal with |- context [interleave turns ?s1] =>
        specialize (IH s1 content Hcalm eq_refl eq_refl eq_refl eq_refl) end.
      cbn -[moves thread_part] in IH. cbn -[moves thread_part] in Hleft.
      destruct IH as (Hret & Hfiles & Hsigs & Hq); [done|lia|done|].
      cbn. done.
    + destruct elapsed; cbn.
      * match goal with |- context [interleave turns ?s1] =>
          specialize (IH s1 (content ++ b :: chunk) Hcalm
                        eq_refl eq_refl eq_refl eq_refl) end.
        cbn -[moves thread_part] in IH. cbn -[moves thread_part] in Hleft.
        destruct IH as (Hret & Hfiles & Hsigs & Hq);
          [done | lia | by apply not_error_snoc |].
        rewrite <- app_assoc in Hfiles. cbn in Hfiles.
        repeat split; try done.
        destruct Hsigs as (earlier & idx & dl & total & ->).
        eexists (_ :: earlier), idx, dl, total.
        by rewrite <- !app_assoc.
      * match goal with |- context [interleave turns ?s1] =>
          specialize (IH s1 (content ++ b :: chunk) Hcalm
                        eq_refl eq_refl eq_refl eq_refl) end.
        cbn -[moves thread_part] in IH. cbn -[moves thread_part] in Hleft.
        destruct IH as (Hret & Hfiles & Hsigs & Hq); [done|lia|done|].
        rewrite <- app_assoc in Hfiles. cbn in Hfiles.
        repeat split; done.
Qed.

(** X2.  A run nobody pauses or cancels, whose fetch is answered and
    whose stream does not break, completes once the thread has had its
    moves, whatever the controller writes into the item meanwhile: the
    partial file is gone and the final file holds what the partial
    file held when the loop opened it followed by the whole stream;
    the last three signals are a progress, [Done] and [finished], and
    no error is signalled.  On a partial-content answer the opened
    content is the old partial file; on a fresh start it is empty. *)
Theorem uninterrupted_run_completes i fs head get r turns :
  fetches fs -> get (requested fs) = GetOk r -> failure r = None ->
  undisturbed (thread_part turns) = true ->
  (2 * length (body r) + 1 <= moves (thread_part turns))%nat ->
  let s0 := begin i false false fs head get in
  let s := interleave turns s0 in
  pc s = Returned /\
  files s = mkFiles None (Some (partial (files s0) ++ concat (body r))) /\
  (exists earlier idx dl total,
     signals s = status_sig (index i) Downloading :: earlier ++
       [progress idx dl total; status_sig idx Done; finished idx]) /\
  (forall idx message, error_sig idx message ∉ signals s) /\
  (status_code r = 206 -> partial (files s0) = partial fs) /\
  (resume_offset fs = 0 -> partial (files s0) = []).
Proof.
  intros Hfetch Hget Hfail Hcalm Hmoves s0 s.
  destruct (begin_fetch i false false fs head get r Hfetch Hget)
    as (Hpc & Hpend & Hbreaks & Hsig & Hidx & Hfinal & _ & Htemp & _).
  destruct (begin_count i false false fs head get r Hfetch Hget)
    as (Hfresh & _).
  fold s0 in Hpc, Hpend, Hbreaks, Hsig, Hidx, Hfinal, Htemp, Hfresh.
  assert (_pause s0 = false /\ _stop s0 = false) as [Hp Hc].
  { subst s0. unfold begin, fetches, requested in *.
    destruct (temp fs), (final fs); try (by destruct Hfetch);
      rewrite Hget; by repeat case_match. }
  destruct (interleaved_loop turns s0 (partial (files s0)) Hcalm Hp Hc)
    as (Hret & Hfiles & Hsigs & Hquiet); try done.
  { by rewrite Hbreaks. }
  { by rewrite Hpc. }
  { unfold steps_left. rewrite Hpc, Hpend. lia. }
  { rewrite Hsig. intros idx message [=]%list_elem_of_singleton. }
  change (interleave turns s0) with s in Hret, Hfiles, Hsigs, Hquiet.
  unfold held in Hfiles. rewrite Hpc, Hpend in Hfiles. cbn [app] in Hfiles.
  rewrite Hsig in Hsigs.
  split; [done|]. split; [done|]. split; [done|]. split; [done|].
  split.
  { intros Hcode.
    by destruct (begin_honoured i false false fs head get r Hfetch Hget Hcode)
      as (_ & ? & _). }
  intros Hz. by apply Hfresh.
Qed.

Lemma uninterrupted_run_completes_witness :
  files (interleave
           [Thread (Work false); Thread (Work true);
            Controller (set_downloaded 0); Thread (Work false)]
           (begin sample_item false false two_bytes_so_far HeadRaises
              (fun _ => GetOk (mkResponse 206 (Some 1) [[Byte.x03]] None))))
  = mkFiles None (Some ([Byte.x01; Byte.x02] ++ concat [[Byte.x03]])).
Proof.
  destruct (uninterrupted_run_completes sample_item two_bytes_so_far
              HeadRaises
              (fun _ => GetOk (mkResponse 206 (Some 1) [[Byte.x03]] None))
              (mkResponse 206 (Some 1) [[Byte.x03]] None)
              [Thread (Work false); Thread (Work true);
               Controller (set_downloaded 0); Thread (Work false)])
    as (_ & Hfiles & _); [by left | reflexivity | reflexivity | reflexivity
                         | cbn; lia | exact Hfiles].
Defined.

(** The count in the progress signals can go back when the controller
    handles an earlier progress signal late: [on_progress] writes the
    count it was sent into the item, and the thread adds the next
    chunk to that.  Chunks of 1, 5 and 1 bytes, the signal for the
    first one handled after the second: the counts read 1, 6, 2, and
    the item ends on 2 with 7 bytes in the file. *)
Example progress_goes_back_after_write_back :
  let stream := [[Byte.x01];
                 [Byte.x02; Byte.x03; Byte.x04; Byte.x05; Byte.x06];
                 [Byte.x07]] in
  let s := interleave
             [Thread (Work false); Thread (Work true);
              Thread (Work false); Thread (Work true);
              Controller (set_downloaded 1);
              Thread (Work false); Thread (Work true); Thread (Work false)]
             (begin sample_item false false no_files HeadRaises
                (fun _ => GetOk (mkResponse 200 (Some 7) stream None))) in
  signals s = [status_sig 0 Downloading; progress 0 1 7; progress 0 6 7;
               progress 0 2 7; progress 0 2 7; status_sig 0 Done;
               finished 0] /\
  downloaded (it s) = 2 /\
  files s = mkFiles None (Some (concat stream)).
Proof. by vm_compute. Qed.

(** A file of 3 GiB that is already there is reported with a negative
    count: the arguments of the signal are 32-bit. *)
Example progress_of_a_large_file_wraps :
  int32 (3 * 2 ^ 30) = - 2 ^ 30 /\ int32 (2 ^ 31 - 1) = 2 ^ 31 - 1.
Proof. by vm_compute. Qed.

(** *** When the transfer fails *)

(** X3.  When the stream breaks after the chunks it delivered, a run nobody
    pauses or cancels keeps everything it received: the partial file
    holds the opened content followed by the chunks, the final file is
    as it was, the item records the message, and the last two signals
    are the error and [Error].  The next run finds the length of that
    file as its resume offset. *)
Theorem broken_stream_keeps_partial_file i fs head get r message schedule :
  fetches fs -> get (requested fs) = GetOk r -> failure r = Some message ->
  undisturbed schedule = true ->
  (2 * length (body r) + 1 <= moves schedule)%nat ->
  let s0 := begin i false false fs head get in
  let s := run i false false fs head get schedule in
  let content := partial (files s0) ++ concat (body r) in
  pc s = Returned /\
  files s = mkFiles (Some content) (final fs) /\
  error (it s) = Some message /\
  (exists earlier,
     signals s = status_sig (index i) Downloading :: earlier ++
       [error_sig (index i) message; status_sig (index i) Error]) /\
  resume_offset (files s) = len content /\
  forall i' paused' stopped' head' get',
    range (begin i' paused' stopped' (files s) head' get')
    = if len content =? 0 then None else Some (len content).
Proof.
  intros Hfetch Hget Hfail Hcalm Hmoves s0 s content.
  destruct (begin_fetch i false false fs head get r Hfetch Hget)
    as (Hpc & Hpend & Hbreaks & Hsig & Hidx & Hfinal & _ & Htemp & _).
  fold s0 in Hpc, Hpend, Hbreaks, Hsig, Hidx, Hfinal, Htemp.
  assert (_pause s0 = false /\ _stop s0 = false) as [Hp Hc].
  { subst s0. unfold begin, fetches, requested in *.
    destruct (temp fs), (final fs); try (by destruct Hfetch);
      rewrite Hget; by repeat case_match. }
  destruct (undisturbed_loop schedule s0 (partial (files s0)) Hcalm Hp Hc Htemp)
    as (Hret & Hdl & Hidx' & Hsize & Hout).
  { by rewrite Hpc. }
  { unfold steps_left. rewrite Hpc, Hpend. lia. }
  change (execute schedule s0) with s in Hret, Hdl, Hidx', Hsize, Hout.
  unfold held in Hout. rewrite Hpc, Hpend in Hout.
  rewrite Hbreaks, Hfail, Hsig, Hidx, Hfinal in Hout. cbn [app] in Hout.
  destruct Hout as (Hfiles & Herr & earlier & Hsigs).
  split; [done|]. split; [done|]. split; [done|].
  split; [by exists earlier|].
  assert (resume_offset (files s) = len content) as Hoff
    by (by rewrite Hfiles).
  split; [done|].
  intros i' paused' stopped' head' get'. rewrite begin_range.
  - unfold requested. by rewrite Hoff.
  - left. by rewrite Hfiles.
Qed.

Lemma broken_stream_keeps_partial_file_witness :
  files (run sample_item false false no_files HeadRaises
           (fun _ => GetOk (mkResponse 200 (Some 2) [[Byte.x01]]
                                       (Some "connection reset")))
           [Work false; Work false; Work false])
  = mkFiles (Some ([] ++ concat [[Byte.x01]])) None.
Proof.
  destruct (broken_stream_keeps_partial_file sample_item no_files HeadRaises
              (fun _ => GetOk (mkResponse 200 (Some 2) [[Byte.x01]]
                                          (Some "connection reset")))
              (mkResponse 200 (Some 2) [[Byte.x01]] (Some "connection reset"))
              "connection reset" [Work false; Work false; Work false])
    as (_ & Hfiles & _); [by right | reflexivity | reflexivity | reflexivity
                         | cbn; lia | exact Hfiles].
Defined.

(** X4.  When the fetch itself raises, the run is over before the file
    is opened: under every schedule the two files are as the run found
    them, the item records the message, and the signals are
    [Downloading], the error and [Error]. *)
Theorem refused_fetch_touches_no_file i paused stopped fs head get message
    schedule :
  fetches fs -> get (requested fs) = GetRaises message ->
  let s := run i paused stopped fs head get schedule in
  pc s = Returned /\ files s = fs /\ error (it s) = Some message /\
  signals s = [status_sig (index i) Downloading;
               error_sig (index i) message; status_sig (index i) Error].
Proof.
  intros Hfetch Hget s. subst s. unfold run.
  assert (let s0 := begin i paused stopped fs head get in
          pc s0 = Returned /\ files s0 = fs /\ error (it s0) = Some message /\
          signals s0 = [status_sig (index i) Downloading;
                        error_sig (index i) message;
                        status_sig (index i) Error])
    as (Hpc & Hfiles & Herr & Hsig).
  { revert Hget. unfold begin, requested, resume_offset, fetches in *.
    destruct (temp fs) as [old|], (final fs); try (by destruct Hfetch);
      intros ->; cbn; try (destruct (len old =? 0)); cbn;
      by rewrite ?probe_index. }
  destruct (returned_is_final schedule _ Hpc) as (-> & -> & -> & ->).
  done.
Qed.

Lemma refused_fetch_touches_no_file_witness :
  files (run sample_item false false two_bytes_so_far HeadRaises
           (fun _ => GetRaises "timed out") [Work false; RequestPause])
  = two_bytes_so_far.
Proof.
  destruct (refused_fetch_touches_no_file sample_item false false
              two_bytes_so_far HeadRaises (fun _ => GetRaises "timed out")
              "timed out" [Work false; RequestPause])
    as (_ & Hfiles & _); [by left | reflexivity | exact Hfiles].
Defined.

(** *** Cancel, then download again *)

(** What a run that ended on [Canceled] leaves in the partial file. *)
Lemma canceled_partial i paused stopped fs head get schedule :
  let s0 := begin i paused stopped fs head get in
  let s := run i paused stopped fs head get schedule in
  canceled s ->
  exists r k,
    get (requested fs) = GetOk r /\
    temp (files s) = Some (partial (files s0) ++ concat (take k (body r))) /\
    final (files s) = final fs /\
    exists rest, body r = take k (body r) ++ rest.
Proof.
  intros s0 s Hcanceled. unfold run in s. fold s0 in s.
  destruct (canceled_fetched _ _ _ _ _ _ _ Hcanceled) as [Hfetch [r Hget]].
  pose proof (begin_inv i paused stopped fs head get r Hfetch Hget) as Hinv.
  apply (execute_preserves _ _ _ _ schedule) in Hinv. fold s0 s in Hinv.
  destruct Hcanceled as [Hpc Hlast].
  destruct Hinv as [consumed Hpos Htemp Hfinal Hdl | _ _ _ _ Hlast'];
    [|congruence].
  unfold position in Hpos. rewrite Hpc in Hpos. destruct Hpos as [rest Hrest].
  exists r, (length consumed). split; [done|].
  rewrite Hrest, take_app_length. repeat split; try done. by exists rest.
Qed.

(** X5.  Cancel and download again: when a run ended on [Canceled] and
    a later run on the files it left, by a worker that is not stopped,
    is answered with partial content and is left alone, the final file
    is what the first run had opened, the chunks it wrote and the
    stream of the second answer, in that order.  If the second answer
    carries the rest of the first stream, the final file is what one
    uninterrupted run would have produced. *)
Theorem cancel_then_resume_completes i paused stopped fs head get schedule
    i' head' get' r' schedule' :
  let s0 := begin i paused stopped fs head get in
  let s1 := run i paused stopped fs head get schedule in
  let s2 := run i' false false (files s1) head' get' schedule' in
  canceled s1 ->
  get' (requested (files s1)) = GetOk r' -> status_code r' = 206 ->
  failure r' = None -> undisturbed schedule' = true ->
  (2 * length (body r') + 1 <= moves schedule')%nat ->
  exists r k,
    get (requested fs) = GetOk r /\
    files s2 = mkFiles None
                 (Some (partial (files s0) ++ concat (take k (body r))
                        ++ concat (body r'))) /\
    (concat (body r') = concat (drop k (body r)) ->
     files s2 = mkFiles None (Some (partial (files s0) ++ concat (body r)))).
Proof.
  intros s0 s1 s2 Hcanceled Hget' Hcode Hfail Hcalm Hmoves.
  destruct (canceled_partial i paused stopped fs head get schedule Hcanceled)
    as (r & k & Hget & Htemp & Hfinal & rest & Hrest).
  fold s0 s1 in Htemp, Hfinal.
  assert (fetches (files s1)) as Hfetch by (left; congruence).
  destruct (begin_fetch i' false false (files s1) head' get' r' Hfetch Hget')
    as (Hpc & Hpend & Hbreaks & _ & _ & _ & _ & Hopen & _).
  destruct (begin_honoured i' false false (files s1) head' get' r'
              Hfetch Hget' Hcode) as (_ & Hsame & _).
  set (s0' := begin i' false false (files s1) head' get') in *.
  assert (_pause s0' = false /\ _stop s0' = false) as [Hp Hc].
  { subst s0'. unfold begin, fetches, requested in *.
    destruct (temp (files s1)), (final (files s1));
      try (by destruct Hfetch); rewrite Hget'; by repeat case_match. }
  destruct (undisturbed_loop schedule' s0' (partial (files s0')) Hcalm Hp Hc
              Hopen) as (_ & _ & _ & _ & Hout).
  { by rewrite Hpc. }
  { unfold steps_left. rewrite Hpc, Hpend. lia. }
  change (execute schedule' s0') with s2 in Hout.
  unfold held in Hout. rewrite Hpc, Hpend, Hbreaks, Hfail in Hout.
  cbn [app] in Hout. destruct Hout as (Hfiles & _).
  rewrite Hsame in Hfiles. unfold partial at 1 in Hfiles.
  rewrite Htemp in Hfiles. cbn [default id] in Hfiles.
  rewrite <- app_assoc in Hfiles.
  exists r, k. split; [done|]. split; [done|].
  intros Hrest'. rewrite Hfiles, Hrest', <- concat_app.
  by rewrite take_drop.
Qed.

Lemma cancel_then_resume_completes_witness :
  exists r k,
    (fun _ : option Z => GetOk three_chunks) (requested no_files) = GetOk r /\
    files (run sample_item false false
             (files (run sample_item false false no_files HeadRaises
                       (fun _ => GetOk three_chunks)
                       [Work false; Work false; RequestCancel; Work false]))
             HeadRaises
             (fun _ => GetOk (mkResponse 206 (Some 2)
                                         [[Byte.x02]; [Byte.x03]] None))
             [Work false; Work false; Work false; Work false; Work false])
    = mkFiles None
        (Some (partial (files (begin sample_item false false no_files
                                     HeadRaises (fun _ => GetOk three_chunks)))
               ++ concat (take k (body r))
               ++ concat [[Byte.x02]; [Byte.x03]])).
Proof.
  destruct (cancel_then_resume_completes sample_item false false no_files
              HeadRaises (fun _ => GetOk three_chunks)
              [Work false; Work false; RequestCancel; Work false]
              sample_item HeadRaises
              (fun _ => GetOk (mkResponse 206 (Some 2)
                                          [[Byte.x02]; [Byte.x03]] None))
              (mkResponse 206 (Some 2) [[Byte.x02]; [Byte.x03]] None)
              [Work false; Work false; Work false; Work false; Work false])
    as (r & k & Hget & Hfiles & _);
    [split; reflexivity | reflexivity | reflexivity | reflexivity
    | reflexivity | cbn; lia |].
  exists r, k. split; [exact Hget | exact Hfiles].
Defined.

(** *** A worker whose stop flag is set *)

(** At the head of a stream that has a chunk to give, a stopped worker
    leaves on its first move and nothing else moves it. *)
Lemma stopped_loop schedule s :
  _stop s = true -> pc s = Fetch -> pending s <> [] ->
  let s' := execute schedule s in
  files s' = files s /\ it s' = it s /\
  (moves schedule = 0%nat -> pc s' = Fetch /\ signals s' = signals s) /\
  ((0 < moves schedule)%nat ->
   pc s' = Returned /\
   signals s' = signals s ++ [status_sig (index (it s)) Canceled]).
Proof.
  revert s. induction schedule as [|a schedule IH]; intros s Hstop Hpc Hpend.
  { cbn. repeat split; try done; unfold moves in *; cbn in *; lia. }
  rewrite execute_cons.
  destruct a as [elapsed| | |].
  - cbn [act]. unfold work. rewrite Hpc, Hstop.
    destruct (pending s) as [|chunk rest]; [done|].
    match goal with |- context [execute schedule ?s1] =>
      destruct (returned_is_final schedule s1 eq_refl)
        as (-> & -> & -> & ->) end.
    cbn. repeat split; try done; unfold moves in *; cbn in *; lia.
  - exact (IH (act s RequestPause) Hstop Hpc Hpend).
  - exact (IH (act s RequestResume) Hstop Hpc Hpend).
  - exact (IH (act s RequestCancel) eq_refl Hpc Hpend).
Qed.

(** X6.  A run of a worker whose stop flag is already set transfers
    nothing: whatever the schedule, the files stay as the prologue
    left them (the partial file opened, kept on a partial-content
    answer), the item's count does not move, and the only signal after
    [Downloading] is [Canceled], sent on the thread's first move. *)
Theorem stopped_worker_transfers_nothing i paused fs head get r schedule :
  fetches fs -> get (requested fs) = GetOk r -> body r <> [] ->
  let s0 := begin i paused true fs head get in
  let s := run i paused true fs head get schedule in
  files s = files s0 /\
  downloaded (it s) = downloaded (it s0) /\
  (status_code r = 206 -> partial (files s) = partial fs) /\
  (moves schedule = 0%nat ->
   signals s = [status_sig (index i) Downloading]) /\
  ((0 < moves schedule)%nat ->
   canceled s /\
   signals s = [status_sig (index i) Downloading;
                status_sig (index i) Canceled]).
Proof.
  intros Hfetch Hget Hbody s0 s.
  destruct (begin_fetch i paused true fs head get r Hfetch Hget)
    as (Hpc & Hpend & _ & Hsig & Hidx & _).
  fold s0 in Hpc, Hpend, Hsig, Hidx.
  assert (_stop s0 = true) as Hstop.
  { subst s0. unfold begin, fetches, requested in *.
    destruct (temp fs), (final fs); try (by destruct Hfetch);
      rewrite Hget; by repeat case_match. }
  destruct (stopped_loop schedule s0 Hstop Hpc) as (Hfiles & Hit & Hnone & Hsome).
  { by rewrite Hpend. }
  change (execute schedule s0) with s in Hfiles, Hit, Hnone, Hsome.
  split; [done|]. split; [by rewrite Hit|]. split.
  { intros Hcode. rewrite Hfiles.
    by destruct (begin_honoured i paused true fs head get r Hfetch Hget Hcode)
      as (_ & ? & _). }
  split.
  - intros Hmoves. destruct (Hnone Hmoves) as [_ ->]. done.
  - intros Hmoves. destruct (Hsome Hmoves) as [Hret Hsigs].
    rewrite Hsig, Hidx in Hsigs. split; [|done].
    split; [done|]. by rewrite Hsigs, Hit, Hidx.
Qed.

Lemma stopped_worker_transfers_nothing_witness :
  files (run sample_item false true two_bytes_so_far HeadRaises
           (fun _ => GetOk (mkResponse 206 (Some 1) [[Byte.x03]] None))
           [RequestResume; Work false; Work false])
  = files (begin sample_item false true two_bytes_so_far HeadRaises
             (fun _ => GetOk (mkResponse 206 (Some 1) [[Byte.x03]] None))).
Proof.
  destruct (stopped_worker_transfers_nothing sample_item false
              two_bytes_so_far HeadRaises
              (fun _ => GetOk (mkResponse 206 (Some 1) [[Byte.x03]] None))
              (mkResponse 206 (Some 1) [[Byte.x03]] None)
              [RequestResume; Work false; Work false])
    as (Hfiles & _); [by left | reflexivity | discriminate | exact Hfiles].
Defined.

(** *** A paused worker *)




(** *** The shortcut for a file that is already there *)

Lemma int32_small x : - 2 ^ 31 <= x < 2 ^ 31 -> int32 x = x.
Proof. intros Hx. unfold int32. rewrite Z.mod_small; lia. Qed.

(** X8.  When only the final file exists the run does not go to the
    network and touches no file: whatever the two requests would
    answer and whatever the schedule, it sets the item's count and
    size to the size of the file and signals the progress, [Done] and
    [finished].  The progress carries the size as count and as total,
    both as 32-bit ints, the total [-1] when the file is empty: below
    2 GiB they are the size itself. *)
Theorem already_downloaded_skips_the_network i paused stopped fs data head get
    schedule :
  temp fs = None -> final fs = Some data ->
  let s := run i paused stopped fs head get schedule in
  pc s = Returned /\ files s = fs /\
  downloaded (it s) = len data /\ size (it s) = Some (len data) /\
  signals s = [progress (index i) (int32 (len data))
                        (int32 (if len data =? 0 then -1 else len data));
               status_sig (index i) Done; finished (index i)] /\
  (len data < 2 ^ 31 ->
   signals s = [progress (index i) (len data)
                         (if len data =? 0 then -1 else len data);
                status_sig (index i) Done; finished (index i)]).
Proof.
  destruct fs as [tmp fin]. cbn. intros -> ->. unfold run.
  match goal with |- context [execute schedule ?s0] =>
    destruct (returned_is_final schedule s0 eq_refl) as (-> & -> & -> & ->)
  end.
  cbn. repeat split; try done.
  intros Hsmall. assert (0 <= len data) by (unfold len; lia).
  unfold size_or_minus1. cbn.
  rewrite !int32_small; [done| |lia].
  destruct (len data =? 0); lia.
Qed.

Lemma already_downloaded_skips_the_network_witness :
  signals (run sample_item false false (mkFiles None (Some [])) HeadRaises
             (fun _ => GetRaises "unreachable") [Work true])
  = [progress 0 0 (-1); status_sig 0 Done; finished 0].
Proof.
  destruct (already_downloaded_skips_the_network sample_item false false
              (mkFiles None (Some [])) [] HeadRaises
              (fun _ => GetRaises "unreachable") [Work true])
    as (_ & _ & _ & _ & _ & Hsignals); [reflexivity | reflexivity |].
  apply Hsignals. reflexivity.
Defined.

End WorkerFacts.

(** ** The scheduler *)

Module SchedulerFacts.
Import Scheduler.

(** *** Running the handlers *)

Lemma exec_bind {A} (m : M A) (k : A -> M unit) st :
  exec (m ≫= k) st =
  match m st with
  | (Ret a, st') => exec (k a) st'
  | (Raise _, st') => st'
  end.
Proof.
  unfold exec, mbind, M_bind, bind. by destruct (m st) as [[a|e] st'].
Qed.

(** *** The event handlers index the collection unchecked *)

Lemma item_at_raises row st :
  fst (item_at row st) = Raise IndexError <-> (length (items st) <= row)%nat.
Proof.
  unfold item_at. rewrite <- lookup_ge_None.
  destruct (items st !! row); cbn; split; intros; congruence.
Qed.

Lemma on_status_raises idx s st :
  fst (on_status idx s st) = Raise IndexError
  <-> (length (items st) <= idx)%nat.
Proof.
  rewrite <- item_at_raises. unfold on_status, mbind, M_bind, bind, item_at.
  destruct (items st !! idx); cbn; split; intros; congruence.
Qed.

Lemma on_progress_raises idx dl total st :
  fst (on_progress idx dl total st) = Raise IndexError
  <-> (length (items st) <= idx)%nat.
Proof.
  rewrite <- item_at_raises.
  unfold on_progress, mbind, M_bind, bind, item_at.
  destruct (items st !! idx); cbn; [|done].
  destruct (0 <? total); cbn; split; intros; congruence.
Qed.

(** C9.  [on_status] and [on_progress] raise [IndexError] exactly when
    the index of the event is not below the length of the collection,
    and then leave the state as it is.  Such an event exists: with two
    parts running, removing row 1 leaves one row, while the worker that
    was started for the removed part still carries index 1; its
    [Canceled] or progress event raises. *)
Theorem event_handlers_raise_past_the_end :
  (forall idx s st,
     (fst (on_status idx s st) = Raise IndexError
      <-> (length (items st) <= idx)%nat) /\
     ((length (items st) <= idx)%nat -> snd (on_status idx s st) = st)) /\
  (forall idx dl total st,
     (fst (on_progress idx dl total st) = Raise IndexError
      <-> (length (items st) <= idx)%nat) /\
     ((length (items st) <= idx)%nat -> snd (on_progress idx dl total st) = st)) /\
  (let st := step two_running (RemoveSelected [1%nat]) in
   exists w,
     ThreadStart w ∈ effects st /\
     index <$> store st !! item w = Some 1%nat /\
     length (items st) = 1%nat /\
     fst (on_status 1 Canceled st) = Raise IndexError /\
     fst (on_progress 1 0 (-1) st) = Raise IndexError).
Proof.
  split; [|split].
  - intros idx s st. split; [apply on_status_raises|].
    intros Hge%lookup_ge_None.
    unfold on_status, mbind, M_bind, bind, item_at. by rewrite Hge.
  - intros idx dl total st. split; [apply on_progress_raises|].
    intros Hge%lookup_ge_None.
    unfold on_progress, mbind, M_bind, bind, item_at. by rewrite Hge.
  - exists (mkWorker 1%nat false false false). vm_compute.
    repeat split; try done. apply list_elem_of_In. cbn. auto.
Qed.

Lemma event_handlers_raise_past_the_end_witness :
  snd (on_status 5 Done two_running) = two_running.
Proof.
  destruct event_handlers_raise_past_the_end as [Hstatus _].
  destruct (Hstatus 5%nat Done two_running) as [_ Hsame].
  apply Hsame. vm_compute. lia.
Defined.

(** *** Removal and the worker dictionary *)

(** C4 (fails on the code).  With two parts running, removing row 0
    leaves the second part as the only item, reindexed to 0; its worker
    is still filed under row 1 and row 0 has no worker. *)
Theorem remove_keeps_worker_under_old_row :
  let st := step two_running (RemoveSelected [0%nat]) in
  items st = [1%nat] /\
  index <$> store st !! 1%nat = Some 0%nat /\
  workers st !! 0%nat = None /\
  workers st !! 1%nat = Some (mkWorker 1%nat false false false).
Proof. vm_compute. done. Qed.

(** What follows from it: the row of the surviving part no longer
    reaches its worker, so pausing it does nothing. *)
Example pause_after_remove_is_lost :
  let st := step two_running (RemoveSelected [0%nat]) in
  let st' := step st (PauseSelected [0%nat]) in
  status_of st' 1%nat = Some Downloading /\ workers st' = workers st.
Proof. vm_compute. done. Qed.

(** *** The extraction trigger *)

Lemma all_terminal_true st :
  items st <> [] -> all_terminal st = true <-> every_item_terminal st.
Proof.
  intros Hne. unfold all_terminal, every_item_terminal.
  rewrite bool_decide_eq_false_2 by done. cbn.
  assert (forall l : list DownloadItem, List.filter (fun _ => true) l = l)
    as -> by (induction l; cbn; congruence).
  rewrite forallb_forall, Forall_forall.
  by setoid_rewrite list_elem_of_In.
Qed.

Lemma all_terminal_only_if st :
  all_terminal st = true -> every_item_terminal st.
Proof.
  destruct (decide (items st = [])) as [Hnil|Hne].
  - intros _. unfold every_item_terminal, item_objects. rewrite Hnil.
    constructor.
  - by apply all_terminal_true.
Qed.

Lemma exec_on_finished idx path st :
  effects (exec (on_finished idx path) st) =
  if all_terminal st && chk_extract st
  then effects st ++ [ExtractAll] else effects st.
Proof.
  unfold exec, on_finished, mbind, M_bind, bind, gets. cbn.
  destruct (all_terminal st), (chk_extract st); done.
Qed.

Lemma extractions_snoc l :
  length (List.filter (fun e => bool_decide (e = ExtractAll)) (l ++ [ExtractAll]))
  = S (length (List.filter (fun e => bool_decide (e = ExtractAll)) l)).
Proof.
  rewrite List.filter_app, length_app.
  change (List.filter _ [ExtractAll]) with [ExtractAll]. cbn [length]. lia.
Qed.

(** C2 (as amended).  A [finished] event calls [extract_all] at most
    once; it does so only if extraction is enabled and every item is
    terminal; on a non-empty collection it does so whenever extraction
    is enabled and every item is terminal; and with extraction disabled
    it leaves no trace.  The test is made at every [finished] event. *)
Theorem extraction_trigger idx path st :
  let st' := exec (on_finished idx path) st in
  (extractions st' = S (extractions st) \/ effects st' = effects st) /\
  (extractions st' = S (extractions st) ->
     chk_extract st = true /\ every_item_terminal st) /\
  (items st <> [] -> chk_extract st = true -> every_item_terminal st ->
     extractions st' = S (extractions st)) /\
  (chk_extract st = false -> effects st' = effects st).
Proof.
  cbn zeta. unfold extractions. rewrite exec_on_finished.
  destruct (all_terminal st) eqn:Hall, (chk_extract st) eqn:Hchk; cbn [andb];
    rewrite ?extractions_snoc; repeat split; auto; try lia;
    try (intros; by apply all_terminal_only_if).
  intros Hne _ Hterm. apply all_terminal_true in Hterm; congruence.
Qed.

Lemma extraction_trigger_witness :
  extractions (replay both_done_then_finished init)
  = S (extractions (replay (removelast both_done_then_finished) init)).
Proof.
  destruct (extraction_trigger 1 "game.part2.rar"
              (replay (removelast both_done_then_finished) init))
    as (_ & _ & Hfires & _).
  apply Hfires; [by vm_compute | reflexivity |].
  unfold every_item_terminal. vm_compute. repeat constructor.
Defined.

(** C2 (as stated, refuted).  The two parts of a batch finish
    together: both [Done] statuses are in before the first [finished]
    event is handled, and [extract_all] is called at each of the two
    [finished] events. *)
Lemma extraction_fires_twice :
  extractions (replay both_done_then_finished init) = 2%nat /\
  extractions (replay both_done_then_finished init) <> 1%nat.
Proof. vm_compute. split; [done | lia]. Qed.

(** A batch whose last part fails never triggers: [on_finished] is only
    signalled by a part that completes. *)
Example extraction_never_fires :
  let st := replay [AddUrl "a.part1.rar"; AddUrl "a.part2.rar"; Start;
                 StatusEvent 0 Done; FinishedEvent 0 "a.part1.rar";
                 ErrorEvent 1 "timeout"; StatusEvent 1 Error] init in
  every_item_terminal st /\ extractions st = 0%nat.
Proof. split; [vm_compute; repeat constructor | by vm_compute]. Qed.

(** The guard [if self.items] sits inside the generator, so the empty
    collection passes the test. *)
Example extraction_fires_on_empty_collection :
  extractions (replay [AddUrl "a.rar"; Start; RemoveSelected [0%nat];
                    FinishedEvent 0 "a.rar"] init) = 1%nat.
Proof. by vm_compute. Qed.

(** *** Lists: a prefix of the filtered list *)

Section TakeFilter.
Context {A : Type} `{EqDecision A}.
Implicit Types (f g : A -> bool) (l : list A).

Lemma elem_of_filter f l x : x ∈ List.filter f l <-> x ∈ l /\ f x = true.
Proof. rewrite !list_elem_of_In. apply List.filter_In. Qed.

Lemma filter_length_mono f g l :
  (forall x, x ∈ l -> f x = true -> g x = true) ->
  (length (List.filter f l) <= length (List.filter g l))%nat.
Proof.
  induction l as [|a l IH]; intros Hfg; [done|]. cbn.
  assert (length (List.filter f l) <= length (List.filter g l))%nat
    by (apply IH; intros x Hx; apply Hfg; by right).
  destruct (f a) eqn:Hfa.
  - rewrite (Hfg a) by (done || left). cbn. lia.
  - destruct (g a); cbn; lia.
Qed.

(** What is left of the filtered list once its first [n] elements are
    filtered out as well. *)
Lemma filter_minus_take f l n :
  NoDup l ->
  List.filter (fun x => f x && negb (bool_decide (x ∈ take n (List.filter f l)))) l
  = drop n (List.filter f l).
Proof.
  intros Hnd. revert n. induction Hnd as [|a l Ha Hnd IH]; intros n.
  { by destruct n. }
  cbn [List.filter]. destruct (f a) eqn:Hfa; cbn [andb].
  - destruct n as [|n]; cbn [take drop].
    + rewrite bool_decide_eq_false_2 by apply not_elem_of_nil. cbn.
      f_equal. apply List.filter_ext. intros x.
      rewrite bool_decide_eq_false_2 by apply not_elem_of_nil.
      by rewrite andb_true_r.
    + rewrite bool_decide_eq_true_2 by left. cbn. rewrite <- IH.
      apply List.filter_ext_in. intros x Hx%list_elem_of_In.
      f_equal. f_equal. apply bool_decide_ext. rewrite elem_of_cons.
      split; [intros [->|]; done | by right].
  - apply IH.
Qed.

(** An element of the prefix brings along every filtered element that
    comes before it. *)
Lemma take_filter_earlier f before x after n y :
  NoDup (before ++ x :: after) ->
  x ∈ take n (List.filter f (before ++ x :: after)) ->
  y ∈ before -> f y = true ->
  y ∈ take n (List.filter f (before ++ x :: after)).
Proof.
  intros Hnd Hx Hy Hfy. rewrite List.filter_app in *.
  apply NoDup_app in Hnd as (_ & Hnotin & _).
  destruct (decide (n <= length (List.filter f before))%nat) as [Hle|Hgt].
  - rewrite take_app_le in Hx by done.
    apply subseteq_take, elem_of_filter in Hx as [Hx _].
    destruct (Hnotin x Hx). left.
  - rewrite take_app_ge by lia. apply elem_of_app. left.
    by apply elem_of_filter.
Qed.

Lemma filter_or_length f g l :
  (length (List.filter (fun x => f x || g x) l)
   <= length (List.filter f l) + length (List.filter g l))%nat.
Proof.
  induction l as [|a l IH]; [done|]. cbn.
  destruct (f a), (g a); cbn; lia.
Qed.

Lemma NoDup_filter f l : NoDup l -> NoDup (List.filter f l).
Proof.
  induction 1 as [|a l Ha Hnd IH]; cbn; [constructor|].
  destruct (f a); [|done]. constructor; [|done].
  rewrite elem_of_filter. by intros [? _].
Qed.

Lemma filter_member_length l k :
  NoDup l ->
  (length (List.filter (fun x => bool_decide (x ∈ k)) l) <= length k)%nat.
Proof.
  intros Hnd. apply submseteq_length, NoDup_submseteq.
  - by apply NoDup_filter.
  - intros x [_ Hx%bool_decide_eq_true]%elem_of_filter. done.
Qed.

Lemma filter_length_Permutation f l k :
  l ≡ₚ k -> length (List.filter f l) = length (List.filter f k).
Proof.
  induction 1 as [|a l k _ IH|a b l|l k m _ IH1 _ IH2]; cbn.
  - done.
  - destruct (f a); cbn; lia.
  - destruct (f a), (f b); cbn; lia.
  - congruence.
Qed.

End TakeFilter.

(** The items that satisfy [q] are no more than the entries of the
    dictionary that satisfy [p], when each such item at row [i] has an
    entry under key [o + i] that satisfies [p]. *)
Lemma filter_length_le_map {V} (q : nat -> bool) (p : nat * V -> bool)
    (l : list nat) (o : nat) (m : gmap nat V) :
  (forall i r, l !! i = Some r -> q r = true ->
     exists v, m !! (o + i)%nat = Some v /\ p ((o + i)%nat, v) = true) ->
  (length (List.filter q l) <= length (List.filter p (map_to_list m)))%nat.
Proof.
  revert o m. induction l as [|r l IH]; intros o m Hcov; [cbn; lia|].
  cbn [List.filter]. destruct (q r) eqn:Hq.
  - destruct (Hcov 0%nat r eq_refl Hq) as (v & Hv & Hp).
    rewrite Nat.add_0_r in Hv, Hp.
    rewrite <- (filter_length_Permutation p _ _ (map_to_list_delete m o v Hv)).
    cbn [List.filter]. rewrite Hp. cbn [length].
    apply le_n_S, (IH (S o)). intros i r' Hi Hr'.
    destruct (Hcov (S i) r' Hi Hr') as (v' & Hv' & Hp').
    exists v'. replace (S o + i)%nat with (o + S i)%nat by lia.
    split; [|done]. rewrite lookup_delete_ne by lia. done.
  - apply (IH (S o)). intros i r' Hi Hr'.
    destruct (Hcov (S i) r' Hi Hr') as (v' & Hv' & Hp').
    exists v'. by replace (S o + i)%nat with (o + S i)%nat by lia.
Qed.

(** *** The pump *)

(** What [promote] does, and when it raises: the flag and the status
    are written either way. *)
Lemma promote_run r it st :
  let w := request_resume
             (default (mkWorker r false false false) (workers st !! index it)) in
  let st' := with_store (alter (set_status Downloading) r)
               (with_workers (insert (index it) w) st) in
  promote r it st = if deleted w then (Raise RuntimeError, st')
                    else (Ret tt, emit (ThreadStart w) st').
Proof.
  unfold promote, mbind, M_bind, bind, gets, modify, update_object, raise.
  cbn. by destruct (deleted _).
Qed.

(** The loop keeps what [promote] keeps, whether or not it raises. *)
Lemma pump_loop_keeps (I : MainWindow -> Prop) its slots st :
  (forall r it st, r ∈ its -> store st !! r = Some it -> I st ->
                   I (snd (promote r it st))) ->
  I st -> I (snd (pump_loop its slots st)).
Proof.
  revert slots st. induction its as [|r its IH]; intros slots st Hpromote Hst;
    [done|].
  assert (forall r' it st, r' ∈ its -> store st !! r' = Some it -> I st ->
                           I (snd (promote r' it st))) as Hrest
    by (intros r' it' st' Hr'; apply Hpromote; by right).
  cbn [pump_loop]. destruct (slots <=? 0); [done|].
  unfold mbind, M_bind, bind, gets.
  destruct (store st !! r) as [it|] eqn:Hit; [|by apply IH].
  destruct (eligible (status it)); [|by apply IH].
  specialize (Hpromote r it st (ltac:(left)) Hit Hst).
  destruct (promote r it st) as [[[]|e] st1]; cbn in *; [by apply IH|done].
Qed.

Lemma promote_frame r it st :
  items (snd (promote r it st)) = items st /\
  max_concurrency (snd (promote r it st)) = max_concurrency st /\
  concurrency (snd (promote r it st)) = concurrency st /\
  chk_extract (snd (promote r it st)) = chk_extract st /\
  length (store (snd (promote r it st))) = length (store st).
Proof.
  rewrite promote_run. cbn zeta.
  destruct (deleted _); cbn; by rewrite length_alter.
Qed.

Lemma pump_loop_frame its slots st :
  items (snd (pump_loop its slots st)) = items st /\
  max_concurrency (snd (pump_loop its slots st)) = max_concurrency st /\
  concurrency (snd (pump_loop its slots st)) = concurrency st /\
  chk_extract (snd (pump_loop its slots st)) = chk_extract st /\
  length (store (snd (pump_loop its slots st))) = length (store st).
Proof.
  apply (pump_loop_keeps
           (fun st' => items st' = items st /\
                       max_concurrency st' = max_concurrency st /\
                       concurrency st' = concurrency st /\
                       chk_extract st' = chk_extract st /\
                       length (store st') = length (store st))); [|done].
  intros r it st' _ _ (<- & <- & <- & <- & <-). apply promote_frame.
Qed.

Lemma pumpable_alter_ne h r r' f :
  r <> r' -> pumpable (alter f r h) r' = pumpable h r'.
Proof. intros Hne. unfold pumpable. by rewrite list_lookup_alter_ne. Qed.

(** The objects after the loop: the first eligible ones of the list
    are [Downloading], as many as there were slots if the loop went
    through and no more if it raised; the others are as they were. *)
Lemma pump_loop_lookup its slots st :
  NoDup its ->
  exists n,
    (n <= Z.to_nat slots)%nat /\
    (fst (pump_loop its slots st) = Ret tt -> n = Z.to_nat slots) /\
    forall r : nat,
      store (snd (pump_loop its slots st)) !! r =
      if bool_decide (r ∈ take n (List.filter (pumpable (store st)) its))
      then set_status Downloading <$> store st !! r
      else store st !! r.
Proof.
  intros Hnd. revert slots st.
  induction Hnd as [|r0 its Hr0 Hnd IH]; intros slots st.
  { exists (Z.to_nat slots). cbn. rewrite take_nil.
    split; [done|]. split; [done|]. intros r.
    by rewrite bool_decide_eq_false_2 by apply not_elem_of_nil. }
  cbn [pump_loop List.filter]. destruct (Z.leb_spec slots 0) as [Hle|Hgt].
  { exists 0%nat. cbn. split; [lia|]. split; [lia|]. intros r.
    by rewrite bool_decide_eq_false_2 by apply not_elem_of_nil. }
  unfold mbind, M_bind, bind, gets.
  assert (pumpable (store st) r0 =
          match store st !! r0 with
          | Some it => eligible (status it)
          | None => false
          end) as Hp by done.
  destruct (store st !! r0) as [it|] eqn:Hit; rewrite Hp; [|apply IH].
  destruct (eligible (status it)) eqn:Helig; [|apply IH].
  rewrite promote_run. cbn zeta.
  set (w := request_resume _).
  set (st1 := with_store _ _).
  assert (List.filter (pumpable (store st1)) its
          = List.filter (pumpable (store st)) its) as Hsame.
  { apply List.filter_ext_in. intros x Hx%list_elem_of_In.
    apply pumpable_alter_ne. by intros ->. }
  assert (forall n r : nat,
            (if bool_decide (r ∈ take n (List.filter (pumpable (store st)) its))
             then set_status Downloading <$> store st1 !! r
             else store st1 !! r)
            = if bool_decide (r ∈ r0 :: take n
                                (List.filter (pumpable (store st)) its))
              then set_status Downloading <$> store st !! r
              else store st !! r) as Hstep.
  { intros n r. subst st1. cbn [store with_store with_workers].
    destruct (decide (r = r0)) as [->|Hne].
    - rewrite bool_decide_eq_false_2.
      2: { intros Hin%subseteq_take%elem_of_filter. by destruct Hin. }
      rewrite bool_decide_eq_true_2 by left.
      by rewrite list_lookup_alter_eq.
    - rewrite list_lookup_alter_ne by done.
      rewrite (bool_decide_ext (r ∈ r0 :: _) (r ∈ take n
                 (List.filter (pumpable (store st)) its))); [done|].
      rewrite elem_of_cons. split; [intros [|]; done | by right]. }
  destruct (deleted w).
  - exists 1%nat. cbn [fst snd]. split; [lia|]. split; [done|].
    intros r. specialize (Hstep 0%nat r). cbn [take] in Hstep |- *.
    rewrite <- Hstep.
    by rewrite bool_decide_eq_false_2 by apply not_elem_of_nil.
  - destruct (IH (slots - 1) (emit (ThreadStart w) st1))
      as (n & Hn & Hret & Hlook).
    exists (S n). split; [lia|]. split; [intros Hr; rewrite Hret; [lia|done]|].
    intros r. rewrite Hlook. cbn [store emit take]. rewrite Hsame.
    apply Hstep.
Qed.

Lemma exec_pump_queue st :
  exec _pump_queue st =
  let slots := max_concurrency st - Z.of_nat (active st) in
  if slots <=? 0 then st
  else match pump_loop (items st) slots st with
       | (Ret _, st') => exec _update_overall st'
       | (Raise _, st') => st'
       end.
Proof.
  unfold exec, _pump_queue, mbind, M_bind, bind, gets. cbn.
  destruct (_ <=? 0); [done|].
  by destruct (pump_loop _ _ st) as [[[]|e] st'].
Qed.

(** Whether the pump raised. *)
Lemma fst_pump_queue st :
  fst (_pump_queue st) =
  let slots := max_concurrency st - Z.of_nat (active st) in
  if slots <=? 0 then Ret tt else fst (pump_loop (items st) slots st).
Proof.
  unfold _pump_queue, mbind, M_bind, bind, gets. cbn.
  destruct (_ <=? 0); [done|].
  by destruct (pump_loop _ _ st) as [[[]|e] st'].
Qed.

(** The pump keeps what its loop keeps. *)
Lemma pump_keeps (I : MainWindow -> Prop) st :
  (forall st', I st' -> I (exec _update_overall st')) ->
  I st -> I (snd (pump_loop (items st)
                    (max_concurrency st - Z.of_nat (active st)) st)) ->
  I (exec _pump_queue st).
Proof.
  intros Hupdate Hst Hloop. rewrite exec_pump_queue. cbn zeta.
  destruct (_ <=? 0); [done|].
  destruct (pump_loop _ _ st) as [[[]|e] st']; cbn in Hloop; [|done].
  by apply Hupdate.
Qed.

Lemma pump_frame st :
  items (exec _pump_queue st) = items st /\
  max_concurrency (exec _pump_queue st) = max_concurrency st /\
  concurrency (exec _pump_queue st) = concurrency st /\
  chk_extract (exec _pump_queue st) = chk_extract st /\
  length (store (exec _pump_queue st)) = length (store st).
Proof.
  apply (pump_keeps
           (fun st' => items st' = items st /\
                       max_concurrency st' = max_concurrency st /\
                       concurrency st' = concurrency st /\
                       chk_extract st' = chk_extract st /\
                       length (store st') = length (store st)));
    [done | done | apply pump_loop_frame].
Qed.

(** The objects after a pump cycle: a prefix of the eligible items is
    [Downloading], as long as the free slots if the cycle went through;
    the others are as they were. *)
Lemma pump_lookup st :
  NoDup (items st) ->
  exists n,
    (n <= free_slots st)%nat /\
    (fst (_pump_queue st) = Ret tt -> n = free_slots st) /\
    forall r : nat,
      store (exec _pump_queue st) !! r =
      if bool_decide (r ∈ take n (eligibles st))
      then set_status Downloading <$> store st !! r
      else store st !! r.
Proof.
  intros Hnd. rewrite exec_pump_queue, fst_pump_queue.
  unfold free_slots, eligibles. cbn zeta.
  destruct (Z.leb_spec (max_concurrency st - Z.of_nat (active st)) 0).
  - exists 0%nat. split; [lia|]. split; [lia|]. intros r. cbn.
    by rewrite bool_decide_eq_false_2 by apply not_elem_of_nil.
  - destruct (pump_loop_lookup (items st)
                (max_concurrency st - Z.of_nat (active st)) st Hnd)
      as (n & Hn & Hret & Hlook).
    exists n. split; [done|].
    destruct (pump_loop _ _ st) as [[[]|e] st']; cbn in *; by split.
Qed.

Lemma pumpable_is_Some h r : pumpable h r = true -> is_Some (h !! r).
Proof. unfold pumpable. by destruct (h !! r). Qed.

Lemma display_rows st :
  well_formed st ->
  display_index st <$> items st = Some <$> seq 0 (length (items st)).
Proof.
  intros [_ _ Hindex]. apply list_eq. intros p.
  rewrite !list_lookup_fmap.
  destruct (items st !! p) as [r|] eqn:Hr; cbn.
  - rewrite (Hindex p r Hr). apply lookup_lt_Some in Hr.
    by rewrite lookup_seq_lt.
  - apply lookup_ge_None in Hr. by rewrite lookup_seq_ge.
Qed.

(** **** A pump cycle none of whose workers was deleted *)

Lemma promote_alive r it st : alive st -> alive (snd (promote r it st)).
Proof.
  intros Halive. rewrite promote_run. cbn zeta.
  assert (deleted (request_resume
            (default (mkWorker r false false false) (workers st !! index it)))
          = false) as Hw.
  { destruct (workers st !! index it) as [w|] eqn:Hfiled; cbn; [|done].
    by apply (Halive _ _ Hfiled). }
  rewrite Hw. intros k w. cbn.
  destruct (decide (index it = k)) as [<-|Hne].
  - rewrite lookup_insert_eq. by intros [= <-].
  - rewrite lookup_insert_ne by done. apply Halive.
Qed.

Lemma promote_returns r it st : alive st -> fst (promote r it st) = Ret tt.
Proof.
  intros Halive. rewrite promote_run. cbn zeta.
  destruct (workers st !! index it) as [w|] eqn:Hfiled; cbn; [|done].
  by rewrite (Halive _ _ Hfiled).
Qed.

Lemma pump_loop_returns its slots st :
  alive st -> fst (pump_loop its slots st) = Ret tt.
Proof.
  revert slots st. induction its as [|r its IH]; intros slots st Halive;
    [done|].
  cbn [pump_loop]. destruct (slots <=? 0); [done|].
  unfold mbind, M_bind, bind, gets.
  destruct (store st !! r) as [it|]; [|by apply IH].
  destruct (eligible (status it)); [|by apply IH].
  pose proof (promote_returns r it st Halive) as Hret.
  pose proof (promote_alive r it st Halive) as Halive'.
  destruct (promote r it st) as [[[]|e] st1]; cbn in *; [by apply IH|done].
Qed.

Lemma pump_returns st : alive st -> fst (_pump_queue st) = Ret tt.
Proof.
  intros Halive. rewrite fst_pump_queue. cbn zeta.
  destruct (_ <=? 0); [done|]. by apply pump_loop_returns.
Qed.

Lemma pump_alive st : alive st -> alive (exec _pump_queue st).
Proof.
  intros Halive. apply pump_keeps; [done | done |].
  apply pump_loop_keeps; [|done]. intros r it st' _ _. apply promote_alive.
Qed.

(** With every worker alive the cycle goes through: the objects after
    it are the first [free_slots] eligible ones made [Downloading]. *)
Lemma pump_lookup_alive st r :
  NoDup (items st) -> alive st ->
  store (exec _pump_queue st) !! r =
  if bool_decide (r ∈ take (free_slots st) (eligibles st))
  then set_status Downloading <$> store st !! r
  else store st !! r.
Proof.
  intros Hnd Halive.
  destruct (pump_lookup st Hnd) as (n & _ & Hret & Hlook).
  rewrite Hlook, Hret; [done|]. by apply pump_returns.
Qed.

Lemma pumpable_after_pump st r :
  NoDup (items st) -> alive st ->
  pumpable (store (exec _pump_queue st)) r =
  pumpable (store st) r
  && negb (bool_decide (r ∈ take (free_slots st) (eligibles st))).
Proof.
  intros Hnd Halive. unfold pumpable at 1. rewrite pump_lookup_alive by done.
  destruct (bool_decide _); unfold pumpable.
  - destruct (store st !! r) as [it|]; cbn; [|done].
    by destruct (eligible (status it)).
  - by rewrite andb_true_r.
Qed.

(** On a well-formed collection none of whose filed workers was
    deleted, one pump cycle admits exactly the first [free_slots]
    eligible items in display order, the rows reading 0, 1, 2, ...:
    those become [Downloading] and every other item keeps its status;
    an eligible item that precedes an admitted one is admitted; the
    eligible items left over are the ones beyond that prefix. *)
Lemma pump_admits_first_eligible st :
  well_formed st -> alive st ->
  let st' := exec _pump_queue st in
  let admitted := take (free_slots st) (eligibles st) in
  fst (_pump_queue st) = Ret tt /\
  items st' = items st /\
  display_index st <$> items st = Some <$> seq 0 (length (items st)) /\
  (forall r, r ∈ items st ->
     status_of st' r = if bool_decide (r ∈ admitted)
                       then Some Downloading else status_of st r) /\
  (forall before r after y,
     items st = before ++ r :: after -> r ∈ admitted ->
     y ∈ before -> pumpable (store st) y = true -> y ∈ admitted) /\
  eligibles st' = drop (free_slots st) (eligibles st) /\
  (eligibles st' <> [] -> length admitted = free_slots st).
Proof.
  intros Hwf Halive. pose proof (wf_nodup _ Hwf) as Hnd.
  assert (eligibles (exec _pump_queue st)
          = drop (free_slots st) (eligibles st)) as Hleft.
  { unfold eligibles at 1. destruct (pump_frame st) as (-> & _).
    unfold eligibles at 1. rewrite <- filter_minus_take by done.
    apply List.filter_ext. intros r. by apply pumpable_after_pump. }
  cbn zeta. split; [by apply pump_returns|].
  split; [apply pump_frame|]. split; [by apply display_rows|].
  split; [|split; [|split]].
  - intros r _. unfold status_of. rewrite pump_lookup_alive by done.
    destruct (bool_decide _) eqn:Hin; [|done].
    apply bool_decide_eq_true in Hin.
    apply subseteq_take, elem_of_filter in Hin as [_ Hp].
    by destruct (pumpable_is_Some _ _ Hp) as [it ->].
  - intros before r after y Hsplit Hr Hy Hp. unfold eligibles in *.
    rewrite Hsplit in *. by eapply take_filter_earlier.
  - done.
  - rewrite Hleft. intros Hne. rewrite length_take.
    destruct (decide (free_slots st <= length (eligibles st))%nat); [lia|].
    rewrite drop_ge in Hne by lia. done.
Qed.

(** *** Every reachable collection is well formed *)

Lemma index_alter_keep (f : DownloadItem -> DownloadItem)
    (h : list DownloadItem) (r r' : nat) :
  (forall it, index (f it) = index it) ->
  index <$> alter f r h !! r' = index <$> h !! r'.
Proof.
  intros Hf. destruct (decide (r = r')) as [->|Hne].
  - rewrite list_lookup_alter_eq. destruct (h !! r'); cbn; by rewrite ?Hf.
  - by rewrite list_lookup_alter_ne.
Qed.

(** Well-formedness looks at the collection, the number of objects and
    their [index] fields only. *)
Lemma well_formed_ext st st' :
  items st' = items st ->
  length (store st') = length (store st) ->
  (forall r : nat, index <$> store st' !! r = index <$> store st !! r) ->
  well_formed st -> well_formed st'.
Proof.
  intros Hitems Hlen Hidx [Hnd Hvalid Hindex]. split.
  - by rewrite Hitems.
  - rewrite Hitems, Hlen. apply Hvalid.
  - rewrite Hitems. intros p r Hp. unfold display_index.
    rewrite Hidx. by apply Hindex.
Qed.

Lemma promote_well_formed st r it :
  well_formed st -> well_formed (snd (promote r it st)).
Proof.
  rewrite promote_run. cbn zeta.
  destruct (deleted _); cbn [snd];
    (apply well_formed_ext; cbn; [done | apply length_alter |];
     intros r'; by apply index_alter_keep).
Qed.

Lemma pump_well_formed st :
  well_formed st -> well_formed (exec _pump_queue st).
Proof.
  intros Hwf. apply pump_keeps; [|done|].
  - intros st'. by apply well_formed_ext.
  - apply pump_loop_keeps; [|done].
    intros r it st' _ _. apply promote_well_formed.
Qed.

(** A loop keeps what its body keeps, whether or not it raises. *)
Lemma for_each_keeps {A} (I : MainWindow -> Prop) (body : A -> M unit) xs st :
  (forall x st, I st -> I (snd (body x st))) ->
  I st -> I (snd (for_each xs body st)).
Proof.
  intros Hbody. revert st. induction xs as [|x xs IH]; intros st Hst; [done|].
  cbn. unfold mbind, M_bind, bind.
  specialize (Hbody x st Hst). destruct (body x st) as [[[]|e] st']; cbn in *.
  - by apply IH.
  - done.
Qed.

Lemma for_selected_well_formed request s rows st :
  well_formed st -> well_formed (snd (for_selected request s rows st)).
Proof.
  unfold for_selected. apply for_each_keeps. clear st. intros row st Hwf.
  unfold mbind, M_bind, bind, gets, modify, item_at, update_object. cbn.
  destruct (workers st !! row) as [w|]; cbn; [|done].
  destruct (items st !! row) as [r|]; cbn.
  - revert Hwf. apply well_formed_ext; cbn; [done | apply length_alter |].
    intros r'. by apply index_alter_keep.
  - revert Hwf. by apply well_formed_ext.
Qed.

(** [for i, it in enumerate(self.items): it.index = i] leaves the
    other objects alone and writes each row into its item. *)
Lemma reindex_from_frame o its (h : list DownloadItem) (r : nat) :
  r ∉ its -> reindex_from o its h !! r = h !! r.
Proof.
  revert o h. induction its as [|r0 its IH]; intros o h Hr; [done|].
  apply not_elem_of_cons in Hr as [Hne Hr]. cbn.
  rewrite IH by done. by rewrite list_lookup_alter_ne.
Qed.

Lemma reindex_from_length o its (h : list DownloadItem) :
  length (reindex_from o its h) = length h.
Proof.
  revert o h. induction its as [|r0 its IH]; intros o h; [done|].
  cbn. by rewrite IH, length_alter.
Qed.

Lemma reindex_from_index o its (h : list DownloadItem) p r :
  NoDup its -> (forall r, r ∈ its -> (r < length h)%nat) ->
  its !! p = Some r ->
  index <$> reindex_from o its h !! r = Some (o + p)%nat.
Proof.
  intros Hnd. revert o h p.
  induction Hnd as [|r0 its Hr0 Hnd IH]; intros o h p Hvalid Hp; [done|].
  cbn. destruct p as [|p]; cbn in Hp.
  - injection Hp as ->. rewrite reindex_from_frame by done.
    rewrite list_lookup_alter_eq.
    destruct (lookup_lt_is_Some_2 h r) as [it ->]; [apply Hvalid; left|].
    cbn. f_equal. lia.
  - rewrite (IH (S o) _ p); [f_equal; lia | | done].
    intros r' Hr'. rewrite length_alter. apply Hvalid. by right.
Qed.

(** After [reindex] any collection without duplicates is well formed. *)
Lemma reindex_well_formed st :
  NoDup (items st) ->
  (forall r, r ∈ items st -> (r < length (store st))%nat) ->
  well_formed (exec reindex st).
Proof.
  intros Hnd Hvalid. unfold exec, reindex, modify. split; cbn.
  - done.
  - intros r Hr. rewrite reindex_from_length. by apply Hvalid.
  - intros p r Hp. unfold display_index. cbn.
    by rewrite (reindex_from_index 0 _ _ p).
Qed.

(** [sorted(rows, reverse=True)] of distinct rows is strictly
    descending and has the same rows. *)
Lemma elem_of_insert_desc x y l : y ∈ insert_desc x l <-> y = x \/ y ∈ l.
Proof.
  induction l as [|z l IH]; cbn.
  - rewrite list_elem_of_singleton, elem_of_nil. tauto.
  - destruct (z <=? x)%nat; rewrite !elem_of_cons, ?IH; tauto.
Qed.

Lemma elem_of_sorted_desc y l : y ∈ sorted_desc l <-> y ∈ l.
Proof.
  induction l as [|x l IH]; [done|].
  cbn. rewrite elem_of_insert_desc, elem_of_cons.
  unfold sorted_desc in IH. by rewrite IH.
Qed.

Lemma descending_below_weaken n n' rows :
  (n <= n')%nat -> descending_below n rows -> descending_below n' rows.
Proof. destruct rows; cbn; [done|]. intros ? [? ?]. split; [lia|done]. Qed.

Lemma descending_below_lt n rows row :
  descending_below n rows -> row ∈ rows -> (row < n)%nat.
Proof.
  revert n. induction rows as [|x rows IH]; intros n; [by intros _ ?%elem_of_nil|].
  cbn. intros [Hx Hrows] [->|Hin]%elem_of_cons; [done|].
  specialize (IH x Hrows Hin). lia.
Qed.

Lemma insert_desc_below n x l :
  (x < n)%nat -> x ∉ l -> descending_below n l ->
  descending_below n (insert_desc x l).
Proof.
  revert n. induction l as [|y l IH]; intros n Hx Hnotin Hl; [done|].
  apply not_elem_of_cons in Hnotin as [Hne Hnotin]. destruct Hl as [Hy Hl].
  cbn. destruct (Nat.leb_spec y x).
  - cbn. split; [done|]. split; [lia|done].
  - cbn. split; [done|]. apply IH; [lia|done..].
Qed.

Lemma sorted_desc_below n rows :
  NoDup rows -> (forall row, row ∈ rows -> (row < n)%nat) ->
  descending_below n (sorted_desc rows).
Proof.
  induction 1 as [|x rows Hx Hnd IH]; intros Hlt; [done|].
  cbn. apply insert_desc_below.
  - apply Hlt. left.
  - by rewrite elem_of_sorted_desc.
  - apply IH. intros row Hrow. apply Hlt. by right.
Qed.

(** The loop of [remove_selected] on rows in descending order: it does
    not raise, the objects are untouched, and the rows are deleted from
    the collection one after the other. *)
Lemma remove_row_runs row st :
  (row < length (items st))%nat ->
  exists st', remove_row row st = (Ret tt, st') /\
    store st' = store st /\ items st' = delete row (items st) /\
    workers st' = delete row (workers st) /\
    max_concurrency st' = max_concurrency st.
Proof.
  intros [r Hr]%lookup_lt_is_Some_2.
  unfold remove_row, mbind, M_bind, bind, gets, modify, item_at. cbn.
  destruct (workers st !! row); cbn; rewrite Hr; cbn; eexists;
    (split; [done|]); cbn; by rewrite ?delete_insert_eq.
Qed.

Lemma remove_loop_runs rows st :
  descending_below (length (items st)) rows ->
  exists st', for_each rows remove_row st = (Ret tt, st') /\
    store st' = store st /\
    items st' = foldl (fun l row => delete row l) (items st) rows /\
    workers st' = foldl (fun m row => delete row m) (workers st) rows /\
    max_concurrency st' = max_concurrency st.
Proof.
  revert st. induction rows as [|row rows IH]; intros st Hrows.
  { by exists st. }
  destruct Hrows as [Hrow Hrows].
  destruct (remove_row_runs row st Hrow) as (st1 & Hrun & Hs & Hi & Hw & Hm).
  destruct (IH st1) as (st' & Hrun' & Hs' & Hi' & Hw' & Hm').
  { eapply descending_below_weaken; [|done].
    rewrite Hi, length_delete by (by apply lookup_lt_is_Some_2). lia. }
  exists st'. cbn. unfold mbind, M_bind, bind. rewrite Hrun. cbn.
  rewrite Hs', Hi', Hw', Hm', Hs, Hi, Hw, Hm. done.
Qed.

(** Deleting descending rows deletes exactly the elements of those
    rows and keeps the others in their order. *)
Lemma foldl_delete_sublist {A} (l : list A) rows :
  foldl (fun l row => delete row l) l rows `sublist_of` l.
Proof.
  revert l. induction rows as [|row rows IH]; intros l; [done|].
  cbn. etrans; [apply IH | apply sublist_delete].
Qed.

Lemma elem_of_foldl_delete {A} (l : list A) n rows x :
  descending_below n rows ->
  x ∈ foldl (fun l row => delete row l) l rows
  <-> exists p, l !! p = Some x /\ p ∉ rows.
Proof.
  revert n l. induction rows as [|row rows IH]; intros n l Hrows.
  { cbn. rewrite list_elem_of_lookup. split.
    - intros [p Hp]. exists p. split; [done | apply not_elem_of_nil].
    - intros (p & Hp & _). by exists p. }
  destruct Hrows as [_ Hrows]. cbn. rewrite (IH row) by done.
  pose proof (fun p => descending_below_lt row rows p Hrows) as Hlt.
  split.
  - intros (p & Hp & Hnotin). destruct (decide (p < row)%nat).
    + exists p. rewrite list_lookup_delete_lt in Hp by done.
      split; [done|]. rewrite not_elem_of_cons. split; [lia|done].
    + exists (S p). rewrite list_lookup_delete_ge in Hp by lia.
      split; [done|]. rewrite not_elem_of_cons. split; [lia|].
      intros Hin%Hlt. lia.
  - intros (p & Hp & [Hne Hnotin]%not_elem_of_cons).
    destruct (decide (p < row)%nat).
    + exists p. by rewrite list_lookup_delete_lt.
    + exists (p - 1)%nat. rewrite list_lookup_delete_ge by lia.
      replace (S (p - 1)) with p by lia. split; [done|].
      intros Hin%Hlt. lia.
Qed.

Lemma exec_remove_selected rows st :
  selection st rows ->
  exists st1,
    for_each (sorted_desc rows) remove_row st = (Ret tt, st1) /\
    exec (remove_selected rows) st = exec _update_overall (exec reindex st1) /\
    store st1 = store st /\
    items st1 = foldl (fun l row => delete row l) (items st) (sorted_desc rows) /\
    workers st1 = foldl (fun m row => delete row m) (workers st) (sorted_desc rows).
Proof.
  intros [Hnd Hlt].
  destruct (remove_loop_runs (sorted_desc rows) st) as (st1 & Hrun & Hs & Hi & Hw & _).
  { by apply sorted_desc_below. }
  exists st1. repeat split; try done.
  unfold remove_selected. rewrite exec_bind, Hrun.
  by rewrite exec_bind.
Qed.

Lemma lookup_foldl_delete (m : gmap nat DownloadWorker) rows k :
  foldl (fun m row => delete row m) m rows !! k
  = if bool_decide (k ∈ rows) then None else m !! k.
Proof.
  revert m. induction rows as [|row rows IH]; intros m; cbn.
  { by rewrite bool_decide_eq_false_2 by apply not_elem_of_nil. }
  rewrite IH. destruct (decide (k = row)) as [->|Hne].
  - rewrite lookup_delete_eq.
    rewrite (bool_decide_eq_true_2 (row ∈ row :: rows)) by left.
    by destruct (bool_decide _).
  - rewrite lookup_delete_ne by done.
    rewrite (bool_decide_ext (k ∈ row :: rows) (k ∈ rows)); [done|].
    rewrite elem_of_cons. tauto.
Qed.

(** What [remove_selected] does to the collection and the dictionary:
    the rows are gone, the other items stay in their order with
    [index] the new row, and the workers of the other rows stay under
    the keys they had. *)
Lemma remove_selected_effect rows st :
  well_formed st -> selection st rows ->
  let st' := step st (RemoveSelected rows) in
  well_formed st' /\
  items st' `sublist_of` items st /\
  (forall r, r ∈ items st'
             <-> exists p, items st !! p = Some r /\ p ∉ rows) /\
  (forall k, workers st' !! k
             = if bool_decide (k ∈ rows) then None else workers st !! k).
Proof.
  intros [Hnd Hvalid Hindex] Hsel. cbn zeta. unfold step. cbn [handler].
  destruct (exec_remove_selected rows st Hsel)
    as (st1 & _ & -> & Hstore & Hitems & Hworkers).
  assert (items st1 `sublist_of` items st) as Hsub
    by (rewrite Hitems; apply foldl_delete_sublist).
  assert (well_formed (exec reindex st1)) as Hwf.
  { apply reindex_well_formed.
    - by eapply sublist_NoDup.
    - intros r Hr. rewrite Hstore. apply Hvalid. by eapply elem_of_sublist. }
  split; [revert Hwf; by apply well_formed_ext|].
  split; [done|]. split.
  - intros r. change (r ∈ items st1 <-> exists p, items st !! p = Some r /\ p ∉ rows).
    rewrite Hitems.
    rewrite (elem_of_foldl_delete _ (length (items st))).
    + by setoid_rewrite elem_of_sorted_desc.
    + destruct Hsel. by apply sorted_desc_below.
  - intros k. change (workers st1 !! k
                      = if bool_decide (k ∈ rows) then None else workers st !! k).
    rewrite Hworkers, lookup_foldl_delete.
    rewrite (bool_decide_ext (k ∈ sorted_desc rows) (k ∈ rows)); [done|].
    apply elem_of_sorted_desc.
Qed.

Lemma clear_finished_well_formed st :
  well_formed st -> well_formed (exec clear_finished st).
Proof.
  intros [Hnd Hvalid Hindex]. unfold clear_finished.
  rewrite exec_bind. cbn. rewrite exec_bind. cbn. rewrite exec_bind. cbn.
  apply (well_formed_ext (exec reindex (with_items (fun _ =>
           List.filter (fun r => match status_of st r with
                                 | Some s => negb (terminal s)
                                 | None => true
                                 end) (items st)) st))); try done.
  apply reindex_well_formed; cbn.
  - by apply NoDup_filter.
  - intros r [Hr _]%elem_of_filter. by apply Hvalid.
Qed.

Lemma on_status_well_formed idx s st :
  well_formed st -> well_formed (exec (on_status idx s) st).
Proof.
  unfold exec, on_status, mbind, M_bind, bind, item_at, update_object, modify.
  destruct (items st !! idx); cbn; [|done].
  apply well_formed_ext; cbn; [done | apply length_alter |].
  intros r'. by apply index_alter_keep.
Qed.

Lemma on_progress_well_formed idx dl total st :
  well_formed st -> well_formed (exec (on_progress idx dl total) st).
Proof.
  unfold exec, on_progress, mbind, M_bind, bind, item_at, update_object, modify.
  destruct (items st !! idx); cbn; [|done].
  destruct (0 <? total); cbn;
    (apply well_formed_ext; cbn;
     [done | by rewrite ?length_alter
     | intros r'; by rewrite ?index_alter_keep]).
Qed.

Lemma add_item_well_formed u st :
  well_formed st -> well_formed (exec (_add_item u) st).
Proof.
  intros [Hnd Hvalid Hindex].
  unfold exec, _add_item, modify. cbn. split; cbn.
  - apply NoDup_app. split; [done|]. split; [|apply NoDup_singleton].
    intros r Hr ->%list_elem_of_singleton. apply Hvalid in Hr. lia.
  - intros r [Hr| ->%list_elem_of_singleton]%elem_of_app;
      rewrite length_app; cbn; [apply Hvalid in Hr|]; lia.
  - intros p r Hp. unfold display_index. cbn.
    apply lookup_app_Some in Hp as [Hp|[Hlen Hp]].
    + rewrite lookup_app_l by (by eapply Hvalid, list_elem_of_lookup_2).
      by apply Hindex.
    + apply list_lookup_singleton_Some in Hp as [Hp <-].
      rewrite lookup_app_r, Nat.sub_diag by done. cbn. f_equal. lia.
Qed.

Lemma step_well_formed st op :
  well_formed st -> well_selected st op -> well_formed (step st op).
Proof.
  intros Hwf Hsel. unfold step.
  destruct op; cbn [handler well_selected] in *.
  - by apply add_item_well_formed.
  - unfold start_queue. rewrite exec_bind. cbn. apply pump_well_formed.
    revert Hwf. by apply well_formed_ext.
  - unfold pause_selected. rewrite exec_bind.
    pose proof (for_selected_well_formed request_pause Paused rows st Hwf) as H.
    destruct (for_selected _ _ _ st) as [[[]|e] st']; cbn in H; [|done].
    revert H. by apply well_formed_ext.
  - unfold resume_selected. rewrite exec_bind.
    pose proof (for_selected_well_formed request_resume Downloading rows st Hwf)
      as H.
    destruct (for_selected _ _ _ st) as [[[]|e] st']; cbn in H; [|done].
    by apply pump_well_formed.
  - unfold cancel_selected. rewrite exec_bind.
    pose proof (for_selected_well_formed request_cancel Canceled rows st Hwf)
      as H.
    destruct (for_selected _ _ _ st) as [[[]|e] st']; cbn in H; [|done].
    revert H. by apply well_formed_ext.
  - by apply (remove_selected_effect rows st).
  - rewrite exec_bind. cbn. unfold _update_concurrency. rewrite exec_bind. cbn.
    apply pump_well_formed. revert Hwf. by apply well_formed_ext.
  - by apply clear_finished_well_formed.
  - by apply on_progress_well_formed.
  - by apply on_status_well_formed.
  - revert Hwf. by apply well_formed_ext.
  - revert Hwf. apply well_formed_ext;
      unfold exec, on_finished, mbind, M_bind, bind, gets; cbn;
      by destruct (all_terminal st), (chk_extract st).
  - revert Hwf. by apply well_formed_ext.
Qed.

(** Whatever the user does and the workers signal, the collection
    stays well formed. *)
Lemma reachable_well_formed st : reachable st -> well_formed st.
Proof.
  induction 1 as [|st op _ IH Hsel].
  - split; cbn; [constructor | by intros r ?%elem_of_nil | done].
  - by apply step_well_formed.
Qed.

(** *** What the operations preserve *)

Lemma index_alter_status (h : list DownloadItem) s (r r' : nat) :
  index <$> alter (set_status s) r h !! r' = index <$> h !! r'.
Proof.
  destruct (decide (r = r')) as [->|Hne].
  - rewrite list_lookup_alter_eq. by destruct (h !! r').
  - by rewrite list_lookup_alter_ne.
Qed.

(** Every [Downloading] item is counted by [active]. *)
Lemma downloading_le_active st :
  in_step st -> (downloading st <= active st)%nat.
Proof.
  intros [Hkeyed Hcovered]. unfold downloading, active.
  apply (filter_length_le_map _ _ _ 0%nat). intros i r Hi Hr. cbn.
  apply bool_decide_eq_true in Hr.
  destruct (Hcovered i r Hi Hr) as [w Hw]. exists w. split; [done|].
  apply bool_decide_eq_true. cbn.
  apply Hkeyed in Hw. by replace (item w) with r by congruence.
Qed.

Lemma promote_in_step st r it :
  well_formed st -> in_step st ->
  r ∈ items st -> store st !! r = Some it ->
  in_step (snd (promote r it st)).
Proof.
  intros [Hnd Hvalid Hindex] [Hkeyed Hcovered] Hr Hit.
  apply list_elem_of_lookup in Hr as [p Hp].
  assert (index it = p) as Hrow.
  { specialize (Hindex p r Hp). unfold display_index in Hindex.
    rewrite Hit in Hindex. by injection Hindex. }
  rewrite promote_run. cbn zeta. rewrite Hrow.
  destruct (deleted _); cbn [snd]; split; cbn.
  all: try (intros k w; destruct (decide (p = k)) as [<-|Hne];
            [ rewrite lookup_insert_eq; intros [= <-]; cbn;
              destruct (workers st !! p) as [w0|] eqn:Hw0; [|done];
              by apply Hkeyed
            | rewrite lookup_insert_ne by done; apply Hkeyed ]).
  all: intros q r' Hq; destruct (decide (p = q)) as [<-|Hne];
    [ intros _; by rewrite lookup_insert_eq |];
    rewrite lookup_insert_ne by done; unfold status_of; cbn;
    rewrite list_lookup_alter_ne; [by apply Hcovered|];
    intros ->; apply Hne; by eapply NoDup_lookup.
Qed.

Lemma pump_loop_sound its slots st :
  (forall r, r ∈ its -> r ∈ items st) ->
  well_formed st -> in_step st ->
  well_formed (snd (pump_loop its slots st)) /\
  in_step (snd (pump_loop its slots st)).
Proof.
  intros Hin Hwf Hstep.
  enough (items (snd (pump_loop its slots st)) = items st /\
          well_formed (snd (pump_loop its slots st)) /\
          in_step (snd (pump_loop its slots st))) as (_ & ? & ?) by done.
  apply (pump_loop_keeps (fun st' => items st' = items st /\
                                     well_formed st' /\ in_step st'));
    [|done].
  intros r it st' Hr Hit (Hitems & Hwf' & Hstep').
  split; [|split].
  - destruct (promote_frame r it st') as (-> & _). done.
  - by apply promote_well_formed.
  - apply promote_in_step; try done. rewrite Hitems. by apply Hin.
Qed.

Lemma pump_sound st :
  well_formed st -> in_step st ->
  well_formed (exec _pump_queue st) /\ in_step (exec _pump_queue st).
Proof.
  intros Hwf Hstep.
  apply (pump_keeps (fun st' => well_formed st' /\ in_step st')); [|done|].
  - intros st' [Hwf' [Hk Hc]]. split; [|split]; try done.
    revert Hwf'. by apply well_formed_ext.
  - by apply pump_loop_sound.
Qed.

(** A pump cycle on a collection in step with its dictionary fills
    at most the free slots. *)
Lemma pump_within_ceiling st :
  well_formed st -> in_step st -> within_ceiling st ->
  within_ceiling (exec _pump_queue st).
Proof.
  intros Hwf Hstep Hbound. pose proof (wf_nodup _ Hwf) as Hnd.
  pose proof (downloading_le_active _ Hstep) as Hactive.
  unfold within_ceiling in *.
  destruct (pump_frame st) as (Hitems & -> & _).
  destruct (pump_lookup st Hnd) as (n & Hn & _ & Hlook).
  assert (downloading (exec _pump_queue st)
          <= downloading st + length (take n (eligibles st)))%nat
    as Hgrow.
  { unfold downloading. rewrite Hitems.
    etrans; [|etrans; [apply (filter_or_length
                (fun r => bool_decide (status_of st r = Some Downloading))
                (fun r => bool_decide (r ∈ take n (eligibles st))))|]].
    - apply filter_length_mono. intros r _ Hr.
      apply bool_decide_eq_true in Hr. unfold status_of in Hr.
      rewrite Hlook in Hr.
      destruct (bool_decide (r ∈ _)); [by rewrite orb_true_r|].
      rewrite orb_false_r. by apply bool_decide_eq_true.
    - apply Nat.add_le_mono_l. by apply filter_member_length. }
  rewrite length_take in Hgrow. unfold free_slots in Hn. lia.
Qed.

(** Steadiness does not look at the widgets or at what was emitted. *)
Lemma steady_ext st st' :
  store st' = store st -> items st' = items st ->
  workers st' = workers st ->
  max_concurrency st' = max_concurrency st ->
  concurrency st' = concurrency st ->
  steady st -> steady st'.
Proof.
  intros Hstore Hitems Hworkers Hmax Hspin [[Hnd Hvalid Hindex] [Hk Hc] Hb Hs].
  split; [split|split|..].
  - by rewrite Hitems.
  - rewrite Hitems, Hstore. apply Hvalid.
  - rewrite Hitems. unfold display_index. rewrite Hstore. apply Hindex.
  - rewrite Hitems, Hworkers. apply Hk.
  - rewrite Hitems, Hworkers. unfold status_of. rewrite Hstore. apply Hc.
  - unfold within_ceiling, downloading, status_of in *.
    by rewrite Hitems, Hstore, Hmax.
  - by rewrite Hmax, Hspin.
Qed.

Lemma update_overall_steady st : steady st -> steady (exec _update_overall st).
Proof. by apply steady_ext. Qed.

(** Nor at the fields of an object other than [status] and [index]. *)
Lemma alter_steady (f : DownloadItem -> DownloadItem) r st :
  (forall it, store st !! r = Some it ->
              index (f it) = index it /\ status (f it) = status it) ->
  steady st -> steady (with_store (alter f r) st).
Proof.
  intros Hf [[Hnd Hvalid Hindex] [Hk Hc] Hb Hs].
  assert (forall r', status <$> alter f r (store st) !! r'
                     = status <$> store st !! r') as Hsame.
  { intros r'. destruct (decide (r = r')) as [->|Hne].
    - rewrite list_lookup_alter_eq.
      destruct (store st !! r') as [it|]; cbn; [|done].
      by destruct (Hf it) as [_ ->].
    - by rewrite list_lookup_alter_ne. }
  assert (forall r', index <$> alter f r (store st) !! r'
                     = index <$> store st !! r') as Hsame'.
  { intros r'. destruct (decide (r = r')) as [->|Hne].
    - rewrite list_lookup_alter_eq.
      destruct (store st !! r') as [it|]; cbn; [|done].
      by destruct (Hf it) as [-> _].
    - by rewrite list_lookup_alter_ne. }
  split; [split|split|..]; cbn; try done.
  - intros r' Hr'. rewrite length_alter. by apply Hvalid.
  - intros p r' Hp. unfold display_index. cbn.
    rewrite Hsame'. by apply Hindex.
  - intros p r' Hp. unfold status_of. cbn. rewrite Hsame. by apply Hc.
  - unfold within_ceiling, downloading, status_of in *. cbn.
    rewrite (List.filter_ext _
               (fun r' => bool_decide (status <$> store st !! r' = Some Downloading)));
      [done|].
    intros r'. by rewrite Hsame.
Qed.

(** A status other than [Downloading] written to an object. *)
Lemma set_status_steady s r st :
  s <> Downloading -> steady st ->
  steady (with_store (alter (set_status s) r) st).
Proof.
  intros Hs [[Hnd Hvalid Hindex] [Hk Hc] Hb Hspin].
  assert (forall r', status <$> alter (set_status s) r (store st) !! r'
                     = Some Downloading ->
                     status <$> store st !! r' = Some Downloading) as Hwas.
  { intros r' Hd. destruct (decide (r = r')) as [->|Hne].
    - rewrite list_lookup_alter_eq in Hd.
      destruct (store st !! r'); cbn in Hd; congruence.
    - by rewrite list_lookup_alter_ne in Hd. }
  split; [split|split|..]; cbn; try done.
  - intros r' Hr'. rewrite length_alter. by apply Hvalid.
  - intros p r' Hp. unfold display_index. cbn.
    rewrite index_alter_status. by apply Hindex.
  - intros p r' Hp Hd. apply (Hc p r' Hp). by apply Hwas.
  - unfold within_ceiling, downloading, status_of in *. cbn.
    etrans; [|exact Hb]. apply inj_le, filter_length_mono.
    intros r' _ Hd%bool_decide_eq_true. apply bool_decide_eq_true.
    by apply Hwas.
Qed.

(** A status report: of a status other than [Downloading], or of
    [Downloading] for a row that is [Downloading]. *)
Lemma on_status_steady idx s st :
  steady st -> keeps_ceiling st (StatusEvent idx s) = true ->
  steady (exec (on_status idx s) st).
Proof.
  intros Hst Hop.
  unfold exec, on_status, mbind, M_bind, bind, item_at, update_object, modify.
  cbn in Hop. destruct (items st !! idx) as [r|]; cbn; [|done].
  apply update_overall_steady.
  destruct (decide (s = Downloading)) as [->|Hs].
  - cbn in Hop. apply bool_decide_eq_true in Hop.
    apply alter_steady; [|done]. intros it Hit. unfold status_of in Hop.
    rewrite Hit in Hop. cbn in *. split; congruence.
  - by apply set_status_steady.
Qed.

Lemma on_progress_steady idx dl total st :
  steady st -> steady (exec (on_progress idx dl total) st).
Proof.
  intros Hst.
  unfold exec, on_progress, mbind, M_bind, bind, item_at, update_object, modify.
  destruct (items st !! idx) as [r|]; cbn; [|done].
  destruct (0 <? total); cbn; apply update_overall_steady;
    repeat (apply alter_steady; [done|]); done.
Qed.

Lemma on_finished_steady idx path st :
  steady st -> steady (exec (on_finished idx path) st).
Proof.
  apply steady_ext;
    unfold exec, on_finished, mbind, M_bind, bind, gets; cbn;
    by destruct (all_terminal st), (chk_extract st).
Qed.

(** The pool deleting a runnable: the dictionary keeps its keys and
    each worker its item. *)
Lemma run_returned_steady key st :
  steady st -> steady (with_workers (alter delete_runnable key) st).
Proof.
  intros [[Hnd Hvalid Hindex] [Hk Hc] Hb Hspin].
  split; [split|split|..]; cbn; try done.
  - intros k w. destruct (decide (key = k)) as [<-|Hne].
    + rewrite lookup_alter_eq.
      destruct (workers st !! key) as [w0|] eqn:Hw0; cbn; [|done].
      intros [= <-]. exact (Hk _ _ Hw0).
    + rewrite lookup_alter_ne by done. apply Hk.
  - intros p r Hp Hd. apply lookup_alter_is_Some. by apply (Hc p r).
Qed.

(** [_add_item] *)
Lemma add_item_steady u st : steady st -> steady (exec (_add_item u) st).
Proof.
  intros [Hwf [Hkeyed Hcovered] Hbound Hspin].
  pose proof (add_item_well_formed u st Hwf) as Hwf'.
  destruct Hwf as [Hnd Hvalid Hindex].
  assert (forall r, r ∈ items st ->
            (store st ++ [mkItem u None 0 Queued None (length (items st))]) !! r
            = store st !! r) as Hold.
  { intros r Hr. apply lookup_app_l. by apply Hvalid. }
  split; [done|split|..]; unfold exec, _add_item, modify; cbn.
  - intros k w Hw. apply lookup_app_l_Some. by apply Hkeyed.
  - intros p r Hp. unfold status_of. cbn.
    apply lookup_app_Some in Hp as [Hp|[Hlen Hp]].
    + rewrite Hold by (by eapply list_elem_of_lookup_2). by apply Hcovered.
    + apply list_lookup_singleton_Some in Hp as [Hp <-].
      by rewrite lookup_app_r, Nat.sub_diag.
  - unfold within_ceiling, downloading, status_of in *. cbn.
    rewrite List.filter_app, length_app. cbn.
    rewrite lookup_app_r, Nat.sub_diag by done. cbn.
    rewrite (List.filter_ext_in _
               (fun r => bool_decide (status <$> store st !! r = Some Downloading))).
    + rewrite bool_decide_eq_false_2 by done. cbn. lia.
    + intros r Hr%list_elem_of_In. by rewrite Hold.
  - done.
Qed.

(** Pausing and cancelling: the request goes to the worker of the row
    and the status of the row leaves [Downloading] or stays out of it. *)
Lemma for_selected_steady request s rows st :
  (forall w, item (request w) = item w) -> s <> Downloading ->
  steady st -> steady (snd (for_selected request s rows st)).
Proof.
  intros Hitem Hs. unfold for_selected. apply for_each_keeps. clear st.
  intros row st [[Hnd Hvalid Hindex] [Hkeyed Hcovered] Hbound Hspin].
  unfold mbind, M_bind, bind, gets, modify, item_at, update_object. cbn.
  destruct (workers st !! row) as [w|] eqn:Hw; cbn; [|done].
  pose proof (Hkeyed row w Hw) as Hrow. rewrite Hrow. cbn.
  split; [split|split|..]; cbn.
  - done.
  - intros r Hr. rewrite length_alter. by apply Hvalid.
  - intros p r Hp. unfold display_index. cbn.
    rewrite index_alter_status. by apply Hindex.
  - intros k w'. destruct (decide (row = k)) as [<-|Hne].
    + rewrite lookup_insert_eq. intros [= <-]. by rewrite Hitem.
    + rewrite lookup_insert_ne by done. apply Hkeyed.
  - intros p r Hp. unfold status_of. cbn. intros Hd.
    apply lookup_insert_is_Some'. right. apply (Hcovered p r Hp).
    destruct (decide (item w = r)) as [<-|Hne].
    + rewrite list_lookup_alter_eq in Hd.
      destruct (store st !! item w); cbn in Hd; congruence.
    + by rewrite list_lookup_alter_ne in Hd.
  - unfold within_ceiling, downloading, status_of in *. cbn.
    etrans; [|exact Hbound]. apply inj_le, filter_length_mono.
    intros r _ Hd%bool_decide_eq_true. apply bool_decide_eq_true.
    destruct (decide (item w = r)) as [<-|Hne].
    + rewrite list_lookup_alter_eq in Hd.
      destruct (store st !! item w); cbn in Hd; congruence.
    + by rewrite list_lookup_alter_ne in Hd.
  - done.
Qed.

(** The pump keeps a steady state steady. *)
Lemma pump_steady st : steady st -> steady (exec _pump_queue st).
Proof.
  intros [Hwf Hstep Hbound Hspin].
  destruct (pump_sound st Hwf Hstep) as [Hwf' Hstep'].
  split; try done.
  - by apply pump_within_ceiling.
  - destruct (pump_frame st) as (_ & -> & -> & _). done.
Qed.

(** Setting the ceiling to a value the running items fit under. *)
Lemma set_ceiling_steady v st :
  steady st -> Z.of_nat (downloading st) <= v ->
  steady (with_max_concurrency v (with_concurrency v st)).
Proof.
  intros [[Hnd Hvalid Hindex] [Hkeyed Hcovered] Hbound Hspin] Hv.
  split; [split|split|..]; done.
Qed.

(** Every operation of the restricted session keeps the state steady. *)
Lemma step_steady st op :
  steady st -> keeps_ceiling st op = true -> steady (step st op).
Proof.
  intros Hst Hop. unfold step. destruct op; try discriminate; cbn [handler].
  - by apply add_item_steady.
  - unfold start_queue. rewrite exec_bind. cbn. apply pump_steady.
    destruct Hst as [[Hnd Hvalid Hindex] [Hkeyed Hcovered] Hbound Hspin].
    split; [split|split|..]; try done.
    unfold within_ceiling in *. cbn. by rewrite Hspin.
  - unfold pause_selected. rewrite exec_bind.
    pose proof (for_selected_steady request_pause Paused rows st) as Hloop.
    destruct (for_selected _ _ _ st) as [[[]|e] st']; cbn in Hloop.
    + apply update_overall_steady. by apply Hloop.
    + by apply Hloop.
  - unfold cancel_selected. rewrite exec_bind.
    pose proof (for_selected_steady request_cancel Canceled rows st) as Hloop.
    destruct (for_selected _ _ _ st) as [[[]|e] st']; cbn in Hloop.
    + apply update_overall_steady. by apply Hloop.
    + by apply Hloop.
  - cbn in Hop. apply Z.leb_le in Hop.
    rewrite exec_bind. cbn. unfold _update_concurrency. rewrite exec_bind. cbn.
    apply pump_steady. by apply set_ceiling_steady.
  - by apply on_progress_steady.
  - by apply on_status_steady.
  - by apply update_overall_steady.
  - by apply on_finished_steady.
  - by apply run_returned_steady.
Qed.

Lemma init_steady : steady init.
Proof.
  split; [split|split|..]; cbn; try done.
  - constructor.
  - intros r Hr. by apply not_elem_of_nil in Hr.
Qed.

Lemma visited_within_ceiling ops st :
  steady st -> admissible ops st = true ->
  Forall within_ceiling (visited ops st).
Proof.
  revert st. induction ops as [|op ops IH]; intros st Hst Hops.
  - constructor; [apply Hst | constructor].
  - cbn in Hops. apply andb_true_iff in Hops as [Hop Hops].
    cbn. constructor; [apply Hst|]. apply IH; [|done]. by apply step_steady.
Qed.

(** C1 (as amended).  In a session of add, start, pause, cancel and
    ceiling-change operations, with the progress, status, error and
    finished reports of the workers and the return of their [run] in
    between, in which no ceiling change sets the ceiling below the
    number of items that are [Downloading] at that moment and no
    report of [Downloading] arrives for a row that has left
    [Downloading], the number of [Downloading] items is at most the
    ceiling in every state the session goes through. *)
Theorem ceiling_kept ops :
  admissible ops init = true ->
  Forall within_ceiling (visited ops init).
Proof. apply visited_within_ceiling, init_steady. Qed.

Lemma replay_steady ops :
  admissible ops init = true -> steady (replay ops init).
Proof.
  assert (forall st, steady st -> admissible ops st = true ->
                     steady (replay ops st)) as Hgen.
  { induction ops as [|op ops IH]; intros st Hst Hops; [done|].
    cbn in Hops. apply andb_true_iff in Hops as [Hop Hops].
    apply (IH (step st op)); [by apply step_steady | done]. }
  intros Hops. apply Hgen; [apply init_steady | done].
Qed.

(** The order of admission on four parts under a ceiling of 2: parts 0
    and 1 start; once part 0 is done the next pump cycle starts part 2,
    not part 3. *)
Example admission_order_of_four :
  let st := step four_queued (SetCeiling 2) in
  let st' := replay [StatusEvent 0 Done; FinishedEvent 0 "game.part1.rar";
                  Start] st in
  statuses st = [Downloading; Downloading; Queued; Queued] /\
  statuses st' = [Done; Downloading; Downloading; Queued].
Proof. vm_compute. done. Qed.

(** C5 (fails on the code).  Two pump cycles that leave a slot idle
    while an eligible item waits.  In the first session part a is
    removed while part b runs, and the worker of b stays filed under
    the row b had; b fails and is started again, with a second worker
    under its new row; part c is added.  The cycle of the ceiling
    change to 2 counts both workers of b as active, finds no slot
    free with one part [Downloading], and leaves c [Queued].  In the
    second session part a has failed and its [run] has returned.  The
    cycle of the ceiling change to 2 marks a [Downloading], the thread
    pool refuses the deleted runnable, and the cycle ends there: no
    thread is started and part b stays [Queued]. *)
Theorem pump_leaves_eligible_item_waiting :
  let stale := replay [AddUrl "a"; AddUrl "b"; Start; RemoveSelected [0%nat];
                       StatusEvent 0 Error; Start; AddUrl "c"] init in
  let returned := replay [AddUrl "a"; AddUrl "b"; SetCeiling 1; Start;
                          StatusEvent 0 Error; RunReturned 0] init in
  (statuses stale = [Downloading; Queued] /\
   item <$> workers stale = {[ 0%nat := 1%nat; 1%nat := 1%nat ]} /\
   fst (handler (SetCeiling 2) stale) = Ret tt /\
   max_concurrency (step stale (SetCeiling 2)) = 2 /\
   active (step stale (SetCeiling 2)) = 2%nat /\
   downloading (step stale (SetCeiling 2)) = 1%nat /\
   statuses (step stale (SetCeiling 2)) = [Downloading; Queued] /\
   length (eligibles (step stale (SetCeiling 2))) = 1%nat) /\
  (statuses returned = [Error; Queued] /\
   length (eligibles returned) = 2%nat /\
   fst (handler (SetCeiling 2) returned) = Raise RuntimeError /\
   max_concurrency (step returned (SetCeiling 2)) = 2 /\
   statuses (step returned (SetCeiling 2)) = [Downloading; Queued] /\
   effects (step returned (SetCeiling 2)) = effects returned /\
   length (eligibles (step returned (SetCeiling 2))) = 1%nat).
Proof. cbn zeta. repeat split; by vm_compute. Qed.

(** The pump runs when the queue is started, a row is resumed or the
    ceiling changes; a part that finishes does not run it, and the slot
    stays free until one of those happens. *)
Example finished_part_does_not_pump :
  let st := replay [StatusEvent 0 Done; FinishedEvent 0 "game.part1.rar"]
              (step four_queued (SetCeiling 2)) in
  statuses st = [Done; Downloading; Queued; Queued].
Proof. vm_compute. done. Qed.

Lemma ceiling_kept_witness :
  Forall within_ceiling
    (visited [AddUrl "a"; AddUrl "b"; AddUrl "c"; AddUrl "d"; Start;
              StatusEvent 0 Downloading; ProgressEvent 0 10 100;
              PauseSelected [1%nat]; StatusEvent 1 Paused; SetCeiling 2;
              StatusEvent 2 Error; ErrorEvent 2 "reset"; RunReturned 2;
              CancelSelected [0%nat]; StatusEvent 0 Canceled; RunReturned 0;
              StatusEvent 3 Done; FinishedEvent 3 "d"; SetCeiling 4] init).
Proof.
  apply (ceiling_kept
           [AddUrl "a"; AddUrl "b"; AddUrl "c"; AddUrl "d"; Start;
            StatusEvent 0 Downloading; ProgressEvent 0 10 100;
            PauseSelected [1%nat]; StatusEvent 1 Paused; SetCeiling 2;
            StatusEvent 2 Error; ErrorEvent 2 "reset"; RunReturned 2;
            CancelSelected [0%nat]; StatusEvent 0 Canceled; RunReturned 0;
            StatusEvent 3 Done; FinishedEvent 3 "d"; SetCeiling 4]).
  vm_compute. reflexivity.
Defined.

(** C1 (as stated, refuted).  Two parts run under the ceiling of 3; the
    ceiling is then set to 1 and both keep the status [Downloading]. *)
Lemma ceiling_exceeded_after_lowering :
  let st := replay [AddUrl "a"; AddUrl "b"; Start; SetCeiling 1] init in
  downloading st = 2%nat /\ max_concurrency st = 1 /\ ~ within_ceiling st.
Proof. vm_compute. repeat split; try done. Qed.

(** A report of [Downloading] that the worker of a row sent before the
    row was paused is handled after the pause: the row reads
    [Downloading] again, next to the one that runs under the ceiling
    of 1. *)
Example ceiling_exceeded_by_late_report :
  let ops := [AddUrl "a"; AddUrl "b"; Start; PauseSelected [1%nat];
              SetCeiling 1] in
  admissible ops init = true /\
  downloading (replay ops init) = 1%nat /\
  downloading (replay (ops ++ [StatusEvent 1 Downloading]) init) = 2%nat /\
  max_concurrency (replay (ops ++ [StatusEvent 1 Downloading]) init) = 1.
Proof. vm_compute. done. Qed.

(** The ceiling is also exceeded without ever being lowered below the
    running count: [resume_selected] marks the row [Downloading]
    whatever the ceiling. *)
Example ceiling_exceeded_by_resume :
  let ops := [AddUrl "a"; AddUrl "b"; Start; PauseSelected [0%nat; 1%nat];
              SetCeiling 1; ResumeSelected [1%nat]] in
  downloading (replay (removelast ops) init) = 1%nat /\
  downloading (replay ops init) = 2%nat /\
  max_concurrency (replay ops init) = 1.
Proof. vm_compute. done. Qed.

(** And by a removal: the worker of a running part is dropped from the
    dictionary with a row that is not its own, the pump no longer
    counts the part, and admits one part too many. *)
Example ceiling_exceeded_after_remove :
  let ops := [SetCeiling 2; AddUrl "a"; AddUrl "b"; Start;
              RemoveSelected [0%nat]; AddUrl "c"; RemoveSelected [1%nat];
              AddUrl "d"; AddUrl "e"; Start] in
  downloading (replay ops init) = 3%nat /\ max_concurrency (replay ops init) = 2.
Proof. vm_compute. done. Qed.

(** *** Rows and indexes *)

Lemma omap_total {A B} (f : A -> option B) (l : list A) :
  Forall (fun x => is_Some (f x)) l -> Some <$> omap f l = f <$> l.
Proof.
  induction 1 as [|x l [y Hy] _ IH]; [done|].
  cbn. rewrite Hy. cbn. by rewrite IH.
Qed.

Lemma fmap_Some_inj {A} (l k : list A) : Some <$> l = Some <$> k -> l = k.
Proof.
  revert k. induction l as [|x l IH]; intros [|y k]; try done.
  cbn. intros [= -> Heq]. f_equal. by apply IH.
Qed.

Lemma well_formed_total st :
  well_formed st ->
  Forall (fun r => is_Some (store st !! r)) (items st).
Proof.
  intros [_ Hvalid _]. apply Forall_forall. intros r Hr.
  by apply lookup_lt_is_Some_2, Hvalid.
Qed.

Lemma item_objects_lookup st :
  well_formed st ->
  Some <$> item_objects st = (fun r => store st !! r) <$> items st.
Proof. intros Hwf. by apply omap_total, well_formed_total. Qed.

(** X10.  Whatever the user does and the workers signal, each object
    is in the collection once, every row has its object, and
    [items[k].index] is [k] for every row [k]. *)
Theorem index_is_the_row st :
  reachable st ->
  NoDup (items st) /\
  length (item_objects st) = length (items st) /\
  index <$> item_objects st = seq 0 (length (items st)).
Proof.
  intros Hwf%reachable_well_formed.
  pose proof (item_objects_lookup st Hwf) as Hobjs.
  split; [by destruct Hwf|]. split.
  - apply (f_equal length) in Hobjs. by rewrite !length_fmap in Hobjs.
  - apply fmap_Some_inj. rewrite <- (display_rows st Hwf).
    unfold display_index. rewrite <- list_fmap_compose.
    apply (f_equal (fmap (fmap index))) in Hobjs.
    rewrite <- !list_fmap_compose in Hobjs. exact Hobjs.
Qed.

Lemma index_is_the_row_witness :
  index <$> item_objects (replay [RemoveSelected [0%nat]] four_queued)
  = seq 0 (length (items (replay [RemoveSelected [0%nat]] four_queued))).
Proof.
  apply index_is_the_row.
  apply (reachable_step four_queued (RemoveSelected [0%nat])).
  - repeat (apply (reachable_step _ (AddUrl _)); [|exact I]).
    apply reachable_init.
  - split; [apply NoDup_singleton|].
    intros row ->%list_elem_of_singleton. cbn. lia.
Defined.

(** *** Removing rows *)

Lemma length_insert_desc x l : length (insert_desc x l) = S (length l).
Proof.
  induction l as [|y l IH]; [done|]. cbn.
  destruct (y <=? x)%nat; cbn; by rewrite ?IH.
Qed.

Lemma length_sorted_desc l : length (sorted_desc l) = length l.
Proof.
  induction l as [|x l IH]; [done|]. cbn.
  rewrite length_insert_desc. unfold sorted_desc in IH. by rewrite IH.
Qed.

Lemma length_foldl_delete {A} (l : list A) rows :
  descending_below (length l) rows ->
  length (foldl (fun l row => delete row l) l rows)
  = (length l - length rows)%nat.
Proof.
  revert l. induction rows as [|row rows IH]; intros l Hrows.
  { cbn. lia. }
  destruct Hrows as [Hrow Hrows]. cbn.
  assert (length (delete row l) = (length l - 1)%nat) as Hlen
    by (apply length_delete; by apply lookup_lt_is_Some_2).
  rewrite IH.
  - rewrite Hlen. lia.
  - eapply descending_below_weaken; [|done]. lia.
Qed.

Lemma reindex_from_content o its (h : list DownloadItem) (r : nat) :
  content <$> reindex_from o its h !! r = content <$> h !! r.
Proof.
  revert o h. induction its as [|r0 its IH]; intros o h; [done|].
  cbn. rewrite IH. destruct (decide (r0 = r)) as [->|Hne].
  - rewrite list_lookup_alter_eq. by destruct (h !! r).
  - by rewrite list_lookup_alter_ne.
Qed.

(** X11.  [remove_selected] on a selection of rows does not raise; it
    takes exactly the selected rows out of the collection and keeps
    the others in their order, [index] again the row; apart from
    [index] no object changes. *)
Theorem remove_selected_removes_the_rows rows st :
  well_formed st -> selection st rows ->
  let st' := step st (RemoveSelected rows) in
  fst (remove_selected rows st) = Ret tt /\
  well_formed st' /\
  items st' `sublist_of` items st /\
  (forall r, r ∈ items st'
             <-> exists p, items st !! p = Some r /\ p ∉ rows) /\
  length (items st') = (length (items st) - length rows)%nat /\
  forall r : nat, content <$> store st' !! r = content <$> store st !! r.
Proof.
  intros Hwf Hsel.
  destruct (remove_selected_effect rows st Hwf Hsel)
    as (Hwf' & Hsub & Hmem & _).
  destruct (exec_remove_selected rows st Hsel)
    as (st1 & Hrun & Hexec & Hstore & Hitems & _).
  cbn zeta. split.
  { unfold remove_selected, mbind, M_bind, bind. by rewrite Hrun. }
  split; [done|]. split; [done|]. split; [done|].
  unfold step. cbn [handler]. rewrite Hexec. split.
  - change (length (items st1) = (length (items st) - length rows)%nat).
    rewrite Hitems, length_foldl_delete, length_sorted_desc; [done|].
    destruct Hsel. by apply sorted_desc_below.
  - intros r. unfold exec, reindex, _update_overall, modify. cbn.
    by rewrite reindex_from_content, Hstore.
Qed.

Lemma remove_selected_removes_the_rows_witness :
  length (items (step four_queued (RemoveSelected [2%nat; 0%nat])))
  = (length (items four_queued) - length [2%nat; 0%nat])%nat.
Proof.
  apply (remove_selected_removes_the_rows [2%nat; 0%nat] four_queued).
  - apply reachable_well_formed.
    repeat (apply (reachable_step _ (AddUrl _)); [|exact I]).
    apply reachable_init.
  - split.
    + apply NoDup_cons. split; [|apply NoDup_singleton].
      by intros [=]%list_elem_of_singleton.
    + intros row [->|[->|[]%elem_of_nil]%elem_of_cons]%elem_of_cons;
        cbn; lia.
Defined.

(** *** Clearing the finished rows *)

Lemma fmap_omap {A B C} (g : B -> C) (f : A -> option B) (l : list A) :
  g <$> omap f l = omap (fun x => g <$> f x) l.
Proof.
  induction l as [|x l IH]; [done|]. cbn.
  destruct (f x); cbn; by rewrite IH.
Qed.

Lemma omap_pointwise {A B} (f g : A -> option B) (l : list A) :
  (forall x, f x = g x) -> omap f l = omap g l.
Proof.
  intros Hfg. induction l as [|x l IH]; [done|]. cbn. by rewrite Hfg, IH.
Qed.

Lemma omap_filter {A B} (g : A -> option B) (q : B -> bool) (l : list A) :
  omap g (List.filter (fun x => match g x with
                                | Some y => q y
                                | None => true
                                end) l)
  = List.filter q (omap g l).
Proof.
  induction l as [|x l IH]; [done|]. cbn.
  destruct (g x) as [y|] eqn:Hg; cbn.
  - destruct (q y); cbn; by rewrite ?Hg, IH.
  - by rewrite Hg.
Qed.

Lemma filter_sublist {A} (f : A -> bool) (l : list A) :
  List.filter f l `sublist_of` l.
Proof.
  induction l as [|x l IH]; [done|]. cbn.
  destruct (f x); by constructor.
Qed.

Lemma reindex_from_status o its (h : list DownloadItem) (r : nat) :
  status <$> reindex_from o its h !! r = status <$> h !! r.
Proof.
  pose proof (reindex_from_content o its h r) as Hc.
  apply (f_equal (fmap status)) in Hc.
  by rewrite <- !option_fmap_compose in Hc.
Qed.

(** With an empty dictionary the three selection handlers find no
    worker and change nothing. *)
Lemma for_selected_no_worker request s rows st :
  workers st = ∅ -> for_selected request s rows st = (Ret tt, st).
Proof.
  intros Hnone. unfold for_selected.
  induction rows as [|row rows IH]; [done|].
  cbn. unfold mbind, M_bind, bind, gets. cbn.
  by rewrite Hnone, lookup_empty.
Qed.

(** The aggregate is up to date after [_update_overall]. *)
Lemma update_overall_twice st :
  exec _update_overall (exec _update_overall st) = exec _update_overall st.
Proof. done. Qed.

(** X12.  [clear_finished] keeps the rows that are not [Done], [Error]
    or [Canceled], in their order and with their statuses, [index]
    again the row, and changes no object otherwise.  It empties the
    worker dictionary without sending a request to any worker, those
    of the rows it keeps included: the loop of the selection handlers
    finds no worker for them afterwards, so that [pause_selected] and
    [cancel_selected] leave the state as it is and [resume_selected]
    does what a pump cycle does. *)
Theorem clear_finished_keeps_the_unfinished st :
  well_formed st ->
  let st' := step st ClearFinished in
  well_formed st' /\
  items st' `sublist_of` items st /\
  statuses st' = List.filter (fun s => negb (terminal s)) (statuses st) /\
  (forall r : nat, content <$> store st' !! r = content <$> store st !! r) /\
  workers st' = ∅ /\
  effects st' = effects st /\
  (forall request s rows, for_selected request s rows st' = (Ret tt, st')) /\
  (forall rows, step st' (PauseSelected rows) = st') /\
  (forall rows, step st' (CancelSelected rows) = st') /\
  (forall rows, step st' (ResumeSelected rows) = exec _pump_queue st').
Proof.
  intros Hwf. cbn zeta.
  split; [by apply clear_finished_well_formed|].
  assert (workers (step st ClearFinished) = ∅) as Hnone by done.
  assert (exec _update_overall (step st ClearFinished) = step st ClearFinished)
    as Hsame.
  { unfold step, handler, clear_finished. rewrite !exec_bind.
    apply update_overall_twice. }
  split; [apply filter_sublist|].
  split.
  { unfold step, exec, handler, clear_finished, reindex, _update_overall,
      mbind, M_bind, bind, modify. cbn.
    unfold statuses, item_objects. cbn. rewrite fmap_omap.
    rewrite (omap_pointwise _ (fun r => status <$> store st !! r))
      by (intros r; apply reindex_from_status).
    rewrite fmap_omap. apply (omap_filter (fun r => status <$> store st !! r)). }
  split; [intros r; apply reindex_from_content|].
  split; [done|]. split; [done|].
  split; [intros request s rows; by apply for_selected_no_worker|].
  split; [|split]; intros rows; unfold step at 1; cbn [handler];
    unfold pause_selected, cancel_selected, resume_selected;
    rewrite exec_bind, for_selected_no_worker by done; done.
Qed.

Lemma clear_finished_keeps_the_unfinished_witness :
  statuses (step (step two_running (StatusEvent 0 Done)) ClearFinished)
  = List.filter (fun s => negb (terminal s))
                (statuses (step two_running (StatusEvent 0 Done))).
Proof.
  apply (clear_finished_keeps_the_unfinished
           (step two_running (StatusEvent 0 Done))).
  apply reachable_well_formed.
  apply (reachable_step _ (StatusEvent 0 Done)); [|exact I].
  apply (reachable_step _ Start); [|exact I].
  repeat (apply (reachable_step _ (AddUrl _)); [|exact I]).
  apply reachable_init.
Defined.

(** *** A cancel request is for good *)

Lemma stopped_under_ext k r st st' :
  workers st' = workers st -> stopped_under k r st -> stopped_under k r st'.
Proof. unfold stopped_under. by intros ->. Qed.

Lemma promote_stopped k r r' it st :
  stopped_under k r st -> stopped_under k r (snd (promote r' it st)).
Proof.
  intros (w & Hw & Hitem & Hstop). rewrite promote_run. cbn zeta.
  unfold stopped_under.
  destruct (deleted _); cbn;
    (destruct (decide (index it = k)) as [->|Hne];
     [ rewrite Hw, lookup_insert_eq; by exists (request_resume w)
     | rewrite lookup_insert_ne by done; by exists w ]).
Qed.

Lemma pump_stopped k r st :
  stopped_under k r st -> stopped_under k r (exec _pump_queue st).
Proof.
  intros Hst. apply pump_keeps; [|done|].
  - intros st'. by apply stopped_under_ext.
  - apply pump_loop_keeps; [|done].
    intros r' it st' _ _. apply promote_stopped.
Qed.

Lemma for_selected_stopped k r request s rows st :
  (forall w, item (request w) = item w) ->
  (forall w, _stop w = true -> _stop (request w) = true) ->
  stopped_under k r st ->
  stopped_under k r (snd (for_selected request s rows st)).
Proof.
  intros Hitem Hstop. unfold for_selected. apply for_each_keeps.
  clear st. intros row st (w & Hw & Hr & Hs).
  unfold mbind, M_bind, bind, gets, modify, item_at, update_object. cbn.
  destruct (workers st !! row) as [w0|] eqn:Hrow; cbn; [|by exists w].
  assert (stopped_under k r (with_workers (insert row (request w0)) st))
    as Hkept.
  { unfold stopped_under. cbn.
    destruct (decide (row = k)) as [->|Hne].
    - rewrite lookup_insert_eq. exists (request w0).
      assert (w0 = w) as -> by congruence.
      by rewrite Hitem, Hstop.
    - rewrite lookup_insert_ne by done. by exists w. }
  destruct (items st !! row); cbn; [|done].
  revert Hkept. by apply stopped_under_ext.
Qed.

Lemma remove_loop_stopped k r rows st :
  stopped_under k r st ->
  let st' := snd (for_each rows remove_row st) in
  stopped_under k r st' \/ workers st' !! k = None.
Proof.
  intros Hst. cbn zeta.
  apply (for_each_keeps
           (fun st => stopped_under k r st \/ workers st !! k = None));
    [|by left].
  clear st Hst. intros row st Hst.
  unfold remove_row, mbind, M_bind, bind, gets, modify, item_at. cbn.
  assert (forall st0, workers st0 = workers st ->
            stopped_under k r st0 \/ workers st0 !! k = None) as Hsame.
  { intros st0 Heq. destruct Hst as [Hst|Hnone]; [left|right].
    - revert Hst. by apply stopped_under_ext.
    - by rewrite Heq. }
  assert (forall st0, workers st0 = delete row (workers st) ->
            stopped_under k r st0 \/ workers st0 !! k = None) as Hdel.
  { intros st0 Heq. destruct (decide (row = k)) as [->|Hne].
    - right. by rewrite Heq, lookup_delete_eq.
    - destruct Hst as [(w & Hw & Hr & Hs)|Hnone]; [left|right].
      + exists w. by rewrite Heq, lookup_delete_ne.
      + by rewrite Heq, lookup_delete_ne. }
  assert (forall st0 w0, workers st !! row = Some w0 ->
            workers st0 = <[row:=request_cancel w0]> (workers st) ->
            stopped_under k r st0 \/ workers st0 !! k = None) as Hins.
  { intros st0 w0 Hrow Heq. destruct (decide (row = k)) as [->|Hne].
    - destruct Hst as [(w & Hw & Hr & Hs)|Hnone]; [left|congruence].
      exists (request_cancel w0). rewrite Heq, lookup_insert_eq.
      assert (w0 = w) as -> by congruence. done.
    - destruct Hst as [(w & Hw & Hr & Hs)|Hnone]; [left|right].
      + exists w. by rewrite Heq, lookup_insert_ne.
      + by rewrite Heq, lookup_insert_ne. }
  destruct (workers st !! row) as [w0|] eqn:Hrow; cbn;
    destruct (items st !! row); cbn;
    match goal with
    | |- stopped_under _ _ ?st0 \/ _ =>
      first [ apply (Hdel st0); cbn; by rewrite ?delete_insert_eq
            | by apply (Hsame st0)
            | by apply (Hins st0 w0) ]
    end.
Qed.

(** X13.  No operation of the controller clears a stop flag: a worker
    that is filed under a key with its stop flag set stays there, for
    the same item and with the flag set, until [remove_selected] or
    [clear_finished] takes it out of the dictionary. *)
Theorem cancel_is_never_taken_back st op k r :
  stopped_under k r st ->
  stopped_under k r (step st op) \/
  (drops_workers op = true /\ workers (step st op) !! k = None).
Proof.
  intros Hst. unfold step.
  destruct op; cbn [handler drops_workers].
  - left. revert Hst. by apply stopped_under_ext.
  - left. unfold start_queue. rewrite exec_bind. cbn.
    apply pump_stopped. revert Hst. by apply stopped_under_ext.
  - left. unfold pause_selected. rewrite exec_bind.
    pose proof (for_selected_stopped k r request_pause Paused rows st
                  (fun _ => eq_refl) (fun _ H => H) Hst) as Hkept.
    destruct (for_selected _ _ _ st) as [[[]|e] st']; cbn in Hkept; [|done].
    revert Hkept. by apply stopped_under_ext.
  - left. unfold resume_selected. rewrite exec_bind.
    pose proof (for_selected_stopped k r request_resume Downloading rows st
                  (fun _ => eq_refl) (fun _ H => H) Hst) as Hkept.
    destruct (for_selected _ _ _ st) as [[[]|e] st']; cbn in Hkept; [|done].
    by apply pump_stopped.
  - left. unfold cancel_selected. rewrite exec_bind.
    pose proof (for_selected_stopped k r request_cancel Canceled rows st
                  (fun _ => eq_refl) (fun _ _ => eq_refl) Hst) as Hkept.
    destruct (for_selected _ _ _ st) as [[[]|e] st']; cbn in Hkept; [|done].
    revert Hkept. by apply stopped_under_ext.
  - unfold remove_selected. rewrite exec_bind.
    pose proof (remove_loop_stopped k r (sorted_desc rows) st Hst) as Hkept.
    cbn zeta in Hkept.
    destruct (for_each _ _ st) as [[[]|e] st']; cbn in Hkept.
    + rewrite exec_bind. cbn.
      destruct Hkept as [Hkept|Hnone]; [left|by right].
      revert Hkept. by apply stopped_under_ext.
    + destruct Hkept as [Hkept|Hnone]; [by left|by right].
  - left. rewrite exec_bind. cbn. unfold _update_concurrency.
    rewrite exec_bind. cbn. apply pump_stopped.
    revert Hst. by apply stopped_under_ext.
  - right. split; [done|].
    unfold exec, clear_finished, reindex, _update_overall,
      mbind, M_bind, bind, modify. cbn. apply lookup_empty.
  - left. revert Hst. apply stopped_under_ext.
    unfold exec, on_progress, mbind, M_bind, bind, item_at, update_object,
      modify.
    destruct (items st !! idx); cbn; [|done]. by destruct (0 <? total).
  - left. revert Hst. apply stopped_under_ext.
    unfold exec, on_status, mbind, M_bind, bind, item_at, update_object,
      modify.
    by destruct (items st !! idx).
  - left. revert Hst. by apply stopped_under_ext.
  - left. revert Hst. apply stopped_under_ext.
    unfold exec, on_finished, mbind, M_bind, bind, gets. cbn.
    by destruct (all_terminal st), (chk_extract st).
  - left. destruct Hst as (w & Hw & Hr & Hs). unfold stopped_under. cbn.
    destruct (decide (key = k)) as [->|Hne].
    + exists (delete_runnable w). by rewrite lookup_alter_eq, Hw.
    + exists w. by rewrite lookup_alter_ne.
Qed.

Lemma cancel_is_never_taken_back_witness :
  stopped_under 0 0 (step one_canceled Start) \/
  (drops_workers Start = true /\ workers (step one_canceled Start) !! 0%nat = None).
Proof.
  apply (cancel_is_never_taken_back one_canceled Start 0 0).
  exists (mkWorker 0 false true false). repeat split; by vm_compute.
Defined.

(** Started again before its [run] has returned, the canceled part
    gets the worker that was told to stop; started again after the
    return, the part is marked [Downloading] and the pump raises. *)
Example canceled_part_restarts_stopped :
  statuses (step one_canceled Start) = [Downloading] /\
  last (effects (step one_canceled Start))
  = Some (ThreadStart (mkWorker 0 false true false)) /\
  fst (handler Start (step one_canceled (RunReturned 0))) = Raise RuntimeError /\
  statuses (replay [RunReturned 0; Start] one_canceled) = [Downloading] /\
  effects (replay [RunReturned 0; Start] one_canceled) = effects one_canceled.
Proof. repeat split; by vm_compute. Qed.

(** *** An event changes the row it names *)

(** Writing a field of the object of row [p] changes row [p] of what
    the table shows and no other row. *)
Lemma item_objects_alter f p r st :
  well_formed st -> items st !! p = Some r ->
  item_objects (with_store (alter f r) st) = alter f p (item_objects st).
Proof.
  intros Hwf Hp. pose proof Hwf as [Hnd Hvalid _].
  apply fmap_Some_inj. apply list_eq. intros q.
  unfold item_objects at 1. cbn [store items with_store].
  rewrite omap_total.
  2:{ apply Forall_forall. intros r' Hr'.
      apply lookup_lt_is_Some_2. rewrite length_alter. by apply Hvalid. }
  rewrite !list_lookup_fmap, list_lookup_alter.
  pose proof (item_objects_lookup st Hwf) as Hobjs.
  apply (f_equal (fun l => l !! q)) in Hobjs.
  rewrite !list_lookup_fmap in Hobjs.
  destruct (decide (p = q)) as [<-|Hne].
  - rewrite Hp in *. cbn in *. rewrite list_lookup_alter_eq.
    destruct (item_objects st !! p) as [o|]; cbn in *; [|done].
    by injection Hobjs as <-.
  - rewrite Hobjs. destruct (items st !! q) as [r'|] eqn:Hq; cbn; [|done].
    rewrite list_lookup_alter_ne; [done|].
    intros <-. apply Hne. by eapply NoDup_lookup.
Qed.

Lemma alter_twice {A} (f g : A -> A) (i : nat) (l : list A) :
  alter g i (alter f i l) = alter (fun x => g (f x)) i l.
Proof.
  apply list_eq. intros j. destruct (decide (i = j)) as [->|Hne].
  - rewrite !list_lookup_alter_eq. by destruct (l !! j).
  - by rewrite !list_lookup_alter_ne.
Qed.

(** X14.  A status or progress event for a row of the table writes the
    object of that row and nothing else: every other row shows what it
    showed, the collection, the workers and the effects are as they
    were, and the bar and the label are recomputed from the new
    rows. *)
Theorem event_changes_its_row idx st :
  well_formed st -> (idx < length (items st))%nat ->
  (forall s,
     let st' := step st (StatusEvent idx s) in
     item_objects st' = alter (set_status s) idx (item_objects st) /\
     items st' = items st /\ workers st' = workers st /\
     effects st' = effects st /\
     overall_bar st' = Aggregator.pct (item_objects st') /\
     lbl_overall st' = Aggregator.summary (item_objects st')) /\
  (forall dl total,
     let st' := step st (ProgressEvent idx dl total) in
     item_objects st'
     = alter (fun it => (if 0 <? total then set_size (Some total) else id)
                          (set_downloaded dl it)) idx (item_objects st) /\
     items st' = items st /\ workers st' = workers st /\
     effects st' = effects st /\
     overall_bar st' = Aggregator.pct (item_objects st') /\
     lbl_overall st' = Aggregator.summary (item_objects st')).
Proof.
  intros Hwf [r Hr]%lookup_lt_is_Some_2. split.
  - intros s. cbn zeta.
    unfold step, exec, handler, on_status, mbind, M_bind, bind, item_at,
      update_object, _update_overall, modify.
    rewrite Hr. cbn.
    rewrite <- (item_objects_alter (set_status s) idx r st Hwf Hr).
    done.
  - intros dl total. cbn zeta.
    unfold step, exec, handler, on_progress, mbind, M_bind, bind, item_at,
      update_object, _update_overall, modify.
    rewrite Hr. cbn.
    rewrite <- (item_objects_alter _ idx r st Hwf Hr).
    assert (alter (set_size (Some total)) r
              (alter (set_downloaded dl) r (store st))
            = alter (fun it => set_size (Some total) (set_downloaded dl it))
                    r (store st)) as Hboth
      by apply alter_twice.
    destruct (0 <? total); cbn; unfold item_objects; cbn;
      rewrite ?Hboth; repeat split; reflexivity.
Qed.

Lemma event_changes_its_row_witness :
  item_objects (step two_running (StatusEvent 1 Done))
  = alter (set_status Done) 1%nat (item_objects two_running).
Proof.
  destruct (event_changes_its_row 1 two_running) as [Hstatus _].
  - apply reachable_well_formed.
    apply (reachable_step _ Start); [|exact I].
    repeat (apply (reachable_step _ (AddUrl _)); [|exact I]).
    apply reachable_init.
  - vm_compute. lia.
  - by destruct (Hstatus Done) as [? _].
Defined.

(** *** Pumping twice *)

(** The entries of the dictionary that satisfy [p] are no more than
    the items that satisfy [q], when each such entry under key [o + i]
    has an item at row [i] that satisfies [q]. *)
Lemma filter_map_le_length {V} (q : nat -> bool) (p : nat * V -> bool)
    (l : list nat) (o : nat) (m : gmap nat V) :
  (forall k v, m !! k = Some v -> p (k, v) = true ->
     exists i r, k = (o + i)%nat /\ l !! i = Some r /\ q r = true) ->
  (length (List.filter p (map_to_list m)) <= length (List.filter q l))%nat.
Proof.
  revert o m. induction l as [|r l IH]; intros o m Hcov.
  { destruct (List.filter p (map_to_list m)) as [|[k v] rest] eqn:Hf; [done|].
    assert ((k, v) ∈ List.filter p (map_to_list m)) as Hin
      by (rewrite Hf; left).
    apply elem_of_filter in Hin as [Hin%elem_of_map_to_list Hp].
    by destruct (Hcov k v Hin Hp) as (i & r & _ & ? & _). }
  destruct (m !! o) as [v|] eqn:Hv.
  - rewrite <- (filter_length_Permutation p _ _ (map_to_list_delete m o v Hv)).
    assert (length (List.filter p (map_to_list (delete o m)))
            <= length (List.filter q l))%nat as Hrest.
    { apply (IH (S o)). intros k v' Hk Hp.
      apply lookup_delete_Some in Hk as [Hne Hk].
      destruct (Hcov k v' Hk Hp) as (i & r' & -> & Hi & Hq).
      destruct i as [|i]; [by rewrite Nat.add_0_r in Hne|].
      exists i, r'. split; [lia|done]. }
    cbn [List.filter]. destruct (p (o, v)) eqn:Hp.
    + destruct (Hcov o v Hv Hp) as (i & r' & Hi & Hr & Hq).
      assert (i = 0%nat) as -> by lia. cbn in Hr. injection Hr as ->.
      rewrite Hq. cbn. lia.
    + destruct (q r); cbn; lia.
  - etrans; [apply (IH (S o))|cbn; destruct (q r); cbn; lia].
    intros k v Hk Hp. destruct (Hcov k v Hk Hp) as (i & r' & -> & Hi & Hq).
    destruct i as [|i]; [rewrite Nat.add_0_r in Hk; congruence|].
    exists i, r'. split; [lia|done].
Qed.

(** Every worker counted by [active] is the worker of a [Downloading]
    row. *)
Lemma active_le_downloading st :
  in_step st -> (active st <= downloading st)%nat.
Proof.
  intros [Hkeyed _]. unfold downloading, active.
  apply (filter_map_le_length _ _ _ 0%nat). intros k w Hw Hp.
  exists k, (item w). split; [done|]. split; [by apply Hkeyed|done].
Qed.

Lemma filter_disjoint_length {A} (f g : A -> bool) (l : list A) :
  (forall x, x ∈ l -> f x = true -> g x = false) ->
  length (List.filter (fun x => f x || g x) l)
  = (length (List.filter f l) + length (List.filter g l))%nat.
Proof.
  induction l as [|a l IH]; intros Hfg; [done|].
  assert (forall x, x ∈ l -> f x = true -> g x = false) as Hl
    by (intros x Hx; apply Hfg; by right).
  specialize (IH Hl).
  assert (f a = true -> g a = false) as Ha by (apply Hfg; left).
  cbn [List.filter]. destruct (f a); cbn [orb].
  - rewrite Ha by done. cbn [length]. lia.
  - destruct (g a); cbn [length]; lia.
Qed.

Lemma length_filter_member (l k : list nat) :
  NoDup k -> (forall x, x ∈ k -> x ∈ l) ->
  (length k <= length (List.filter (fun x => bool_decide (x ∈ k)) l))%nat.
Proof.
  intros Hnd Hsub. apply submseteq_length, NoDup_submseteq; [done|].
  intros x Hx. apply elem_of_filter. split; [by apply Hsub|].
  by apply bool_decide_eq_true.
Qed.

(** A pump cycle makes [Downloading] every item it admits, on top of
    those that were. *)
Lemma downloading_after_pump st :
  well_formed st -> alive st ->
  (downloading st + length (take (free_slots st) (eligibles st))
   <= downloading (exec _pump_queue st))%nat.
Proof.
  intros Hwf Halive. pose proof (wf_nodup _ Hwf) as Hnd.
  set (admitted := take (free_slots st) (eligibles st)).
  assert (forall r, r ∈ admitted -> r ∈ items st /\ pumpable (store st) r = true)
    as Hadm.
  { intros r Hr%subseteq_take. by apply elem_of_filter in Hr. }
  unfold downloading. destruct (pump_frame st) as (-> & _).
  etrans; [|apply (filter_length_mono
    (fun r => bool_decide (status_of st r = Some Downloading)
              || bool_decide (r ∈ admitted)))].
  - rewrite filter_disjoint_length.
    + apply Nat.add_le_mono_l. apply length_filter_member.
      * eapply sublist_NoDup; [|apply sublist_take]. by apply NoDup_filter.
      * intros r Hr. by apply Hadm.
    + intros r _ Hd%bool_decide_eq_true. apply bool_decide_eq_false.
      intros [_ Hp]%Hadm. unfold pumpable, status_of in *.
      destruct (store st !! r) as [it|]; [|done]. cbn in Hd.
      injection Hd as Hd. by rewrite Hd in Hp.
  - intros r _ Hr. apply bool_decide_eq_true. unfold status_of.
    rewrite pump_lookup_alive by done. fold admitted.
    destruct (bool_decide (r ∈ admitted)) eqn:Hin.
    + apply bool_decide_eq_true in Hin. apply Hadm in Hin as [_ Hp].
      by destruct (pumpable_is_Some _ _ Hp) as [it ->].
    + rewrite orb_false_r in Hr. by apply bool_decide_eq_true in Hr.
Qed.

(** With nothing eligible the loop of the pump changes nothing. *)
Lemma pump_loop_idle its slots st :
  (forall r, r ∈ its -> pumpable (store st) r = false) ->
  pump_loop its slots st = (Ret tt, st).
Proof.
  revert slots. induction its as [|r its IH]; intros slots Hnone; [done|].
  cbn [pump_loop]. destruct (slots <=? 0); [done|].
  unfold mbind, M_bind, bind, gets.
  pose proof (Hnone r) as Hr. unfold pumpable in Hr.
  destruct (store st !! r) as [it|].
  - rewrite Hr by left. apply IH. intros r' Hr'. apply Hnone. by right.
  - apply IH. intros r' Hr'. apply Hnone. by right.
Qed.

(** Pumping again changes nothing: either the free slots were all
    filled, or nothing eligible is left. *)
Lemma pump_idempotent st :
  well_formed st -> in_step st -> alive st ->
  exec _pump_queue (exec _pump_queue st) = exec _pump_queue st.
Proof.
  intros Hwf Hstep Halive. pose proof (wf_nodup _ Hwf) as Hnd.
  destruct (pump_sound st Hwf Hstep) as [Hwf' Hstep'].
  pose proof (downloading_after_pump st Hwf Halive) as Hgrow.
  pose proof (downloading_le_active _ Hstep') as Hactive'.
  pose proof (active_le_downloading _ Hstep) as Hactive.
  assert (eligibles (exec _pump_queue st)
          = drop (free_slots st) (eligibles st)) as Hleft.
  { unfold eligibles at 1. destruct (pump_frame st) as (-> & _).
    unfold eligibles at 1. rewrite <- filter_minus_take by done.
    apply List.filter_ext. intros r. by apply pumpable_after_pump. }
  destruct (pump_frame st) as (Hitems & Hmax & _).
  rewrite (exec_pump_queue (exec _pump_queue st)). cbn zeta.
  destruct (Z.leb_spec (max_concurrency (exec _pump_queue st)
                        - Z.of_nat (active (exec _pump_queue st))) 0)
    as [Hfull|Hfree]; [done|].
  assert (eligibles (exec _pump_queue st) = []) as Hnone.
  { rewrite Hleft. apply drop_ge. rewrite length_take in Hgrow.
    unfold free_slots in *. lia. }
  rewrite pump_loop_idle.
  - rewrite exec_pump_queue in Hfree |- *. cbn zeta in Hfree |- *.
    destruct (Z.leb_spec (max_concurrency st - Z.of_nat (active st)) 0);
      [lia|].
    pose proof (pump_loop_returns (items st)
                  (max_concurrency st - Z.of_nat (active st)) st Halive)
      as Hret.
    by destruct (pump_loop _ _ st) as [[[]|e] st1].
  - intros r Hr. destruct (pumpable _ r) eqn:Hp; [|done].
    assert (r ∈ eligibles (exec _pump_queue st)) as Hin
      by (by apply elem_of_filter).
    rewrite Hnone in Hin. by apply elem_of_nil in Hin.
Qed.

Lemma with_max_concurrency_same st :
  with_max_concurrency (max_concurrency st) st = st.
Proof. by destruct st. Qed.

(** X15.  Pumping twice is pumping once, and so is pressing Start
    twice, on a collection that is in step with its dictionary and
    none of whose filed workers has been deleted by the thread pool:
    after a pump cycle either every free slot is filled or nothing
    eligible is left, so a second cycle starts no worker and changes
    nothing. *)
Theorem start_twice_is_start_once st :
  well_formed st -> in_step st -> alive st ->
  exec _pump_queue (exec _pump_queue st) = exec _pump_queue st /\
  step (step st Start) Start = step st Start.
Proof.
  intros Hwf Hstep Halive. split; [by apply pump_idempotent|].
  unfold step. cbn [handler]. unfold start_queue.
  rewrite !exec_bind. cbn.
  set (st0 := with_max_concurrency (concurrency st) st).
  assert (well_formed st0) as Hwf0 by (revert Hwf; by apply well_formed_ext).
  assert (in_step st0) as Hstep0 by (by destruct Hstep).
  assert (alive st0) as Halive0 by done.
  destruct (pump_frame st0) as (_ & Hmax & Hconc & _).
  rewrite Hconc. change (concurrency st0) with (max_concurrency st0).
  rewrite <- Hmax, with_max_concurrency_same.
  by apply pump_idempotent.
Qed.

Lemma start_twice_is_start_once_witness :
  step (step four_queued Start) Start = step four_queued Start.
Proof.
  apply (start_twice_is_start_once four_queued).
  - apply reachable_well_formed.
    repeat (apply (reachable_step _ (AddUrl _)); [|exact I]).
    apply reachable_init.
  - split.
    + intros k w Hw.
      assert (workers four_queued = ∅) as Hnone by reflexivity.
      rewrite Hnone, lookup_empty in Hw. discriminate.
    + intros p r Hp Hs. exfalso.
      destruct p as [|[|[|[|p]]]]; vm_compute in Hp; try discriminate;
        injection Hp as <-; vm_compute in Hs; discriminate.
  - intros k w Hw.
    assert (workers four_queued = ∅) as Hnone by reflexivity.
    rewrite Hnone, lookup_empty in Hw. discriminate.
Defined.

(** A first Start that raises leaves the second one something to do:
    part 0 failed and its [run] has returned, part 1 waits; the first
    Start marks part 0 [Downloading] and raises, the second starts
    part 1. *)
Example start_twice_after_a_raise :
  let st := replay [AddUrl "a"; AddUrl "b"; SetCeiling 1; Start;
                    StatusEvent 0 Error; RunReturned 0; SetCeiling 2] init in
  statuses st = [Downloading; Queued] /\
  statuses (step st Start) = [Downloading; Downloading].
Proof. split; by vm_compute. Qed.

End SchedulerFacts.

(** ** Archive detection, extraction and clean-up *)

Module ArchiveFacts.
Import Archive.

(** *** The string tests *)

Lemma app_cons c (a b : string) : String c a +:+ b = String c (a +:+ b).
Proof. reflexivity. Qed.

Lemma app_nil_l (b : string) : "" +:+ b = b.
Proof. reflexivity. Qed.

Lemma app_nil_r (a : string) : a +:+ "" = a.
Proof. induction a as [|c a IH]; [done|]. by rewrite app_cons, IH. Qed.

Lemma app_assoc_string (a b c : string) : (a +:+ b) +:+ c = a +:+ b +:+ c.
Proof. induction a as [|x a IH]; [done|]. by rewrite !app_cons, IH. Qed.

Lemma prefix_cons c p d s :
  String.prefix (String c p) (String d s)
  = if Ascii.ascii_dec c d then String.prefix p s else false.
Proof. reflexivity. Qed.

Lemma prefix_spec p s :
  String.prefix p s = true <-> exists b, s = p +:+ b.
Proof.
  revert s. induction p as [|c p IH]; intros s.
  - destruct s; (split; [intros _; by eexists | done]).
  - destruct s as [|d s].
    + split; [done | by intros [b [=]]].
    + rewrite prefix_cons. setoid_rewrite app_cons.
      destruct (Ascii.ascii_dec c d) as [->|Hne].
      * rewrite IH. split; intros [b Hb]; exists b; congruence.
      * split; [done | intros [b [=]]; done].
Qed.

Lemma contains_spec p s :
  contains p s = true <-> exists a b, s = a +:+ p +:+ b.
Proof.
  induction s as [|c s IH]; cbn [contains]; rewrite orb_true_iff, prefix_spec.
  - split.
    + intros [[b Hb]|[=]]. by exists "", b.
    + intros (a & b & Hab). left. destruct a; [by exists b|done].
  - rewrite IH. split.
    + intros [[b Hb]|(a & b & Hab)]; [by exists "", b|].
      exists (String c a), b. by rewrite app_cons, Hab.
    + intros (a & b & Hab). destruct a as [|d a]; [left; by exists b|].
      right. exists a, b. rewrite app_cons in Hab. by injection Hab.
Qed.

Lemma endswith_spec p s : endswith p s = true <-> exists a, s = a +:+ p.
Proof.
  induction s as [|c s IH]; cbn [endswith];
    rewrite orb_true_iff, String.eqb_eq.
  - split.
    + intros [<-|[=]]. by exists "".
    + intros [a Ha]. left. destruct a; [done|discriminate].
  - rewrite IH. split.
    + intros [<-|[a ->]]; [by exists ""|]. by exists (String c a).
    + intros [a Ha]. destruct a as [|d a]; [by left|].
      right. exists a. rewrite app_cons in Ha. by injection Ha.
Qed.

Lemma lower_app a b : lower (a +:+ b) = lower a +:+ lower b.
Proof.
  induction a as [|c a IH]; [done|]. rewrite app_cons. cbn [lower].
  by rewrite IH, app_cons.
Qed.

(** A pattern found inside a pattern that is found in [s] is found in
    [s]. *)
Lemma contains_trans p q s :
  contains p q = true -> contains q s = true -> contains p s = true.
Proof.
  rewrite !contains_spec. intros (a & b & ->) (c & d & ->).
  exists (c +:+ a), (b +:+ d). by rewrite !app_assoc_string.
Qed.

Lemma endswith_contains p s : endswith p s = true -> contains p s = true.
Proof.
  rewrite endswith_spec, contains_spec. intros [a ->]. exists a, "".
  by rewrite app_nil_r.
Qed.

(** *** Detection and clean-up *)

(** What [is_archive_first_part] accepts, [_cleanup_parts] deletes. *)
Lemma detected_is_part f : is_archive_first_part f = true -> is_part f = true.
Proof.
  unfold is_archive_first_part, is_part. cbn zeta.
  destruct (contains ".part1." (lower f)) eqn:Hpart.
  { intros _. apply orb_true_iff. right.
    by apply (contains_trans _ ".part1."). }
  unfold endswith_any, exts. cbn [existsb].
  destruct (endswith ".rar" (lower f)), (endswith ".zip" (lower f)),
    (endswith ".7z" (lower f)), (endswith ".001" (lower f)); done.
Qed.

Lemma filter_nil {A} (f : A -> bool) l :
  (forall x, x ∈ l -> f x = false) -> List.filter f l = [].
Proof.
  induction l as [|a l IH]; intros Hf; [done|]. cbn.
  rewrite (Hf a) by left. apply IH. intros x Hx. apply Hf. by right.
Qed.

Lemma elem_of_sorted f dir : f ∈ sorted dir <-> f ∈ dir.
Proof. unfold sorted. by rewrite merge_sort_Permutation. Qed.

Lemma elem_of_list_filter {A} (f : A -> bool) l x :
  x ∈ List.filter f l <-> x ∈ l /\ f x = true.
Proof. rewrite !list_elem_of_In. apply List.filter_In. Qed.

(** The head of a filtered sorted list is below every element that
    passes the filter. *)
Lemma filter_sorted_head {A} (R : relation A) `{!Reflexive R}
    (f : A -> bool) l a rest :
  StronglySorted R l -> List.filter f l = a :: rest ->
  forall x, x ∈ l -> f x = true -> R a x.
Proof.
  induction 1 as [|b l Hl IH Hb]; [done|]. cbn.
  destruct (f b) eqn:Hfb.
  - intros [= -> _] x [->|Hx]%elem_of_cons _; [done|].
    rewrite Forall_forall in Hb. by apply Hb.
  - intros Hrest x [->|Hx]%elem_of_cons Hfx; [congruence|]. by apply IH.
Qed.

Lemma sorted_sorted dir : StronglySorted String.le (sorted dir).
Proof. apply StronglySorted_merge_sort; apply _. Qed.

Lemma sorted_Permutation dir dir' : dir ≡ₚ dir' -> sorted dir = sorted dir'.
Proof.
  intros Hperm. apply (StronglySorted_unique String.le);
    [apply sorted_sorted.. |].
  unfold sorted. by rewrite !merge_sort_Permutation.
Qed.

(** X16.  The archive [extract_all] hands to the extractor is a name
    of the directory that passes [is_archive_first_part], the least
    such name in code-point order; it reports that no archive was
    found exactly when no name of the directory passes. *)
Theorem extract_all_picks_least chk_cleanup extract removable dir :
  (forall archive,
     (fst (extract_all true chk_cleanup extract removable dir)
        = ExtractionComplete archive ->
      archive ∈ dir /\ is_archive_first_part archive = true /\
      fst (extract archive) = true /\
      forall f, f ∈ dir -> is_archive_first_part f = true ->
                String.le archive f)) /\
  (fst (extract_all true chk_cleanup extract removable dir) = NoArchiveFound
   <-> forall f, f ∈ dir -> is_archive_first_part f = false).
Proof.
  unfold extract_all. cbn [negb].
  destruct (List.filter is_archive_first_part (sorted dir))
    as [|a rest] eqn:Hcand.
  - split; [done|]. cbn. split; [|done]. intros _ f Hf.
    destruct (is_archive_first_part f) eqn:Hdet; [|done].
    assert (f ∈ List.filter is_archive_first_part (sorted dir)) as Hin
      by (by rewrite elem_of_list_filter, elem_of_sorted).
    rewrite Hcand in Hin. by apply elem_of_nil in Hin.
  - assert (a ∈ List.filter is_archive_first_part (sorted dir)) as Ha
      by (rewrite Hcand; left).
    apply elem_of_list_filter in Ha as [Ha Hdet].
    apply (proj1 (elem_of_sorted _ _)) in Ha.
    split.
    + intros archive. destruct (extract a) as [[] dir'] eqn:Hext; cbn; [|done].
      intros [= <-]. rewrite Hext. repeat split; try done.
      intros f Hf Hdetf.
      apply (filter_sorted_head String.le is_archive_first_part
               (sorted dir) a rest); try done.
      * apply sorted_sorted.
      * by apply elem_of_sorted.
    + split; [by destruct (extract a) as [[] ?]|].
      intros Hnone. rewrite (Hnone a Ha) in Hdet. done.
Qed.

(** X17.  What [extract_all] reports does not depend on the order in
    which the directory is listed: the names are sorted before the
    archive is looked for. *)
Theorem extract_all_order_independent patoolib chk_cleanup extract removable
    dir dir' :
  dir ≡ₚ dir' ->
  fst (extract_all patoolib chk_cleanup extract removable dir)
  = fst (extract_all patoolib chk_cleanup extract removable dir').
Proof.
  intros Hperm. unfold extract_all. rewrite (sorted_Permutation dir dir') by done.
  destruct patoolib; [|done]. cbn [negb].
  destruct (List.filter is_archive_first_part (sorted dir')) as [|a rest];
    [done|].
  by destruct (extract a) as [[] ?].
Qed.

Lemma extract_all_order_independent_witness :
  fst (extract_all true false (fun _ => (true, [])) (fun _ => true)
         ["b.part2.rar"; "b.part1.rar"; "notes.txt"])
  = fst (extract_all true false (fun _ => (true, [])) (fun _ => true)
           ["notes.txt"; "b.part1.rar"; "b.part2.rar"]).
Proof.
  apply extract_all_order_independent.
  etrans; [apply perm_swap|]. etrans; [apply perm_skip, perm_swap|].
  apply perm_swap.
Defined.

(** X18.  After an extraction with clean-up in which every removal
    succeeds, the directory holds no name [is_archive_first_part]
    accepts: whatever [_cleanup_parts] leaves, the next [extract_all]
    finds no archive in it. *)
Theorem cleanup_leaves_no_archive extract removable dir archive dir' :
  (forall f, removable f = true) ->
  extract_all true true extract removable dir
  = (ExtractionComplete archive, dir') ->
  (forall f, f ∈ dir' -> is_archive_first_part f = false) /\
  forall chk_cleanup' extract' removable',
    extract_all true chk_cleanup' extract' removable' dir'
    = (NoArchiveFound, dir').
Proof.
  intros Hrem. unfold extract_all at 1. cbn [negb].
  destruct (List.filter is_archive_first_part (sorted dir)) as [|a rest];
    [done|].
  destruct (extract a) as [[] listing]; [|done]. intros [= _ <-].
  assert (forall f, f ∈ _cleanup_parts removable listing ->
                    is_archive_first_part f = false) as Hclean.
  { intros f [_ Hf]%elem_of_list_filter. rewrite Hrem, andb_true_r in Hf.
    destruct (is_archive_first_part f) eqn:Hdet; [|done].
    apply detected_is_part in Hdet. by rewrite Hdet in Hf. }
  split; [done|]. intros chk_cleanup' extract' removable'.
  unfold extract_all. cbn [negb]. rewrite filter_nil; [done|].
  intros f Hf. apply Hclean. by apply (proj1 (elem_of_sorted _ _)).
Qed.

Lemma cleanup_leaves_no_archive_witness :
  extract_all true false (fun _ => (true, [])) (fun _ => true) ["game.exe"]
  = (NoArchiveFound, ["game.exe"]).
Proof.
  destruct (cleanup_leaves_no_archive
              (fun _ => (true, ["game.part1.rar"; "game.part2.rar";
                                "game.exe"; "data.zip"]))
              (fun _ => true) ["game.part2.rar"; "game.part1.rar"]
              "game.part1.rar" ["game.exe"]) as [_ Hnext];
    [reflexivity | vm_compute; reflexivity |].
  exact (Hnext false (fun _ => (true, [])) (fun _ => true)).
Defined.

(** *** Sizes for display *)

Lemma pow1024_S k : (pow1024 (S k) == 1024 * pow1024 k)%Q.
Proof.
  unfold pow1024. rewrite Nat2Z.inj_succ, Z.pow_succ_r by lia.
  by rewrite inject_Z_mult.
Qed.

Lemma pow1024_0 f : (f * pow1024 0 == f)%Q.
Proof.
  assert (pow1024 0 == 1)%Q as -> by reflexivity. apply Qmult_1_r.
Qed.

(** The loop of [human_bytes]: after [k] divisions the value times
    [1024 ** k] is the value it started from; it stops below 1024 or
    at the last unit, and never steps past the last unit. *)
Lemma scale_spec fuel f i f' i' :
  scale fuel f i = (f', i') ->
  exists k, i' = (i + k)%nat /\ (k <= fuel)%nat /\
    (f' * pow1024 k == f)%Q /\
    (k = 0%nat \/ (1 <= f')%Q) /\
    ((k < fuel)%nat -> (f' < 1024)%Q \/ (4 <= i')%nat) /\
    ((i <= 4)%nat -> (i' <= 4)%nat).
Proof.
  revert f i. induction fuel as [|fuel IH]; intros f i; cbn [scale].
  { intros [= <- <-]. exists 0%nat. repeat split; try lia.
    apply pow1024_0. }
  destruct (Qle_bool 1024 f) eqn:Hle; cbn [andb].
  2:{ intros [= <- <-]. exists 0%nat. repeat split; try lia.
      - apply pow1024_0.
      - intros _. left. apply Qnot_le_lt. intros H%Qle_bool_iff. congruence. }
  destruct (i <? length units - 1)%nat eqn:Hi.
  2:{ intros [= <- <-]. exists 0%nat. apply Nat.ltb_ge in Hi. cbn in Hi.
      repeat split; try lia.
      apply pow1024_0. }
  apply Nat.ltb_lt in Hi. cbn in Hi. apply Qle_bool_iff in Hle.
  intros (k & -> & Hk & Hf & Hone & Hexit & Hmax)%IH.
  exists (S k). repeat split; try lia.
  - rewrite pow1024_S.
    assert (f == 1024 * (f / 1024))%Q as -> by (field; discriminate).
    rewrite <- Hf. ring.
  - right. destruct Hone as [->|]; [|done].
    rewrite pow1024_0 in Hf. rewrite Hf.
    apply Qle_shift_div_l; [done|]. by rewrite Qmult_1_l.
  - intros Hlt. destruct Hexit as [|]; [lia|by left|right; lia].
Qed.

(** The loop ends on its own: more turns than there are units change
    nothing. *)
Lemma scale_fuel fuel fuel' f i :
  (length units - 1 - i <= fuel)%nat -> (length units - 1 - i <= fuel')%nat ->
  scale fuel f i = scale fuel' f i.
Proof.
  revert fuel' f i. induction fuel as [|fuel IH]; intros [|fuel'] f i;
    cbn [scale length units]; intros Hfuel Hfuel'; try done.
  - replace (i <? 5 - 1)%nat with false
      by (symmetry; apply Nat.ltb_ge; lia).
    by rewrite andb_false_r.
  - replace (i <? 5 - 1)%nat with false
      by (symmetry; apply Nat.ltb_ge; lia).
    by rewrite andb_false_r.
  - destruct (Qle_bool 1024 f && (i <? 5 - 1)%nat); [|done].
    apply IH; cbn; lia.
Qed.

(** X19.  For a size that is known and not negative [human_bytes] never
    indexes past the list of units: it shows a value and one of the
    five units, the value times the unit's weight is the size, the
    value is below 1024 for every unit but the last and at least 1
    for every unit but the first. *)
Theorem human_bytes_in_unit n :
  0 <= n ->
  exists f k u,
    human_bytes (Some n) = Scheduler.Ret (Amount f u) /\
    units !! k = Some u /\
    (f * pow1024 k == inject_Z n)%Q /\
    ((k < 4)%nat -> (f < 1024)%Q) /\
    ((0 < k)%nat -> (1 <= f)%Q).
Proof.
  intros Hn. unfold human_bytes.
  destruct (n <? 0) eqn:Hneg; [apply Z.ltb_lt in Hneg; lia|].
  destruct (scale (length units - 1) (inject_Z n) 0) as [f i] eqn:Hscale.
  apply scale_spec in Hscale as (k & -> & Hk & Hf & Hone & Hexit & Hmax).
  cbn in Hk. cbn [Nat.add].
  destruct (lookup_lt_is_Some_2 units k) as [u Hu]; [cbn; lia|].
  exists f, k, u. rewrite Hu. repeat split; try done.
  - intros Hlt. destruct Hexit as [|]; [cbn; lia|done|cbn in *; lia].
  - intros Hpos. destruct Hone as [|]; [lia|done].
Qed.

Lemma human_bytes_in_unit_witness :
  exists f k u,
    human_bytes (Some 1536) = Scheduler.Ret (Amount f u) /\
    units !! k = Some u /\
    (f * pow1024 k == inject_Z 1536)%Q /\
    ((k < 4)%nat -> (f < 1024)%Q) /\
    ((0 < k)%nat -> (1 <= f)%Q).
Proof. apply (human_bytes_in_unit 1536). lia. Defined.

(** *** What counts as a first part *)

(** X20.  [is_archive_first_part] accepts every name that ends in one
    of the four extensions, in any letter case and whichever volume of
    a set it is, as well as every name with [.part1.] in it; so which
    archive [extract_all] opens is decided by the order of the names
    alone. *)
Theorem detection_accepts_every_volume :
  (forall stem ext,
     lower ext ∈ exts -> is_archive_first_part (stem +:+ ext) = true) /\
  (forall stem rest,
     is_archive_first_part (stem +:+ ".part1." +:+ rest) = true).
Proof.
  split.
  - intros stem ext Hext. unfold is_archive_first_part. cbn zeta.
    destruct (contains ".part1." (lower (stem +:+ ext))); [done|].
    assert (endswith (lower ext) (lower (stem +:+ ext)) = true) as Hends
      by (apply endswith_spec; exists (lower stem); apply lower_app).
    unfold endswith_any, exts in *. cbn [existsb].
    rewrite !elem_of_cons, elem_of_nil in Hext.
    destruct Hext as [Hext|[Hext|[Hext|[Hext|[]]]]];
      rewrite Hext in Hends; revert Hends;
      by destruct (endswith ".rar" _), (endswith ".zip" _),
           (endswith ".7z" _), (endswith ".001" _).
  - intros stem rest. unfold is_archive_first_part. cbn zeta.
    assert (contains ".part1." (lower (stem +:+ ".part1." +:+ rest)) = true)
      as -> ; [|done].
    apply contains_spec. exists (lower stem), (lower rest).
    by rewrite !lower_app.
Qed.

(** Capitals sort first: of a set whose second part is capitalised
    the second part is what is handed to the extractor. *)
Example second_part_is_extracted :
  fst (extract_all true false (fun _ => (true, [])) (fun _ => true)
         ["game.part1.rar"; "Game.part2.rar"])
  = ExtractionComplete "Game.part2.rar".
Proof. by vm_compute. Qed.

(** X22.  The partial file of every download, whatever its name,
    is among the files [_cleanup_parts] deletes: once its removal
    succeeds it is not in the directory the clean-up leaves.  The
    clean-up adds nothing to the directory, and it keeps every file
    that fails its test. *)
Theorem cleanup_deletes_partial_files removable dir :
  (forall final_path, is_part (temp_path final_path) = true) /\
  (forall final_path,
     removable (temp_path final_path) = true ->
     temp_path final_path ∉ _cleanup_parts removable dir) /\
  (forall f, f ∈ _cleanup_parts removable dir -> f ∈ dir) /\
  (forall f, f ∈ dir -> is_part f = false -> f ∈ _cleanup_parts removable dir).
Proof.
  assert (forall final_path, is_part (temp_path final_path) = true) as Htemp.
  { intros final_path. unfold is_part, temp_path.
    apply orb_true_iff. right. apply endswith_contains, endswith_spec.
    exists (lower final_path). apply lower_app. }
  split; [done|]. split; [|split].
  - intros final_path Hrem [_ Hkept]%elem_of_list_filter.
    by rewrite Htemp, Hrem in Hkept.
  - by intros f [Hf _]%elem_of_list_filter.
  - intros f Hf Hpart. apply elem_of_list_filter. split; [done|].
    by rewrite Hpart.
Qed.

(** *** The output folder *)

Lemma slice_from_app p d : slice_from (String.length p) (p +:+ d) = d.
Proof. induction p as [|c p IH]; [by destruct d|]. by rewrite app_cons. Qed.

Lemma current_output_dir_app downloads d :
  current_output_dir downloads ("Output: " +:+ d) = d.
Proof.
  unfold current_output_dir.
  assert (String.prefix "Output: " ("Output: " +:+ d) = true) as ->
    by (apply prefix_spec; by exists d).
  apply slice_from_app.
Qed.

(** X21.  The folder the user picks is the folder the downloads and
    the extraction use: after [choose_folder] returned a folder,
    [current_output_dir] is that folder, and a dismissed dialog
    changes nothing.  Every text the label is ever given starts with
    the prefix the function looks for, so the fall-back to
    [downloads] is never taken: before [main] sets the label the
    folder is the text after the prefix of the label as built. *)
Theorem chosen_folder_is_used downloads :
  (forall d text, d <> "" ->
     current_output_dir downloads (choose_folder d text) = d) /\
  (forall text, choose_folder "" text = text) /\
  (forall text downloads',
     labelled text ->
     current_output_dir downloads text = current_output_dir downloads' text) /\
  current_output_dir downloads "Output: Not set" = "Not set".
Proof.
  split; [|split; [done|split; [|done]]].
  - intros d text Hd. unfold choose_folder.
    destruct (String.eqb_spec d ""); [done|].
    apply current_output_dir_app.
  - intros text downloads'. induction 1 as [|initial_dir|d text _ IH].
    + done.
    + by rewrite !current_output_dir_app.
    + unfold choose_folder. destruct (String.eqb d ""); [done|].
      by rewrite !current_output_dir_app.
Qed.

End ArchiveFacts.
